(** * Suggestion lifecycle of the `edit` and `analyze` commands

    A shallow embedding of the edit command (analysis of one file, filtering
    of the suggestions, line-range applier, backup and confirmation flow,
    the wrapper that runs it between git commands) and of the analyze
    command (walk over the directory, per-file analysis, response parsing,
    summary, offer of fixes), followed by the properties established about
    them.

    Conventions of the embedding:
    - a JavaScript string is a [string]: a sequence of 8-bit code units
      (U+0000 to U+00FF);
    - line numbers, confidences and metrics of the typed interfaces are
      integers ([Z]); quotients are exact rationals, with the special values
      of JavaScript numbers added where the code can produce them;
    - input and output go through an explicit world record and an event
      trace. *)

From Stdlib Require Import Ascii String.
From Stdlib Require Import List ZArith QArith Bool Lia.
From Stdlib Require Import Permutation Sorted.
Import ListNotations.

Open Scope string_scope.
Open Scope list_scope.

Set Implicit Arguments.

(** ** JavaScript arrays and strings *)

Module Js.

Local Open Scope Z_scope.

Definition LF : ascii := "010"%char.

(** [Array.prototype.join] on an array of strings. *)
Fixpoint join (sep : string) (l : list string) : string :=
  match l with
  | [] => EmptyString
  | [x] => x
  | x :: rest => (x ++ sep ++ join sep rest)%string
  end.

(** [String.prototype.split] with a separator of one code unit. *)
Fixpoint split (sep : ascii) (s : string) : list string :=
  match s with
  | EmptyString => [EmptyString]
  | String c rest =>
      if Ascii.eqb c sep then EmptyString :: split sep rest
      else match split sep rest with
           | [] => [String c EmptyString]
           | piece :: pieces => String c piece :: pieces
           end
  end.

(** [Array.prototype.splice(start, deleteCount, ...items)], returning the
    array after the call.  A negative [start] counts from the end, and both
    arguments are clamped to the array. *)
Definition splice {A} (l : list A) (start deleteCount : Z) (items : list A)
  : list A :=
  let len := Z.of_nat (length l) in
  let actualStart :=
    if start <? 0 then Z.max (len + start) 0 else Z.min start len in
  let actualDeleteCount := Z.min (Z.max deleteCount 0) (len - actualStart) in
  firstn (Z.to_nat actualStart) l ++ items
    ++ skipn (Z.to_nat (actualStart + actualDeleteCount)) l.


(** *** Values, completions and coercions

    What [JSON.parse] returns is untyped: the TypeScript annotations are
    erased, so the code that reads an oracle response works on values of any
    shape.  [value] covers the values a JSON text can denote, and
    [Undefined], which reading a missing property gives. *)

#[warnings="-register-all"]
Inductive value : Type :=
| Undefined
| Null
| Bool (b : bool)
| Num (q : Q)
| Str (s : string)
| Arr (elements : list value)
| Obj (members : list (string * value)).

Inductive error : Type :=
| TypeError
| SyntaxError
| Error (message : string).

(** Outcome of an expression or a call that may throw. *)
Inductive completion (A : Type) : Type :=
| Normal (a : A)
| Throw (e : error).

Arguments Normal {A} a.
Arguments Throw {A} e.

Definition bind {A B} (c : completion A) (k : A -> completion B)
  : completion B :=
  match c with
  | Normal a => k a
  | Throw e => Throw e
  end.

Notation "'let*' x ':=' c 'in' k" := (bind c (fun x => k))
  (at level 10, x name, c at level 100, k at level 200).

(** A JavaScript number where the code can produce a value that is not a
    rational. *)
Inductive number : Type :=
| Finite (q : Q)
| NaN
| PosInfinity
| NegInfinity.

Definition ofZ (n : Z) : Q := inject_Z n.
Definition ofNat (n : nat) : Q := inject_Z (Z.of_nat n).

Fixpoint lookup (key : string) (members : list (string * value))
  : option value :=
  match members with
  | [] => None
  | (k, v) :: rest => if String.eqb k key then Some v else lookup key rest
  end.

(** [CreateDataProperty]: an existing member keeps its place and takes the
    new value, a new member goes to the end. *)
Fixpoint setMember (key : string) (v : value) (members : list (string * value))
  : list (string * value) :=
  match members with
  | [] => [(key, v)]
  | (k, old) :: rest =>
      if String.eqb k key then (k, v) :: rest
      else (k, old) :: setMember key v rest
  end.

(** [v.key], for the property names the commands read ([length] and plain
    names that are neither array indices nor properties of the built-in
    prototypes). *)
Definition get (v : value) (key : string) : completion value :=
  match v with
  | Undefined | Null => Throw TypeError
  | Bool _ | Num _ => Normal Undefined
  | Str s =>
      Normal (if String.eqb key "length" then Num (ofNat (String.length s))
              else Undefined)
  | Arr elements =>
      Normal (if String.eqb key "length" then Num (ofNat (length elements))
              else Undefined)
  | Obj members =>
      Normal (match lookup key members with
              | Some x => x
              | None => Undefined
              end)
  end.

(** [ToBoolean]. *)
Definition truthy (v : value) : bool :=
  match v with
  | Undefined | Null => false
  | Bool b => b
  | Num q => negb (Qeq_bool q 0)
  | Str s => negb (String.eqb s "")
  | Arr _ | Obj _ => true
  end.

(** [a || b] on values. *)
Definition orElse (a b : value) : value := if truthy a then a else b.

(** **** Reading numerals *)

Definition code (c : ascii) : N := N_of_ascii c.

Definition isDigit (c : ascii) : bool :=
  (48 <=? code c)%N && (code c <=? 57)%N.

Definition digitValue (c : ascii) : Z := Z.of_N (code c) - 48.

(** Value of a hexadecimal digit, if [c] is one. *)
Definition hexValue (c : ascii) : option Z :=
  let n := code c in
  if ((48 <=? n) && (n <=? 57))%N then Some (Z.of_N n - 48)
  else if ((65 <=? n) && (n <=? 70))%N then Some (Z.of_N n - 55)
  else if ((97 <=? n) && (n <=? 102))%N then Some (Z.of_N n - 87)
  else None.

(** Longest prefix of decimal digits, and what follows it. *)
Fixpoint takeDigits (cs : list ascii) : list ascii * list ascii :=
  match cs with
  | c :: rest =>
      if isDigit c then let (ds, tl) := takeDigits rest in (c :: ds, tl)
      else ([], cs)
  | [] => ([], [])
  end.

Definition natural (digits : list ascii) : Z :=
  fold_left (fun acc c => 10 * acc + digitValue c) digits 0.

(** [mantissa * 10 ^ exponent]. *)
Definition scale (mantissa exponent : Z) : Q :=
  if exponent >=? 0 then inject_Z (mantissa * 10 ^ exponent)
  else Qmake mantissa (Z.to_pos (10 ^ (- exponent))).

(** The number written with the integer digits [int], the fraction digits
    [frac] and the decimal exponent [exponent]. *)
Definition decimal (negative : bool) (int frac : list ascii) (exponent : Z)
  : Q :=
  let mantissa := natural (int ++ frac) in
  scale (if negative then - mantissa else mantissa)
        (exponent - Z.of_nat (length frac)).

(** An optional exponent part [e|E (+|-)? digits]: its value and what
    follows, [None] when the exponent is started and malformed. *)
Definition takeExponent (cs : list ascii) : option (Z * list ascii) :=
  match cs with
  | c :: rest =>
      if Ascii.eqb c "e" || Ascii.eqb c "E" then
        let (negative, rest') :=
          match rest with
          | s :: tl =>
              if Ascii.eqb s "-" then (true, tl)
              else if Ascii.eqb s "+" then (false, tl)
              else (false, rest)
          | [] => (false, rest)
          end in
        match takeDigits rest' with
        | ([], _) => None
        | (ds, tl) => Some (if negative then - natural ds else natural ds, tl)
        end
      else Some (0, cs)
  | [] => Some (0, [])
  end.

(** **** White space and [trim] *)

(** White space and line terminators among the 8-bit code units: what
    [String.prototype.trim] removes and [ToNumber] ignores around a
    numeral. *)
Definition isWhiteSpace (c : ascii) : bool :=
  let n := code c in
  ((9 <=? n) && (n <=? 13) || (n =? 32) || (n =? 160))%N.

Fixpoint trimStart (cs : list ascii) : list ascii :=
  match cs with
  | c :: rest => if isWhiteSpace c then trimStart rest else cs
  | [] => []
  end.

Definition trimChars (cs : list ascii) : list ascii :=
  rev (trimStart (rev (trimStart cs))).

Definition trim (s : string) : string :=
  string_of_list_ascii (trimChars (list_ascii_of_string s)).

(** **** [ToNumber] and the relational operators *)

(** [cs] without the prefix [prefix], if it starts with it. *)
Fixpoint stripPrefix (prefix cs : list ascii) : option (list ascii) :=
  match prefix, cs with
  | [], _ => Some cs
  | p :: prefix', c :: rest =>
      if Ascii.eqb p c then stripPrefix prefix' rest else None
  | _ :: _, [] => None
  end.

Definition chars (s : string) : list ascii := list_ascii_of_string s.

(** Digits of a binary, octal or hexadecimal literal in base [base]. *)
Fixpoint radixDigits (base : Z) (acc : Z) (cs : list ascii) : option Z :=
  match cs with
  | [] => Some acc
  | c :: rest =>
      match hexValue c with
      | Some d => if d <? base then radixDigits base (base * acc + d) rest
                  else None
      | None => None
      end
  end.

Definition radixLiteral (cs : list ascii) : option Z :=
  match cs with
  | z :: r :: d :: rest =>
      if Ascii.eqb z "0" then
        if Ascii.eqb r "x" || Ascii.eqb r "X" then radixDigits 16 0 (d :: rest)
        else if Ascii.eqb r "o" || Ascii.eqb r "O" then
          radixDigits 8 0 (d :: rest)
        else if Ascii.eqb r "b" || Ascii.eqb r "B" then
          radixDigits 2 0 (d :: rest)
        else None
      else None
  | _ => None
  end.

(** An unsigned decimal literal of a string: [digits], [digits.],
    [digits.digits], [.digits], each with an optional exponent. *)
Definition unsignedDecimal (negative : bool) (cs : list ascii) : number :=
  let (int, afterInt) := takeDigits cs in
  let '(frac, afterFrac, dotOk) :=
    match afterInt with
    | c :: rest =>
        if Ascii.eqb c "." then
          let (fr, tl) := takeDigits rest in
          (fr, tl, negb (match int, fr with [], [] => true | _, _ => false end))
        else ([], afterInt, negb (match int with [] => true | _ => false end))
    | [] => ([], afterInt, negb (match int with [] => true | _ => false end))
    end in
  if dotOk then
    match takeExponent afterFrac with
    | Some (exponent, []) => Finite (decimal negative int frac exponent)
    | _ => NaN
    end
  else NaN.

(** [StringToNumber]. *)
Definition stringToNumber (s : string) : number :=
  let cs := trimChars (chars s) in
  match cs with
  | [] => Finite 0
  | c :: rest =>
      match radixLiteral cs with
      | Some n => Finite (inject_Z n)
      | None =>
          let (negative, body) :=
            if Ascii.eqb c "-" then (true, rest)
            else if Ascii.eqb c "+" then (false, rest)
            else (false, cs) in
          match stripPrefix (chars "Infinity") body with
          | Some [] => if negative then NegInfinity else PosInfinity
          | _ => unsignedDecimal negative body
          end
      end
  end.

(** Converting the value to a primitive throws: an object with a member
    named [toString] hides the method of the prototype, and an array is
    converted through its elements. *)
Fixpoint primitiveThrows (v : value) : bool :=
  match v with
  | Obj members =>
      match lookup "toString" members with Some _ => true | None => false end
  | Arr elements => existsb primitiveThrows elements
  | _ => false
  end.

(** [ToNumber] of a value that converts to a primitive.  An array converts
    to the texts of its elements joined by commas: an empty array gives 0,
    one element gives the number of its own text, more give NaN. *)
Fixpoint numberOf (v : value) : number :=
  match v with
  | Undefined => NaN
  | Null => Finite 0
  | Bool b => Finite (if b then 1 else 0)
  | Num q => Finite q
  | Str s => stringToNumber s
  | Arr [] => Finite 0
  | Arr [x] =>
      match x with
      | Undefined | Null => Finite 0
      | Bool _ | Obj _ => NaN
      | _ => numberOf x
      end
  | Arr _ => NaN
  | Obj _ => NaN
  end.

Definition toNumber (v : value) : completion number :=
  if primitiveThrows v then Throw TypeError else Normal (numberOf v).

(** [v >= n] and [v > n] for a number literal [n]. *)
Definition ge (v : value) (n : Z) : completion bool :=
  let* x := toNumber v in
  Normal match x with
         | Finite q => Qle_bool (inject_Z n) q
         | PosInfinity => true
         | NaN | NegInfinity => false
         end.

Definition gt (v : value) (n : Z) : completion bool :=
  let* x := toNumber v in
  Normal match x with
         | Finite q => negb (Qle_bool q (inject_Z n))
         | PosInfinity => true
         | NaN | NegInfinity => false
         end.

(** [a / b] on finite numbers. *)
Definition divide (a b : Q) : number :=
  if Qeq_bool b 0 then
    if Qeq_bool a 0 then NaN
    else if Qle_bool 0 a then PosInfinity else NegInfinity
  else Finite (Qred (a / b)).

(** *** [JSON.parse]

    A reader for the JSON grammar on 8-bit texts.  Numbers are read exactly
    (no rounding to a double); an escape [\uXXXX] above 00FF denotes a
    code unit outside the alphabet of the embedding and is not read.  A
    repeated member name keeps its first place and takes its last value. *)

Definition dquote : ascii := "034"%char.
Definition backslash : ascii := "092"%char.

Definition isJsonSpace (c : ascii) : bool :=
  let n := code c in ((n =? 32) || (n =? 9) || (n =? 10) || (n =? 13))%N.

Fixpoint skipWs (cs : list ascii) : list ascii :=
  match cs with
  | c :: rest => if isJsonSpace c then skipWs rest else cs
  | [] => []
  end.

Definition escapeChar (c : ascii) : option ascii :=
  if Ascii.eqb c dquote then Some dquote
  else if Ascii.eqb c backslash then Some backslash
  else if Ascii.eqb c "/" then Some "/"%char
  else if Ascii.eqb c "b" then Some "008"%char
  else if Ascii.eqb c "f" then Some "012"%char
  else if Ascii.eqb c "n" then Some "010"%char
  else if Ascii.eqb c "r" then Some "013"%char
  else if Ascii.eqb c "t" then Some "009"%char
  else None.

Definition hex4 (a b c d : ascii) : option Z :=
  match hexValue a, hexValue b, hexValue c, hexValue d with
  | Some x, Some y, Some z, Some w => Some (((x * 16 + y) * 16 + z) * 16 + w)
  | _, _, _, _ => None
  end.

Definition consChar (c : ascii) (r : option (string * list ascii))
  : option (string * list ascii) :=
  match r with
  | Some (s, rest) => Some (String c s, rest)
  | None => None
  end.

(** The characters of a string literal after its opening quote, and what
    follows the closing quote. *)
Fixpoint readString (cs : list ascii) : option (string * list ascii) :=
  match cs with
  | [] => None
  | c :: rest =>
      if Ascii.eqb c dquote then Some (EmptyString, rest)
      else if Ascii.eqb c backslash then
        match rest with
        | [] => None
        | e :: rest' =>
            if Ascii.eqb e "u" then
              match rest' with
              | h1 :: h2 :: h3 :: h4 :: rest'' =>
                  match hex4 h1 h2 h3 h4 with
                  | Some n =>
                      if n <? 256
                      then consChar (ascii_of_N (Z.to_N n)) (readString rest'')
                      else None
                  | None => None
                  end
              | _ => None
              end
            else
              match escapeChar e with
              | Some x => consChar x (readString rest')
              | None => None
              end
        end
      else if (code c <? 32)%N then None
      else consChar c (readString rest)
  end.

(** A JSON number: [-? (0 | [1-9] digits) (. digits+)? exponent?]. *)
Definition readNumber (cs : list ascii) : option (Q * list ascii) :=
  let (negative, body) :=
    match cs with
    | c :: rest => if Ascii.eqb c "-" then (true, rest) else (false, cs)
    | [] => (false, cs)
    end in
  let (int, afterInt) := takeDigits body in
  let leadingZero :=
    match int with
    | d :: _ :: _ => Ascii.eqb d "0"
    | _ => false
    end in
  match int with
  | [] => None
  | _ :: _ =>
      if leadingZero then None
      else
        let fraction :=
          match afterInt with
          | c :: rest =>
              if Ascii.eqb c "." then
                match takeDigits rest with
                | ([], _) => None
                | (fr, tl) => Some (fr, tl)
                end
              else Some ([], afterInt)
          | [] => Some ([], afterInt)
          end in
        match fraction with
        | None => None
        | Some (frac, afterFrac) =>
            match takeExponent afterFrac with
            | Some (exponent, tl) =>
                Some (decimal negative int frac exponent, tl)
            | None => None
            end
        end
  end.

Definition keyword (word : string) (v : value) (cs : list ascii)
  : option (value * list ascii) :=
  match stripPrefix (chars word) cs with
  | Some rest => Some (v, rest)
  | None => None
  end.

(** One value, with the white space before it, and what follows.  [fuel]
    bounds the depth of the calls; [JSON_parse] gives enough of it. *)
Fixpoint readValue (fuel : nat) (cs : list ascii) {struct fuel}
  : option (value * list ascii) :=
  match fuel with
  | O => None
  | S fuel' =>
      match skipWs cs with
      | [] => None
      | c :: rest =>
          if Ascii.eqb c "{" then
            match skipWs rest with
            | [] => None
            | c' :: rest' =>
                if Ascii.eqb c' "}" then Some (Obj [], rest')
                else readMembers fuel' [] (c' :: rest')
            end
          else if Ascii.eqb c "[" then
            match skipWs rest with
            | [] => None
            | c' :: rest' =>
                if Ascii.eqb c' "]" then Some (Arr [], rest')
                else readElements fuel' [] (c' :: rest')
            end
          else if Ascii.eqb c dquote then
            match readString rest with
            | Some (s, tl) => Some (Str s, tl)
            | None => None
            end
          else if Ascii.eqb c "t" then keyword "true" (Bool true) (c :: rest)
          else if Ascii.eqb c "f" then keyword "false" (Bool false) (c :: rest)
          else if Ascii.eqb c "n" then keyword "null" Null (c :: rest)
          else
            match readNumber (c :: rest) with
            | Some (q, tl) => Some (Num q, tl)
            | None => None
            end
      end
  end

with readElements (fuel : nat) (seen : list value) (cs : list ascii)
  {struct fuel} : option (value * list ascii) :=
  match fuel with
  | O => None
  | S fuel' =>
      match readValue fuel' cs with
      | None => None
      | Some (v, rest) =>
          match skipWs rest with
          | [] => None
          | c :: rest' =>
              if Ascii.eqb c "," then readElements fuel' (v :: seen) rest'
              else if Ascii.eqb c "]" then Some (Arr (rev (v :: seen)), rest')
              else None
          end
      end
  end

with readMembers (fuel : nat) (seen : list (string * value)) (cs : list ascii)
  {struct fuel} : option (value * list ascii) :=
  match fuel with
  | O => None
  | S fuel' =>
      match skipWs cs with
      | [] => None
      | q :: afterQuote =>
          if Ascii.eqb q dquote then
            match readString afterQuote with
            | None => None
            | Some (key, afterKey) =>
                match skipWs afterKey with
                | [] => None
                | colon :: afterColon =>
                    if Ascii.eqb colon ":" then
                      match readValue fuel' afterColon with
                      | None => None
                      | Some (v, rest) =>
                          match skipWs rest with
                          | [] => None
                          | c :: rest' =>
                              if Ascii.eqb c "," then
                                readMembers fuel' (setMember key v seen) rest'
                              else if Ascii.eqb c "}" then
                                Some (Obj (setMember key v seen), rest')
                              else None
                          end
                      end
                    else None
                end
            end
          else None
      end
  end.

(** [JSON.parse(text)]: one value, white space around it, nothing else. *)
Definition JSON_parse (text : string) : completion value :=
  let cs := chars text in
  match readValue (2 * length cs + 2) cs with
  | Some (v, rest) =>
      match skipWs rest with
      | [] => Normal v
      | _ :: _ => Throw SyntaxError
      end
  | None => Throw SyntaxError
  end.

(** Texts of the examples are written with an apostrophe for each double
    quote. *)
Definition quoted (s : string) : string :=
  string_of_list_ascii
    (map (fun c => if Ascii.eqb c "'" then dquote else c) (chars s)).

(** *** Text helpers *)

(** [String.prototype.toLowerCase] on 8-bit code units: the letters A to Z
    and the accented capitals of the upper half, except the multiplication
    sign. *)
Definition lowerChar (c : ascii) : ascii :=
  let n := code c in
  if ((65 <=? n) && (n <=? 90) || (192 <=? n) && (n <=? 222) && negb (n =? 215))%N
  then ascii_of_N (n + 32) else c.

Definition toLowerCase (s : string) : string :=
  string_of_list_ascii (map lowerChar (chars s)).

(** Removal of every match of a pattern, scanning from the left as
    [String.prototype.replace] does with a global pattern and an empty
    replacement.  [matchAt cs] is the length of the match that starts at the
    head of [cs], if there is one; matches are not empty.  [pending] counts
    the code units of the current match still to drop. *)
Fixpoint removeMatches (matchAt : list ascii -> option nat) (pending : nat)
  (cs : list ascii) : list ascii :=
  match cs with
  | [] => []
  | c :: rest =>
      match pending with
      | S more => removeMatches matchAt more rest
      | O =>
          match matchAt cs with
          | Some (S more) => removeMatches matchAt more rest
          | _ => c :: removeMatches matchAt 0 rest
          end
      end
  end.

(** The longest prefix of [cs] that ends with the code unit [close]. *)
Fixpoint upToLast (close : ascii) (cs : list ascii) : option (list ascii) :=
  match cs with
  | [] => None
  | c :: rest =>
      match upToLast close rest with
      | Some prefix => Some (c :: prefix)
      | None => if Ascii.eqb c close then Some [c] else None
      end
  end.

(** The suffix of [cs] that starts at the first code unit [open]. *)
Fixpoint fromFirst (open : ascii) (cs : list ascii) : option (list ascii) :=
  match cs with
  | [] => None
  | c :: rest => if Ascii.eqb c open then Some cs else fromFirst open rest
  end.

End Js.

(** ** The host: file system, oracle, confirmation

    The commands are asynchronous functions that run one step at a time.
    A command is embedded as a function from the files to an outcome, the
    files afterwards and the events it caused, in order. *)

Module Host.

Import Js.

(** What a request to the oracle is built from: the values the command
    puts into its prompt template (the fixed text of the template is left
    out). *)
Record Request := {
  language : string;
  subject : string;
  instruction : string;
  code : string;
  extra : string;
  full : bool
}.

Inductive event : Type :=
| Access (path : string)
| Read (path : string)
| Write (path content : string)
| Generate (request : Request)
| Confirm
| SaveSession.

(** What the commands do not decide. *)
Record World := {
  (** [fs.readFile] of an existing file succeeds *)
  readable : string -> bool;
  (** [fs.writeFile] succeeds *)
  writable : string -> bool;
  (** text of [Date.now()] *)
  timestamp : string;
  (** [path.extname] *)
  extname : string -> string;
  (** [fs.stat(target)], then [stats.isFile()] *)
  isFile : string -> completion bool;
  (** the walk of [getCodeFiles] over a directory *)
  getCodeFiles : string -> completion (list string);
  (** [config.getContentGeneratorConfig()] is defined *)
  configured : bool;
  (** obtaining the client and calling [generateContent]; the text is
      [result.candidates?.[0]?.content?.parts?.[0]?.text] *)
  generateContent : Request -> completion (option string);
  (** answer of [confirmProceed] *)
  confirmProceed : bool;
  (** [saveSession] succeeds *)
  sessionSaved : bool
}.

Definition Files := list (string * string).

Fixpoint contentOf (path : string) (files : Files) : option string :=
  match files with
  | [] => None
  | (p, content) :: rest =>
      if String.eqb p path then Some content else contentOf path rest
  end.

Inductive outcome (A : Type) : Type :=
| Returned (a : A)
| Raised (e : error)
| Exited (status : Z).

Arguments Returned {A} a.
Arguments Raised {A} e.
Arguments Exited {A} status.

Record Run (A : Type) := {
  result : outcome A;
  files : Files;
  events : list event
}.

Definition M (A : Type) : Type := Files -> Run A.

Definition ret {A} (a : A) : M A :=
  fun fs => {| result := Returned a; files := fs; events := [] |}.

Definition raise {A} (e : error) : M A :=
  fun fs => {| result := Raised e; files := fs; events := [] |}.

Definition exit {A} (status : Z) : M A :=
  fun fs => {| result := Exited status; files := fs; events := [] |}.

Definition bind {A B} (m : M A) (k : A -> M B) : M B :=
  fun fs =>
    let r := m fs in
    match result r with
    | Returned a =>
        let r' := k a (files r) in
        {| result := result r'; files := files r';
           events := events r ++ events r' |}
    | Raised e => {| result := Raised e; files := files r; events := events r |}
    | Exited n => {| result := Exited n; files := files r; events := events r |}
    end.

(** [try { m } catch (error) { handler error }]; leaving the process is not
    an exception. *)
Definition tryCatch {A} (m : M A) (handler : error -> M A) : M A :=
  fun fs =>
    let r := m fs in
    match result r with
    | Raised e =>
        let r' := handler e (files r) in
        {| result := result r'; files := files r';
           events := events r ++ events r' |}
    | _ => r
    end.

Definition emit (e : event) : M unit :=
  fun fs => {| result := Returned tt; files := fs; events := [e] |}.

Definition lift {A} (c : completion A) : M A :=
  match c with
  | Normal a => ret a
  | Throw e => raise e
  end.

Notation "'do' x '<-' m ';' k" := (bind m (fun x => k))
  (at level 10, x name, m at level 100, k at level 200).
Notation "m ';;' k" := (bind m (fun _ => k))
  (at level 61, right associativity).

Section Calls.

Variable w : World.

(** [fs.access(path)] succeeds. *)
Definition access (path : string) : M bool :=
  fun fs =>
    {| result := Returned match contentOf path fs with
                          | Some _ => true
                          | None => false
                          end;
       files := fs; events := [Access path] |}.

Definition readFile (path : string) : M string :=
  fun fs =>
    {| result := match contentOf path fs with
                 | Some content =>
                     if readable w path then Returned content
                     else Raised (Error "EACCES")
                 | None => Raised (Error "ENOENT")
                 end;
       files := fs; events := [Read path] |}.

Definition writeFile (path content : string) : M unit :=
  fun fs =>
    if writable w path
    then {| result := Returned tt; files := (path, content) :: fs;
            events := [Write path content] |}
    else {| result := Raised (Error "EACCES"); files := fs; events := [] |}.

Definition generate (request : Request) : M (option string) :=
  emit (Generate request) ;; lift (generateContent w request).

Definition confirm : M bool :=
  emit Confirm ;; ret (confirmProceed w).

Definition saveSession : M unit :=
  emit SaveSession ;;
  if sessionSaved w then ret tt else raise (Error "session").

End Calls.

End Host.

(** ** The edit command *)

Module Edit.

Import Js Host.
Local Open Scope Z_scope.

Record EditSuggestion := {
  originalLines : list string;
  suggestedLines : list string;
  startLine : Z;
  endLine : Z;
  reasoning : string;
  confidence : Z
}.

Record FileAnalysis := {
  language : string;
  complexity : Z;
  suggestions : list EditSuggestion;
  risks : list string;
  dependencies : list string
}.

(** [[...suggestions].sort((a, b) => b.startLine - a.startLine)]: the sort of
    the engine is stable, so suggestions with the same [startLine] keep their
    relative order.  [placeDesc s sorted] puts [s] in front of the first
    element whose [startLine] is not greater. *)
Fixpoint placeDesc (s : EditSuggestion) (sorted : list EditSuggestion)
  : list EditSuggestion :=
  match sorted with
  | [] => [s]
  | t :: rest =>
      if startLine s <? startLine t then t :: placeDesc s rest
      else s :: t :: rest
  end.

Definition sortedSuggestions (suggestions : list EditSuggestion)
  : list EditSuggestion :=
  fold_right placeDesc [] suggestions.

(** Body of the loop of [applyEdits] for one suggestion. *)
Definition applyOne (modifiedLines : list string) (suggestion : EditSuggestion)
  : list string :=
  let startIdx := startLine suggestion - 1 in
  let endIdx := endLine suggestion - 1 in
  if (startIdx >=? 0) && (endIdx <? Z.of_nat (length modifiedLines))
     && (startIdx <=? endIdx)
  then Js.splice modifiedLines startIdx (endIdx - startIdx + 1)
         (suggestedLines suggestion)
  else modifiedLines.

(** The test of the validation step of [analyzeAndGenerateEdits], on
    suggestions of the declared interface. *)
Definition acceptable (s : EditSuggestion) : bool :=
  (confidence s >=? 70)
  && (0 <? Z.of_nat (length (originalLines s)))
  && (0 <? Z.of_nat (length (suggestedLines s))).

Definition filterSuggestions (suggestions : list EditSuggestion)
  : list EditSuggestion :=
  filter acceptable suggestions.

Definition applyEditsLines (lines : list string)
  (suggestions : list EditSuggestion) : list string :=
  fold_left applyOne (sortedSuggestions suggestions) lines.

Definition applyEdits (lines : list string) (suggestions : list EditSuggestion)
  : string :=
  Js.join (String Js.LF EmptyString) (applyEditsLines lines suggestions).


(** *** Reading the oracle's text *)

Definition languageMap : list (string * string) :=
  [(".js", "javascript"); (".jsx", "javascript"); (".ts", "typescript");
   (".tsx", "typescript"); (".py", "python"); (".java", "java");
   (".cpp", "cpp"); (".c", "c"); (".go", "go"); (".rs", "rust");
   (".php", "php"); (".rb", "ruby"); (".cs", "csharp"); (".swift", "swift");
   (".kt", "kotlin"); (".scala", "scala"); (".sh", "bash");
   (".md", "markdown"); (".html", "html"); (".css", "css");
   (".scss", "scss"); (".sass", "sass"); (".json", "json");
   (".yaml", "yaml"); (".yml", "yaml"); (".xml", "xml")].

Fixpoint mapLookup (key : string) (entries : list (string * string))
  : option string :=
  match entries with
  | [] => None
  | (k, v) :: rest => if String.eqb k key then Some v else mapLookup key rest
  end.

(** [languageMap[ext.toLowerCase()] || 'text'], for an extension as
    [path.extname] gives it (empty or starting with a dot). *)
Definition getLanguageFromExtension (ext : string) : string :=
  match mapLookup (toLowerCase ext) languageMap with
  | Some tag => tag
  | None => "text"
  end.

(** A match of [/```json\n?|\n?```/] at the head of [cs]: its length. *)
Definition fenceAt (cs : list ascii) : option nat :=
  match stripPrefix (chars "```json") cs with
  | Some (c :: _) => Some (if Ascii.eqb c LF then 8 else 7)%nat
  | Some [] => Some 7%nat
  | None =>
      match stripPrefix (LF :: chars "```") cs with
      | Some _ => Some 4%nat
      | None =>
          match stripPrefix (chars "```") cs with
          | Some _ => Some 3%nat
          | None => None
          end
      end
  end.

(** [analysisText.replace(/```json\n?|\n?```/g, '').trim()]. *)
Definition cleanResponse (analysisText : string) : string :=
  trim (string_of_list_ascii (removeMatches fenceAt 0 (chars analysisText))).

(** The callback of the filter, on any value:
    [s.confidence >= 70 && s.originalLines.length > 0 &&
     s.suggestedLines.length > 0]. *)
Definition keepSuggestion (s : value) : completion bool :=
  let* c := get s "confidence" in
  let* confident := ge c 70 in
  if negb confident then Normal false
  else
    let* original := get s "originalLines" in
    let* originalLength := get original "length" in
    let* hasOriginal := gt originalLength 0 in
    if negb hasOriginal then Normal false
    else
      let* suggested := get s "suggestedLines" in
      let* suggestedLength := get suggested "length" in
      gt suggestedLength 0.

(** [Array.prototype.filter] with a callback that may throw. *)
Fixpoint filterArray (keep : value -> completion bool) (elements : list value)
  : completion (list value) :=
  match elements with
  | [] => Normal []
  | x :: rest =>
      let* k := keep x in
      let* kept := filterArray keep rest in
      Normal (if k then x :: kept else kept)
  end.

(** [analysis.suggestions = analysis.suggestions.filter(...)].  Only an
    array has the method; only an object has a member [suggestions]. *)
Definition validateSuggestions (analysis : value) : completion value :=
  let* found := get analysis "suggestions" in
  match analysis, found with
  | Obj members, Arr elements =>
      let* kept := filterArray keepSuggestion elements in
      Normal (Obj (setMember "suggestions" (Arr kept) members))
  | _, _ => Throw TypeError
  end.

(** The steps marked [// Parse AI response] and [// Validate suggestions]. *)
Definition parseAnalysis (analysisText : string) : completion value :=
  let cleanedResponse := cleanResponse analysisText in
  let* analysis := JSON_parse cleanedResponse in
  validateSuggestions analysis.

(** The analysis returned [// ... on error]. *)
Definition minimalAnalysis (language : string) : value :=
  Obj [("language", Str language);
       ("complexity", Num 5);
       ("suggestions", Arr []);
       ("risks", Arr [Str "Analysis failed - manual review recommended"]);
       ("dependencies", Arr [])].

Definition nl : string := String LF EmptyString.

Section Analysis.

Variable w : World.

(** The loop over the context files: a file that cannot be read is left
    out. *)
Fixpoint readContext (contextFiles : list string) (contextContent : string)
  : M string :=
  match contextFiles with
  | [] => ret contextContent
  | contextFile :: rest =>
      do contextContent' <-
        tryCatch
          (do contextFileContent <- readFile w contextFile;
           ret (contextContent ++ nl ++ "--- Context: " ++ contextFile
                  ++ " ---" ++ nl ++ contextFileContent ++ nl)%string)
          (fun _ => ret contextContent);
      readContext rest contextContent'
  end.

(** Body of the [try] block. *)
Definition askOracle (request : Request) : M value :=
  do text <- generate w request;
  match text with
  | Some analysisText =>
      if String.eqb analysisText ""
      then raise (Error "AI did not return any analysis content")
      else lift (parseAnalysis analysisText)
  | None => raise (Error "AI did not return any analysis content")
  end.

Definition analyzeAndGenerateEdits (filePath content prompt : string)
  (contextFiles : option (list string)) : M value :=
  if negb (configured w)
  then raise (Error "Content generator configuration not found")
  else
    let language := getLanguageFromExtension (extname w filePath) in
    do contextContent <-
      match contextFiles with
      | Some (f :: rest) => readContext (f :: rest) ""
      | _ => ret ""
      end;
    let request :=
      {| Host.language := language; subject := filePath;
         instruction := prompt; code := content; extra := contextContent;
         full := false |} in
    tryCatch (askOracle request) (fun _ => ret (minimalAnalysis language)).

End Analysis.

(** *** The analysis at its declared type

    [handleEditCommand] uses the analysis as a [FileAnalysis].  [decode]
    reads a value that has this shape; [encode] writes one. *)

Definition asInteger (q : Q) : option Z :=
  if Z.eqb (Z.modulo (Qnum q) (Zpos (Qden q))) 0
  then Some (Z.div (Qnum q) (Zpos (Qden q))) else None.

Definition asString (v : value) : option string :=
  match v with Str s => Some s | _ => None end.

Definition asNumber (v : value) : option Z :=
  match v with Num q => asInteger q | _ => None end.

Fixpoint decodeAll {A} (f : value -> option A) (l : list value)
  : option (list A) :=
  match l with
  | [] => Some []
  | x :: rest =>
      match f x, decodeAll f rest with
      | Some a, Some more => Some (a :: more)
      | _, _ => None
      end
  end.

Definition asArray {A} (f : value -> option A) (v : value)
  : option (list A) :=
  match v with Arr elements => decodeAll f elements | _ => None end.

Definition field {A} (f : value -> option A) (key : string)
  (members : list (string * value)) : option A :=
  match lookup key members with Some v => f v | None => None end.

Definition decodeSuggestion (v : value) : option EditSuggestion :=
  match v with
  | Obj m =>
      match field (asArray asString) "originalLines" m,
            field (asArray asString) "suggestedLines" m,
            field asNumber "startLine" m, field asNumber "endLine" m,
            field asString "reasoning" m, field asNumber "confidence" m with
      | Some o, Some s, Some a, Some b, Some r, Some c =>
          Some {| originalLines := o; suggestedLines := s; startLine := a;
                  endLine := b; reasoning := r; confidence := c |}
      | _, _, _, _, _, _ => None
      end
  | _ => None
  end.

Definition decode (v : value) : option FileAnalysis :=
  match v with
  | Obj m =>
      match field asString "language" m, field asNumber "complexity" m,
            field (asArray decodeSuggestion) "suggestions" m,
            field (asArray asString) "risks" m,
            field (asArray asString) "dependencies" m with
      | Some l, Some c, Some s, Some r, Some d =>
          Some {| language := l; complexity := c; suggestions := s;
                  risks := r; dependencies := d |}
      | _, _, _, _, _ => None
      end
  | _ => None
  end.

Definition encodeSuggestion (s : EditSuggestion) : value :=
  Obj [("originalLines", Arr (map Str (originalLines s)));
       ("suggestedLines", Arr (map Str (suggestedLines s)));
       ("startLine", Num (ofZ (startLine s)));
       ("endLine", Num (ofZ (endLine s)));
       ("reasoning", Str (reasoning s));
       ("confidence", Num (ofZ (confidence s)))].

Definition encode (a : FileAnalysis) : value :=
  Obj [("language", Str (language a));
       ("complexity", Num (ofZ (complexity a)));
       ("suggestions", Arr (map encodeSuggestion (suggestions a)));
       ("risks", Arr (map Str (risks a)));
       ("dependencies", Arr (map Str (dependencies a)))].

(** *** The command *)

Record Options := {
  dryRun : option bool;
  backup : option bool;
  autoApply : option bool;
  context : option (list string)
}.

(** How a run of the command ends, named after the message it prints
    last. *)
Inductive ending : Type :=
| NoChangesSuggested
| DryRunMode
| ChangesApplied
| ChangesCancelled
(** the analysis has suggestions and is not a [FileAnalysis]: how the
    command displays and applies it is not part of the embedding *)
| OutsideInterface (analysis : value).

Definition isTrue (flag : option bool) : bool :=
  match flag with Some true => true | _ => false end.

(** [analysis.suggestions.length === 0]. *)
Definition noSuggestions (analysis : value) : completion bool :=
  let* found := get analysis "suggestions" in
  let* n := get found "length" in
  Normal match n with
         | Num q => Qeq_bool q 0
         | _ => false
         end.

Definition backupPath (w : World) (filePath : string) : string :=
  (filePath ++ ".backup." ++ timestamp w)%string.

Definition handleEditCommand (w : World) (filePath prompt : string)
  (options : Options) : M ending :=
  do found <- access filePath;
  if negb found then exit 1
  else
    do currentContent <- readFile w filePath;
    let lines := split LF currentContent in
    (match backup options with
     | Some false => ret tt
     | _ => writeFile w (backupPath w filePath) currentContent
     end) ;;
    do analysis <-
      analyzeAndGenerateEdits w filePath currentContent prompt
        (context options);
    do none <- lift (noSuggestions analysis);
    if none then ret NoChangesSuggested
    else
      match decode analysis with
      | None => ret (OutsideInterface analysis)
      | Some a =>
          if isTrue (dryRun options) then ret DryRunMode
          else
            do shouldApply <-
              (if isTrue (autoApply options) then ret true else confirm w);
            if shouldApply then
              writeFile w filePath (applyEdits lines (suggestions a)) ;;
              saveSession w ;;
              ret ChangesApplied
            else ret ChangesCancelled
      end.

End Edit.

(** ** The analyze command *)

Module Analyze.

Import Js Host.
Local Open Scope Z_scope.

Module Severity.
Inductive t := error | warning | info.
End Severity.

Module IssueType.
Inductive t := security | performance | maintainability | style | bug.
End IssueType.

Module SuggestionType.
Inductive t := optimization | refactor | documentation | test.
End SuggestionType.

Module Performance.
Inductive t := excellent | good | fair | poor.
End Performance.

Module Security.
Inductive t := secure | moderate | vulnerable.
End Security.

Record CodeIssue := {
  issueLine : Z;
  column : Z;
  severity : Severity.t;
  message : string;
  issueType : IssueType.t
}.

Record CodeSuggestion := {
  suggestionLine : Z;
  suggestionType : SuggestionType.t;
  description : string;
  suggestedCode : option string
}.

Record CodeMetrics := {
  complexity : Z;
  maintainabilityIndex : Z;
  testCoverage : option Z;
  performance : Performance.t;
  security : Security.t
}.

Record AnalysisResult := {
  file : string;
  issues : list CodeIssue;
  suggestions : list CodeSuggestion;
  metrics : CodeMetrics
}.

Definition languageMap : list (string * string) :=
  [(".ts", "typescript"); (".tsx", "typescript"); (".js", "javascript");
   (".jsx", "javascript"); (".py", "python"); (".java", "java");
   (".cpp", "cpp"); (".c", "c"); (".cs", "csharp"); (".go", "go");
   (".rs", "rust"); (".php", "php"); (".rb", "ruby")].

Definition getLanguageFromExtension (ext : string) : string :=
  match Edit.mapLookup ext languageMap with
  | Some tag => tag
  | None => "text"
  end.

(** *** Reading the oracle's text *)

(** [response.match(/\{[\s\S]*\}/)]: from the first opening brace to the
    last closing brace after it. *)
Definition jsonMatch (response : string) : option string :=
  match fromFirst "{" (chars response) with
  | Some tail =>
      match upToLast "}" tail with
      | Some span => Some (string_of_list_ascii span)
      | None => None
      end
  | None => None
  end.

Definition metricsValue (c m : Z) (p s : string) : value :=
  Obj [("complexity", Num (ofZ c)); ("maintainabilityIndex", Num (ofZ m));
       ("performance", Str p); ("security", Str s)].

Definition resultValue (filePath : string) (issues suggestions metrics : value)
  : value :=
  Obj [("file", Str filePath); ("issues", issues);
       ("suggestions", suggestions); ("metrics", metrics)].

(** The result of the [catch] block of [parseAnalysisResponse]. *)
Definition basicAnalysis (filePath : string) : value :=
  resultValue filePath (Arr [])
    (Arr [Obj [("line", Num 1); ("type", Str "documentation");
               ("description",
                Str "Consider adding comprehensive documentation for this code")]])
    (metricsValue 5 70 "good" "moderate").

(** Body of the [try] block of [parseAnalysisResponse]. *)
Definition readAnalysis (response filePath : string) : completion value :=
  let jsonText :=
    match jsonMatch response with
    | Some span => span
    | None => response
    end in
  let* parsed := JSON_parse jsonText in
  let* foundIssues := get parsed "issues" in
  let* foundSuggestions := get parsed "suggestions" in
  let* foundMetrics := get parsed "metrics" in
  Normal (resultValue filePath
            (orElse foundIssues (Arr []))
            (orElse foundSuggestions (Arr []))
            (orElse foundMetrics (metricsValue 5 70 "good" "moderate"))).

Definition parseAnalysisResponse (response filePath : string) : value :=
  match readAnalysis response filePath with
  | Normal r => r
  | Throw _ => basicAnalysis filePath
  end.

(** *** Analysis of the files *)

(** The result of the [catch] block of [analyzeFile]. *)
Definition neutralAnalysis (filePath : string) : value :=
  resultValue filePath (Arr []) (Arr []) (metricsValue 0 50 "fair" "moderate").

Section Files.

Variable w : World.

(** What [createAnalysisPrompt] puts into the prompt. *)
Definition createAnalysisPrompt (code fileExt : string) (fullAnalysis : bool)
  : Request :=
  {| language := getLanguageFromExtension fileExt; subject := "";
     instruction := ""; Host.code := code; extra := "";
     full := fullAnalysis |}.

Definition analyzeFile (filePath : string) (fullAnalysis : bool) : M value :=
  do content <- readFile w filePath;
  let fileExt := extname w filePath in
  let request := createAnalysisPrompt content fileExt fullAnalysis in
  if negb (configured w)
  then raise (Error "Content generator configuration not found")
  else
    tryCatch
      (do text <- generate w request;
       match text with
       | Some analysisText =>
           if String.eqb analysisText ""
           then raise (Error "AI did not return any analysis content")
           else ret (parseAnalysisResponse analysisText filePath)
       | None => raise (Error "AI did not return any analysis content")
       end)
      (fun _ => ret (neutralAnalysis filePath)).

(** The loop of [analyzeCodebase]. *)
Fixpoint analyzeEach (files : list string) (fullAnalysis : bool)
  (results : list value) : M (list value) :=
  match files with
  | [] => ret results
  | filePath :: rest =>
      do r <- analyzeFile filePath fullAnalysis;
      analyzeEach rest fullAnalysis (results ++ [r])
  end.

Definition analyzeCodebase (target : string) (fullAnalysis : bool)
  : M (list value) :=
  do single <- lift (isFile w target);
  do files <-
    (if single then ret [target] else lift (getCodeFiles w target));
  analyzeEach files fullAnalysis [].

End Files.

(** *** The results at their declared type *)

Definition asSeverity (v : value) : option Severity.t :=
  match v with
  | Str s =>
      if String.eqb s "error" then Some Severity.error
      else if String.eqb s "warning" then Some Severity.warning
      else if String.eqb s "info" then Some Severity.info
      else None
  | _ => None
  end.

Definition asIssueType (v : value) : option IssueType.t :=
  match v with
  | Str s =>
      if String.eqb s "security" then Some IssueType.security
      else if String.eqb s "performance" then Some IssueType.performance
      else if String.eqb s "maintainability" then Some IssueType.maintainability
      else if String.eqb s "style" then Some IssueType.style
      else if String.eqb s "bug" then Some IssueType.bug
      else None
  | _ => None
  end.

Definition asSuggestionType (v : value) : option SuggestionType.t :=
  match v with
  | Str s =>
      if String.eqb s "optimization" then Some SuggestionType.optimization
      else if String.eqb s "refactor" then Some SuggestionType.refactor
      else if String.eqb s "documentation" then Some SuggestionType.documentation
      else if String.eqb s "test" then Some SuggestionType.test
      else None
  | _ => None
  end.

Definition asPerformance (v : value) : option Performance.t :=
  match v with
  | Str s =>
      if String.eqb s "excellent" then Some Performance.excellent
      else if String.eqb s "good" then Some Performance.good
      else if String.eqb s "fair" then Some Performance.fair
      else if String.eqb s "poor" then Some Performance.poor
      else None
  | _ => None
  end.

Definition asSecurity (v : value) : option Security.t :=
  match v with
  | Str s =>
      if String.eqb s "secure" then Some Security.secure
      else if String.eqb s "moderate" then Some Security.moderate
      else if String.eqb s "vulnerable" then Some Security.vulnerable
      else None
  | _ => None
  end.

(** An optional member: absent, or present with the expected type. *)
Definition optional {A} (f : value -> option A) (key : string)
  (members : list (string * value)) : option (option A) :=
  match lookup key members with
  | None => Some None
  | Some v => match f v with Some a => Some (Some a) | None => None end
  end.

Definition decodeIssue (v : value) : option CodeIssue :=
  match v with
  | Obj m =>
      match Edit.field Edit.asNumber "line" m,
            Edit.field Edit.asNumber "column" m,
            Edit.field asSeverity "severity" m,
            Edit.field Edit.asString "message" m,
            Edit.field asIssueType "type" m with
      | Some l, Some c, Some s, Some msg, Some t =>
          Some {| issueLine := l; column := c; severity := s;
                  message := msg; issueType := t |}
      | _, _, _, _, _ => None
      end
  | _ => None
  end.

Definition decodeSuggestion (v : value) : option CodeSuggestion :=
  match v with
  | Obj m =>
      match Edit.field Edit.asNumber "line" m,
            Edit.field asSuggestionType "type" m,
            Edit.field Edit.asString "description" m,
            optional Edit.asString "suggestedCode" m with
      | Some l, Some t, Some d, Some c =>
          Some {| suggestionLine := l; suggestionType := t;
                  description := d; suggestedCode := c |}
      | _, _, _, _ => None
      end
  | _ => None
  end.

Definition decodeMetrics (v : value) : option CodeMetrics :=
  match v with
  | Obj m =>
      match Edit.field Edit.asNumber "complexity" m,
            Edit.field Edit.asNumber "maintainabilityIndex" m,
            optional Edit.asNumber "testCoverage" m,
            Edit.field asPerformance "performance" m,
            Edit.field asSecurity "security" m with
      | Some c, Some i, Some t, Some p, Some s =>
          Some {| complexity := c; maintainabilityIndex := i;
                  testCoverage := t; performance := p; security := s |}
      | _, _, _, _, _ => None
      end
  | _ => None
  end.

Definition decodeResult (v : value) : option AnalysisResult :=
  match v with
  | Obj m =>
      match Edit.field Edit.asString "file" m,
            Edit.field (Edit.asArray decodeIssue) "issues" m,
            Edit.field (Edit.asArray decodeSuggestion) "suggestions" m,
            Edit.field decodeMetrics "metrics" m with
      | Some f, Some i, Some s, Some mt =>
          Some {| file := f; issues := i; suggestions := s; metrics := mt |}
      | _, _, _, _ => None
      end
  | _ => None
  end.

(** The result that [analyzeFile] returns for a file whose analysis
    failed, at its declared type. *)
Definition neutralResult (filePath : string) : AnalysisResult :=
  {| file := filePath; issues := []; suggestions := [];
     metrics := {| complexity := 0; maintainabilityIndex := 50;
                   testCoverage := None; performance := Performance.fair;
                   security := Security.moderate |} |}.

(** *** The summary *)

Record Summary := {
  filesAnalyzed : Z;
  issuesFound : Z;
  suggestionsFound : Z;
  averageComplexity : number;
  averageMaintainability : number
}.

Definition size {A} (l : list A) : Z := Z.of_nat (length l).

(** The figures [displayResults] prints under [Summary:]. *)
Definition displayResults (results : list AnalysisResult) : Summary :=
  let totalIssues :=
    fold_left (fun total result =>
                 if size (issues result) >? 0
                 then total + size (issues result) else total)
              results 0 in
  let totalSuggestions :=
    fold_left (fun total result =>
                 if size (suggestions result) >? 0
                 then total + size (suggestions result) else total)
              results 0 in
  let avgComplexity :=
    divide (ofZ (fold_left (fun sum r => sum + complexity (metrics r))
                           results 0))
           (ofZ (size results)) in
  let avgMaintainability :=
    divide (ofZ (fold_left (fun sum r => sum + maintainabilityIndex (metrics r))
                           results 0))
           (ofZ (size results)) in
  {| filesAnalyzed := size results;
     issuesFound := totalIssues;
     suggestionsFound := totalSuggestions;
     averageComplexity := avgComplexity;
     averageMaintainability := avgMaintainability |}.

End Analyze.


(** ** The walk over a directory

    [getCodeFiles] of the analyze command lists a directory with
    [fs.readdir(dir, { withFileTypes: true })] and descends into its
    subdirectories.  A directory entry is a file, a directory with its
    own entries, or something else (a symbolic link, a socket, a device:
    neither [isFile()] nor [isDirectory()]).  The joining of paths and the
    extension of a name are those of [node:path], kept abstract. *)

Module Walk.

Import Js.

#[warnings="-register-all"]
Inductive Dirent : Type :=
| File (name : string)
(** [listable]: [fs.readdir] of the directory succeeds *)
| Directory (name : string) (listable : bool) (entries : list Dirent)
| Other (name : string).

Definition codeExtensions : list string :=
  [".ts"; ".js"; ".tsx"; ".jsx"; ".py"; ".java"; ".cpp"; ".c"; ".cs"; ".go";
   ".rs"; ".php"; ".rb"].

(** [Array.prototype.includes] on an array of strings. *)
Definition includes (l : list string) (s : string) : bool :=
  existsb (String.eqb s) l.

(** [!entry.name.startsWith('.') && entry.name !== 'node_modules'] *)
Definition descends (name : string) : bool :=
  negb (String.prefix "." name) && negb (String.eqb name "node_modules").

Section Paths.

(** [path.join] and [path.extname] *)
Variable join : string -> string -> string.
Variable extname : string -> string.

(** Body of the loop of [walkDir] for one entry; [files] is the array
    that the walk fills. *)
Fixpoint walkEntry (currentDir : string) (entry : Dirent)
  (files : list string) : completion (list string) :=
  match entry with
  | Directory name listable entries =>
      if descends name then
        if listable then
          (fix walkEntries (entries : list Dirent) (files : list string)
             : completion (list string) :=
             match entries with
             | [] => Normal files
             | e :: rest =>
                 let* files' := walkEntry (join currentDir name) e files in
                 walkEntries rest files'
             end) entries files
        else Throw (Error "EACCES")
      else Normal files
  | File name =>
      Normal (if includes codeExtensions (extname name)
              then files ++ [join currentDir name] else files)
  | Other _ => Normal files
  end.

(** The loop of [walkDir] over the entries of [currentDir]. *)
Fixpoint walkEntries (currentDir : string) (entries : list Dirent)
  (files : list string) : completion (list string) :=
  match entries with
  | [] => Normal files
  | e :: rest =>
      let* files' := walkEntry currentDir e files in
      walkEntries currentDir rest files'
  end.

Definition walkDir (currentDir : string) (listable : bool)
  (entries : list Dirent) (files : list string) : completion (list string) :=
  if listable then walkEntries currentDir entries files
  else Throw (Error "EACCES").

Definition getCodeFiles (dir : string) (listable : bool)
  (entries : list Dirent) : completion (list string) :=
  walkDir dir listable entries [].

End Paths.

End Walk.

(** ** The analyze command as a whole

    [analyzeCommand] with what it calls after the analysis:
    [displayResults] with its question to the user, [applyAutoFixes] and
    [startWatchMode].  What these print is left out, except the report
    of [applyAutoFixes], which is all that it produces. *)

Module AnalyzeCommand.

Import Js Host Analyze.
Local Open Scope Z_scope.

Record Options := {
  file : option string;
  watch : option bool;
  full : option bool;
  (** the option [fix] *)
  fix' : option bool
}.

(** What [applyAutoFixes] reports for a file: its name and the messages
    of the issues it prints as fixed. *)
Definition Report := list (string * list string).

(** How a run of the command ends. *)
Inductive ending : Type :=
(** [startWatchMode] has returned *)
| Watching
(** the summary has been printed; [fixed] is the report of
    [applyAutoFixes] when it has run *)
| Displayed (summary : Summary) (fixed : option Report)
(** a result is not an [AnalysisResult]: how the command displays it is
    not part of the embedding *)
| OutsideInterface (results : list value).

Definition isTrue (flag : option bool) : bool :=
  match flag with Some true => true | _ => false end.

(** [file || '.'] *)
Definition targetOf (file : option string) : string :=
  match file with
  | Some path => if String.eqb path "" then "." else path
  | None => "."
  end.

(** [issue.type === 'style' || issue.type === 'maintainability'] *)
Definition fixable (issue : CodeIssue) : bool :=
  match issueType issue with
  | IssueType.style | IssueType.maintainability => true
  | _ => false
  end.

(** The loop of [applyAutoFixes]: it prints, and changes nothing. *)
Definition applyAutoFixes (results : list AnalysisResult) : M Report :=
  ret (flat_map
         (fun result =>
            let fixableIssues := filter fixable (issues result) in
            if size fixableIssues >? 0
            then [(Analyze.file result, map message fixableIssues)]
            else [])
         results).

Section Command.

Variable w : World.

Definition displayResults (results : list AnalysisResult) (autoFix : bool)
  : M ending :=
  let summary := Analyze.displayResults results in
  let totalIssues := issuesFound summary in
  if autoFix && (totalIssues >? 0) then
    do shouldFix <- confirm w;
    if shouldFix then
      do fixed <- applyAutoFixes results;
      ret (Displayed summary (Some fixed))
    else ret (Displayed summary None)
  else ret (Displayed summary None).

(** [startWatchMode] prints that the mode is a prototype, and returns. *)
Definition startWatchMode (target : string) : M unit := ret tt.

Definition analyzeCommand (options : Options) : M ending :=
  if negb (configured w) then exit 1
  else
    tryCatch
      (if isTrue (watch options) then
         startWatchMode (targetOf (file options)) ;;
         ret Watching
       else
         do results <-
           analyzeCodebase w (targetOf (file options)) (isTrue (full options));
         match Edit.decodeAll decodeResult results with
         | Some typed => displayResults typed (isTrue (fix' options))
         | None => ret (OutsideInterface results)
         end)
      (fun _ => exit 1).

End Command.

End AnalyzeCommand.

(** ** The edit command with git

    [handleEditWithGit] runs the edit command between shell commands
    given to [execSync].  A run is the sequence of its steps: the shell
    commands it attempts and the events of the edit command.  Whether a
    shell command succeeds is not decided by the wrapper; the shell
    commands are taken to leave the files of the embedding as they are. *)

Module Git.

Import Js Host Edit.

Record Options := {
  createBranch : option string;
  commitMessage : option string;
  pushRemote : option bool
}.

Inductive step : Type :=
(** a command is given to [execSync] *)
| Exec (command : string)
(** the edit command causes the event *)
| OfEdit (e : event).

(** How a run of the wrapper ends when it returns. *)
Inductive ending : Type :=
(** the branch could not be created *)
| BranchFailed
(** the edit command has returned, the git commands have been tried *)
| Finished (edit : Edit.ending).

Record Run := {
  ended : outcome ending;
  tree : Files;
  steps : list step
}.

(** The text of an option that is set and not empty: [if (option)]. *)
Definition given (setting : option string) : option string :=
  match setting with
  | Some text => if String.eqb text "" then None else Some text
  | None => None
  end.

Definition doubleQuote : string := String (ascii_of_nat 34) EmptyString.

Definition checkoutCommand (branch : string) : string :=
  ("git checkout -b " ++ branch)%string.

Definition addCommand (filePath : string) : string :=
  ("git add " ++ filePath)%string.

Definition commitCommand (message : string) : string :=
  ("git commit -m " ++ doubleQuote ++ message ++ doubleQuote)%string.

Definition pushCommand (options : Options) : string :=
  ("git push origin "
     ++ match given (createBranch options) with
        | Some branch => branch
        | None => "HEAD"
        end)%string.

(** The options that the wrapper gives to the edit command:
    [{ backup: true }]. *)
Definition editOptions : Edit.Options :=
  {| dryRun := None; backup := Some true; autoApply := None;
     context := None |}.

Section Wrapper.

Variable w : World.

(** [execSync done command]: the command returns normally when it is
    given to [execSync] after the steps [done]. *)
Variable execSync : list step -> string -> bool.

(** The [try] block after the edit: the commands attempted. *)
Definition commitSteps (done : list step) (filePath message : string)
  (options : Options) : list step :=
  if execSync done (addCommand filePath) then
    if execSync (done ++ [Exec (addCommand filePath)]) (commitCommand message)
    then
      if isTrue (pushRemote options)
      then [Exec (addCommand filePath); Exec (commitCommand message);
            Exec (pushCommand options)]
      else [Exec (addCommand filePath); Exec (commitCommand message)]
    else [Exec (addCommand filePath); Exec (commitCommand message)]
  else [Exec (addCommand filePath)].

Definition handleEditWithGit (filePath prompt : string) (options : Options)
  (fs : Files) : Run :=
  let checkout :=
    match given (createBranch options) with
    | Some branch => [Exec (checkoutCommand branch)]
    | None => []
    end in
  let created :=
    match given (createBranch options) with
    | Some branch => execSync [] (checkoutCommand branch)
    | None => true
    end in
  if created then
    let edit := handleEditCommand w filePath prompt editOptions fs in
    let done := checkout ++ map OfEdit (events edit) in
    match result edit with
    | Returned how =>
        {| ended := Returned (Finished how);
           tree := files edit;
           steps := done
                      ++ match given (commitMessage options) with
                         | Some message =>
                             commitSteps done filePath message options
                         | None => []
                         end |}
    | Raised e => {| ended := Raised e; tree := files edit; steps := done |}
    | Exited n => {| ended := Exited n; tree := files edit; steps := done |}
    end
  else {| ended := Returned BranchFailed; tree := fs; steps := checkout |}.

End Wrapper.

End Git.
(** * Notions used in the statements *)

Section ApplierNotions.

Import Edit.
Local Open Scope Z_scope.

(** The suggestion addresses a range inside the current sequence. *)
Definition fits (cur : list string) (s : EditSuggestion) : Prop :=
  0 <= startLine s - 1 /\ startLine s - 1 <= endLine s - 1
  /\ endLine s - 1 < Z.of_nat (length cur).

(** The inclusive range [startLine - 1 .. endLine - 1] of [cur] replaced by
    the suggested lines. *)
Definition replaceRange (cur : list string) (s : EditSuggestion)
  : list string :=
  firstn (Z.to_nat (startLine s - 1)) cur ++ suggestedLines s
    ++ skipn (S (Z.to_nat (endLine s - 1))) cur.

(** [Applied cur order final]: going through [order] from the left, every
    suggestion that fits the current sequence replaces its range, and every
    other suggestion leaves the sequence as it is. *)
Inductive Applied : list string -> list EditSuggestion -> list string -> Prop :=
| Applied_done cur : Applied cur [] cur
| Applied_replace cur s rest final :
    fits cur s -> Applied (replaceRange cur s) rest final ->
    Applied cur (s :: rest) final
| Applied_skip cur s rest final :
    ~ fits cur s -> Applied cur rest final ->
    Applied cur (s :: rest) final.

Definition descending (a b : EditSuggestion) : Prop :=
  startLine a >= startLine b.

(** A suggestion valid for the file: 1-based, inclusive, inside the lines. *)
Definition inBounds (lines : list string) (s : EditSuggestion) : Prop :=
  1 <= startLine s /\ startLine s <= endLine s
  /\ endLine s <= Z.of_nat (length lines).

Definition disjointRanges (s t : EditSuggestion) : Prop :=
  endLine s < startLine t \/ endLine t < startLine s.

(** Any two suggestions of the list, taken at different positions, address
    disjoint ranges. *)
Definition nonOverlapping (suggestions : list EditSuggestion) : Prop :=
  ForallOrdPairs disjointRanges suggestions.

Definition strictlyDescending (a b : EditSuggestion) : Prop :=
  startLine a > startLine b.

(** What the filter is meant to keep. *)
Definition accepted (s : EditSuggestion) : Prop :=
  70 <= confidence s /\ originalLines s <> [] /\ suggestedLines s <> [].

(** [Retained input output]: [output] is [input] with exactly the
    suggestions that are not [accepted] taken out, the others unchanged and in
    their order. *)
Inductive Retained : list EditSuggestion -> list EditSuggestion -> Prop :=
| Retained_nil : Retained [] []
| Retained_keep s input output :
    accepted s -> Retained input output -> Retained (s :: input) (s :: output)
| Retained_drop s input output :
    ~ accepted s -> Retained input output -> Retained (s :: input) output.

(** Sample data for the scenarios. *)
Definition sampleLines : list string := ["a"; "b"; "c"; "d"; "e"].

Definition replaceLine (n : Z) (old new : string) : EditSuggestion :=
  {| originalLines := [old]; suggestedLines := [new];
     startLine := n; endLine := n; reasoning := ""; confidence := 90 |}.

Definition withConfidence (c : Z) : EditSuggestion :=
  {| originalLines := ["old"]; suggestedLines := ["new"];
     startLine := 1; endLine := 1; reasoning := ""; confidence := c |}.

End ApplierNotions.

Section SummaryNotions.

Import Js Analyze.
Local Open Scope Z_scope.

(** Sum of a figure over the results. *)
Definition total (figure : AnalysisResult -> Z) (results : list AnalysisResult)
  : Z :=
  fold_right (fun r acc => figure r + acc) 0 results.

(** The result has the content that [analyzeFile] gives to a file whose
    analysis failed. *)
Definition isPlaceholder (r : AnalysisResult) : bool :=
  match issues r, suggestions r, testCoverage (metrics r),
        performance (metrics r), security (metrics r) with
  | [], [], None, Performance.fair, Security.moderate =>
      (complexity (metrics r) =? 0) && (maintainabilityIndex (metrics r) =? 50)
  | _, _, _, _, _ => false
  end.

(** The mean of a figure over the results that are not placeholders: the
    average as the sentence "across all successfully analyzed files" reads. *)
Definition meanOverAnalyzed (figure : AnalysisResult -> Z)
  (results : list AnalysisResult) : number :=
  let analyzed := filter (fun r => negb (isPlaceholder r)) results in
  divide (ofZ (total figure analyzed)) (ofZ (size analyzed)).

(** A result of a successful analysis, for the scenarios. *)
Definition reviewed (path : string) (c m : Z) : AnalysisResult :=
  {| file := path;
     issues := [{| issueLine := 3; column := 1; severity := Severity.warning;
                   message := "unused variable";
                   issueType := IssueType.style |}];
     suggestions := [];
     metrics := {| complexity := c; maintainabilityIndex := m;
                   testCoverage := None; performance := Performance.good;
                   security := Security.secure |} |}.

End SummaryNotions.

Section FlowNotions.

Import Js Host.

(** The computation leaves the files as they are. *)
Definition readOnly {A} (m : M A) : Prop :=
  forall fs, files (m fs) = fs.

(** Events of the edit command that the backup has to come before: the
    oracle is consulted, the user is asked, the file itself is written, the
    session is recorded. *)
Definition afterBackup (filePath : string) (e : event) : Prop :=
  match e with
  | Generate _ | Confirm | SaveSession => True
  | Write path _ => path = filePath
  | Access _ | Read _ => False
  end.

(** The computation leaves the file at [path] as it is. *)
Definition keeps {A} (path : string) (m : M A) : Prop :=
  forall fs, contentOf path (files (m fs)) = contentOf path fs.

Definition kind (e : event) : string :=
  match e with
  | Access _ => "access"
  | Read _ => "read"
  | Write _ _ => "write"
  | Generate _ => "generate"
  | Confirm => "confirm"
  | SaveSession => "session"
  end.

(** A world for the scenarios: every file can be read and written, the
    oracle answers [text], the user declines. *)
Definition oracleSays (text : string) : World :=
  {| readable := fun _ => true;
     writable := fun _ => true;
     timestamp := "1700000000000";
     extname := fun _ => ".ts";
     isFile := fun _ => Normal true;
     getCodeFiles := fun _ => Normal [];
     configured := true;
     generateContent := fun _ => Normal (Some text);
     confirmProceed := false;
     sessionSaved := true |}.

Definition sampleFiles : Files :=
  [("a.ts", Js.join Edit.nl ["a"; "b"; "c"])].

Definition sampleResponse : string :=
  quoted "{'language': 'typescript', 'complexity': 3, 'suggestions': [{'originalLines': ['b'], 'suggestedLines': ['B2'], 'startLine': 2, 'endLine': 2, 'reasoning': 'naming', 'confidence': 90}], 'risks': [], 'dependencies': []}".

Definition lowConfidenceResponse : string :=
  quoted "{'language': 'typescript', 'complexity': 3, 'suggestions': [{'originalLines': ['b'], 'suggestedLines': ['B2'], 'startLine': 2, 'endLine': 2, 'reasoning': 'naming', 'confidence': 69}], 'risks': [], 'dependencies': []}".

Definition defaultOptions : Edit.Options :=
  {| Edit.dryRun := None; Edit.backup := None; Edit.autoApply := None;
     Edit.context := None |}.

Definition dryRunOptions : Edit.Options :=
  {| Edit.dryRun := Some true; Edit.backup := None; Edit.autoApply := None;
     Edit.context := None |}.

Definition autoApplyOptions : Edit.Options :=
  {| Edit.dryRun := None; Edit.backup := None; Edit.autoApply := Some true;
     Edit.context := None |}.

End FlowNotions.

Section BatchNotions.

Import Js Host Analyze.

(** The oracle fails on the request: the call throws, or the response has
    no text. *)
Definition oracleFails (w : World) (request : Request) : Prop :=
  match generateContent w request with
  | Normal (Some text) => text = ""
  | Normal None => True
  | Throw _ => True
  end.

(** The oracle answers the request with the text. *)
Definition oracleAnswers (w : World) (request : Request) (text : string)
  : Prop :=
  generateContent w request = Normal (Some text) /\ text <> "".

(** The request that [analyzeFile] sends for a file with this content. *)
Definition requestFor (w : World) (filePath content : string)
  (fullAnalysis : bool) : Request :=
  createAnalysisPrompt content (extname w filePath) fullAnalysis.

(** [r] is what the analysis of [filePath] has to return: the neutral
    result when the oracle fails, the parsed response otherwise. *)
Definition resultOf (w : World) (fs : Files) (fullAnalysis : bool)
  (filePath : string) (r : value) : Prop :=
  exists content,
    contentOf filePath fs = Some content
    /\ let request := requestFor w filePath content fullAnalysis in
       (oracleFails w request -> r = neutralAnalysis filePath)
       /\ (forall text, oracleAnswers w request text ->
                        r = parseAnalysisResponse text filePath).

(** The files that [analyzeCodebase] analyzes for the target are
    [batch]: the target itself when it is a file, the code files of the
    directory otherwise. *)
Definition batchOf (w : World) (target : string) (batch : list string)
  : Prop :=
  (isFile w target = Normal true /\ batch = [target])
  \/ (isFile w target = Normal false /\ getCodeFiles w target = Normal batch).

(** The file is there and can be read. *)
Definition canRead (w : World) (fs : Files) (filePath : string) : Prop :=
  (exists content, contentOf filePath fs = Some content)
  /\ readable w filePath = true.

(** A world for the scenarios: three files, of which the one named
    [unreadable] cannot be read; the oracle fails on the content of
    [c.ts]. *)
Definition threeFiles : Files :=
  [("a.ts", "let a"); ("b.ts", "let b"); ("c.ts", "let c")].

Definition batchWorld (unreadable : string) : World :=
  {| readable := fun p => negb (String.eqb p unreadable);
     writable := fun _ => true;
     timestamp := "1700000000000";
     extname := fun _ => ".ts";
     isFile := fun _ => Normal false;
     getCodeFiles := fun _ => Normal ["a.ts"; "b.ts"; "c.ts"];
     configured := true;
     generateContent :=
       fun request =>
         if String.eqb (Host.code request) "let c"
         then Throw (Error "quota")
         else Normal (Some (quoted "{'issues': [], 'suggestions': [], 'metrics': {'complexity': 4, 'maintainabilityIndex': 80, 'performance': 'good', 'security': 'secure'}}"));
     confirmProceed := false;
     sessionSaved := true |}.

End BatchNotions.

Section ParseNotions.

Import Js Host.

(** What [analyzeAndGenerateEdits] returns when the oracle answers with
    [analysisText]: the [try] block from [// Parse AI response] on, with its
    [catch]. *)
Definition analysisOfText (language analysisText : string) : value :=
  match Edit.parseAnalysis analysisText with
  | Normal analysis => analysis
  | Throw _ => Edit.minimalAnalysis language
  end.

(** The text that [parseAnalysisResponse] gives to [JSON.parse]. *)
Definition jsonText (response : string) : string :=
  match Analyze.jsonMatch response with
  | Some span => span
  | None => response
  end.

(** The analysis with its suggestions filtered. *)
Definition validated (a : Edit.FileAnalysis) : Edit.FileAnalysis :=
  {| Edit.language := Edit.language a;
     Edit.complexity := Edit.complexity a;
     Edit.suggestions := Edit.filterSuggestions (Edit.suggestions a);
     Edit.risks := Edit.risks a;
     Edit.dependencies := Edit.dependencies a |}.

(** The value has the shape of a [FileAnalysis]. *)
Definition wellFormed (v : value) : Prop := Edit.decode v <> None.

(** The member of the parsed object, or the default: [parsed.key || d]. *)
Definition memberOr (key : string) (d : value)
  (members : list (string * value)) : value :=
  orElse (match lookup key members with Some v => v | None => Undefined end) d.

Definition defaultMetrics : value :=
  Analyze.metricsValue 5 70 "good" "moderate".

(** *** The algorithm as the specification words it

    (1) strip the code fences; (2) parse the whole text as the expected
    structure and, if that fails, the first balanced brace span; (3) fall
    back only if both fail or the shape is missing. *)

(** The prefix of [cs] that closes the braces opened so far ([depth] of
    them, the head of [cs] being inside). *)
Fixpoint balancedPrefix (depth : nat) (cs : list ascii)
  : option (list ascii) :=
  match cs with
  | [] => None
  | c :: rest =>
      if Ascii.eqb c "{" then
        option_map (cons c) (balancedPrefix (S depth) rest)
      else if Ascii.eqb c "}" then
        match depth with
        | O => None
        | S O => Some [c]
        | S d => option_map (cons c) (balancedPrefix d rest)
        end
      else option_map (cons c) (balancedPrefix depth rest)
  end.

Definition firstBalancedSpan (text : string) : option string :=
  match fromFirst "{" (chars text) with
  | Some tail => option_map string_of_list_ascii (balancedPrefix 0 tail)
  | None => None
  end.

(** [expected v] is the result for a parsed value of the expected
    structure, [None] for another value. *)
Definition parseAsSpecified (expected : value -> option value)
  (fallback : value) (text : string) : value :=
  let stripped := Edit.cleanResponse text in
  let attempt (s : string) : option value :=
    match JSON_parse s with
    | Normal v => expected v
    | Throw _ => None
    end in
  match attempt stripped with
  | Some r => r
  | None =>
      match firstBalancedSpan stripped with
      | Some span =>
          match attempt span with
          | Some r => r
          | None => fallback
          end
      | None => fallback
      end
  end.

Definition expectedAnalysis (v : value) : option value :=
  match Edit.decode v with
  | Some a => Some (Edit.encode (validated a))
  | None => None
  end.

Definition expectedResult (filePath : string) (v : value) : option value :=
  match v with
  | Obj members =>
      match lookup "issues" members, lookup "suggestions" members,
            lookup "metrics" members with
      | Some i, Some s, Some m =>
          let r := Analyze.resultValue filePath i s m in
          match Analyze.decodeResult r with
          | Some _ => Some r
          | None => None
          end
      | _, _, _ => None
      end
  | _ => None
  end.

Definition backtick : ascii := "`"%char.

Definition reviewText : string :=
  quoted "{'issues': [], 'suggestions': [], 'metrics': {'complexity': 4, 'maintainabilityIndex': 80, 'performance': 'good', 'security': 'secure'}}".

(** Responses for the scenarios: prose before the analysis, a review
    followed by a second object, an analysis with nothing but suggestions. *)
Definition proseThenAnalysis : string :=
  ("Here is the analysis: " ++ sampleResponse)%string.

Definition twoObjects : string :=
  (reviewText ++ quoted " and {'note': 1}")%string.

Definition suggestionsOnly : string :=
  quoted "{'suggestions': [{'confidence': 90, 'originalLines': ['a'], 'suggestedLines': ['b']}]}".

(** *** The fence markers

    [marker m rest]: the text [m ++ rest] starts with the fence marker
    [m], as the pattern of the edit parser matches it there: three
    backticks and [json] with the line feed after them if there is one;
    otherwise a line feed and three backticks; otherwise three
    backticks. *)
Inductive marker : list ascii -> list ascii -> Prop :=
| marker_json_line rest : marker (chars "```json" ++ [LF]) rest
| marker_json rest : hd_error rest <> Some LF -> marker (chars "```json") rest
| marker_line rest : marker (LF :: chars "```") rest
| marker_plain rest :
    (forall tail, rest <> chars "json" ++ tail) -> marker (chars "```") rest.

(** [Unfenced cs out]: [out] is [cs] without its fence markers, taken
    from the left; a character that starts no marker is kept. *)
Inductive Unfenced : list ascii -> list ascii -> Prop :=
| Unfenced_end : Unfenced [] []
| Unfenced_marker m rest out :
    marker m rest -> Unfenced rest out -> Unfenced (m ++ rest) out
| Unfenced_keep c rest out :
    (forall m tail, marker m tail -> c :: rest <> m ++ tail) ->
    Unfenced rest out -> Unfenced (c :: rest) (c :: out).

(** What the edit parser makes of a parsed value: an object whose member
    [suggestions] is an array that the filter goes through is returned
    with that member filtered, anything else gives the minimal
    analysis. *)
Definition analysisOfValue (language : string) (parsed : completion value)
  : value :=
  match parsed with
  | Normal (Obj members) =>
      match lookup "suggestions" members with
      | Some (Arr elements) =>
          match Edit.filterArray Edit.keepSuggestion elements with
          | Normal kept => Obj (setMember "suggestions" (Arr kept) members)
          | Throw _ => Edit.minimalAnalysis language
          end
      | _ => Edit.minimalAnalysis language
      end
  | _ => Edit.minimalAnalysis language
  end.

(** What the analyze parser makes of a parsed value: the basic analysis
    for a rejected text and for [null], the members with their defaults
    for an object, the defaults alone for any other value. *)
Definition resultOfValue (filePath : string) (parsed : completion value)
  : value :=
  match parsed with
  | Throw _ | Normal Null | Normal Undefined => Analyze.basicAnalysis filePath
  | Normal (Obj members) =>
      Analyze.resultValue filePath (memberOr "issues" (Arr []) members)
        (memberOr "suggestions" (Arr []) members)
        (memberOr "metrics" defaultMetrics members)
  | Normal _ =>
      Analyze.resultValue filePath (Arr []) (Arr []) defaultMetrics
  end.

(** A parsed value that has no members to read: an array, a number, a
    string or a boolean. *)
Definition memberless (v : value) : Prop :=
  match v with
  | Bool _ | Num _ | Str _ | Arr _ => True
  | _ => False
  end.

End ParseNotions.

(** ** Notions for the further properties *)

Section RewriteNotions.

Import Edit.
Local Open Scope Z_scope.

(** What a single pass over the original lines writes for line number [n]:
    the suggested lines of the suggestion that starts there, nothing for a
    line inside a range, the line itself otherwise. *)
Definition rewriteLine (suggestions : list EditSuggestion) (n : Z)
  (line : string) : list string :=
  match find (fun s => startLine s =? n) suggestions with
  | Some s => suggestedLines s
  | None =>
      if existsb (fun s => (startLine s <=? n) && (n <=? endLine s))
                 suggestions
      then [] else [line]
  end.

(** The lines numbered from [n] rewritten in one pass, every suggestion
    read against the original numbering. *)
Fixpoint rewriteFrom (suggestions : list EditSuggestion) (n : Z)
  (lines : list string) : list string :=
  match lines with
  | [] => []
  | line :: rest =>
      rewriteLine suggestions n line ++ rewriteFrom suggestions (n + 1) rest
  end.

(** [b] is a well-ordered range that ends before [a] starts. *)
Definition below (a b : EditSuggestion) : Prop :=
  endLine b < startLine a /\ startLine b <= endLine b.

(** A range that [applyEdits] can apply to some sequence: it starts at line
    1 or later and does not end before it starts. *)
Definition wellOrdered (s : EditSuggestion) : bool :=
  (1 <=? startLine s) && (startLine s <=? endLine s).

(** The text has no line feed. *)
Definition oneLine (s : string) : Prop := ~ In Js.LF (Js.chars s).

(** The suggested lines have no line feed. *)
Definition plainLines (s : EditSuggestion) : Prop :=
  Forall oneLine (suggestedLines s).

(** A suggestion that deletes the lines [first] to [last]. *)
Definition deleteLines (first last : Z) : EditSuggestion :=
  {| originalLines := ["old"]; suggestedLines := [];
     startLine := first; endLine := last; reasoning := ""; confidence := 90 |}.

(** What a text made of the lines splits into: the lines, or one empty
    line when there is none. *)
Definition readBack (lines : list string) : list string :=
  match lines with
  | [] => [EmptyString]
  | _ => lines
  end.

End RewriteNotions.

Section CommandNotions.

Import Js Host Edit.

(** The backup step of [handleEditCommand]. *)
Definition makeBackup (w : World) (filePath : string) (options : Options)
  (currentContent : string) : M unit :=
  match backup options with
  | Some false => ret tt
  | _ => writeFile w (backupPath w filePath) currentContent
  end.

(** What [handleEditCommand] does once it has the analysis. *)
Definition afterAnalysis (w : World) (filePath currentContent : string)
  (options : Options) (analysis : value) : M ending :=
  do none <- lift (noSuggestions analysis);
  if none then ret NoChangesSuggested
  else
    match decode analysis with
    | None => ret (OutsideInterface analysis)
    | Some a =>
        if isTrue (dryRun options) then ret DryRunMode
        else
          do shouldApply <-
            (if isTrue (autoApply options) then ret true else confirm w);
          if shouldApply then
            writeFile w filePath
              (applyEdits (split LF currentContent) (suggestions a)) ;;
            saveSession w ;;
            ret ChangesApplied
          else ret ChangesCancelled
    end.

(** The context files of a call, none when the option is absent. *)
Definition contextList (contextFiles : option (list string)) : list string :=
  match contextFiles with
  | Some l => l
  | None => []
  end.

(** What the analysis returns for the outcome of the oracle. *)
Definition analysisFor (language : string)
  (answer : completion (option string)) : value :=
  match answer with
  | Normal (Some text) =>
      if String.eqb text "" then minimalAnalysis language
      else analysisOfText language text
  | _ => minimalAnalysis language
  end.

(** The content that the command writes for an analysis. *)
Definition edited (currentContent : string) (a : FileAnalysis) : string :=
  applyEdits (split LF currentContent) (suggestions a).

(** The user is asked unless [autoApply] is set. *)
Definition asked (options : Options) : list event :=
  if isTrue (autoApply options) then [] else [Confirm].

(** The event leaves the file and the user alone. *)
Definition quiet (filePath : string) (e : event) : Prop :=
  match e with
  | Confirm | SaveSession => False
  | Write path _ => path <> filePath
  | _ => True
  end.

(** The files when the analysis starts: as they were, or with the
    backup. *)
Definition backedUp (w : World) (filePath content : string) (fs fs1 : Files)
  : Prop :=
  fs1 = fs \/ fs1 = (backupPath w filePath, content) :: fs.

(** The steps of a complete run of the command, in order. *)
Definition allSteps (w : World) (filePath : string) (options : Options)
  (content : string) (request : Request) (newContent : string)
  : list event :=
  [Access filePath; Read filePath]
    ++ match backup options with
       | Some false => []
       | _ => [Write (backupPath w filePath) content]
       end
    ++ map Read (contextList (context options))
    ++ [Generate request]
    ++ asked options
    ++ [Write filePath newContent; SaveSession].

(** [trace] is the beginning of [steps]. *)
Definition beginningOf (steps trace : list event) : Prop :=
  exists rest, steps = trace ++ rest.

(** The run has this result, these files and these events. *)
Definition runIs {A} (run : Run A) (r : outcome A) (fs : Files)
  (trace : list event) : Prop :=
  result run = r /\ files run = fs /\ events run = trace.

(** The event comes from the analysis step: a context file is read or the
    oracle is consulted. *)
Definition analysisEvent (e : event) : Prop :=
  match e with
  | Read _ | Generate _ => True
  | _ => False
  end.

(** The event changes something or asks the user. *)
Definition intrusive (e : event) : Prop :=
  match e with
  | Write _ _ | Confirm | SaveSession => True
  | _ => False
  end.

End CommandNotions.


Section WalkNotions.

Import Js Walk.

Variable join : string -> string -> string.
Variable extname : string -> string.

(** [path] is the path of a code file that the walk reaches from the
    entries of [dir]: a file with a code extension, in [dir] or below a
    chain of directories that the walk descends into. *)
Inductive Reached : string -> list Dirent -> string -> Prop :=
| Reached_file dir entries name :
    In (File name) entries ->
    includes codeExtensions (extname name) = true ->
    Reached dir entries (join dir name)
| Reached_below dir entries name listable below path :
    In (Directory name listable below) entries ->
    descends name = true ->
    Reached (join dir name) below path ->
    Reached dir entries path.

(** What the walk of the entries adds to the array. *)
Definition adds (dir : string) (entries : list Dirent) (files out : list string)
  : Prop :=
  exists new,
    out = files ++ new
    /\ forall path, In path new <-> Reached dir entries path.

(** Every directory that the walk descends into can be listed. *)
Fixpoint allListable (entry : Dirent) : bool :=
  match entry with
  | Directory name listable entries =>
      if descends name
      then listable && forallb allListable entries
      else true
  | _ => true
  end.

(** A string that [path.extname] can give: empty, or starting with a
    dot. *)
Definition extensionLike (ext : string) : Prop :=
  ext = "" \/ String.prefix "." ext = true.

(** A concrete [path.join] and [path.extname] for the scenarios. *)
Definition slashJoin (dir name : string) : string :=
  (dir ++ "/" ++ name)%string.

(** The suffix of [cs] from its last dot. *)
Fixpoint fromLastDot (cs : list ascii) : option (list ascii) :=
  match cs with
  | [] => None
  | c :: rest =>
      match fromLastDot rest with
      | Some ext => Some ext
      | None => if Ascii.eqb c "." then Some cs else None
      end
  end.

(** The extension of a file name: from its last dot, unless that is its
    first character. *)
Definition dotExtname (name : string) : string :=
  match chars name with
  | [] => ""
  | _ :: rest =>
      match fromLastDot rest with
      | Some ext => string_of_list_ascii ext
      | None => ""
      end
  end.

Definition sampleTree : list Dirent :=
  [File "main.ts"; File "README.md";
   Directory "lib" true [File "util.py"; Other "link.ts"];
   Directory "node_modules" false [File "dep.js"];
   Directory ".git" false []].

End WalkNotions.

Section AnalyzeNotions.

Import Js Host Analyze.

(** What the analysis of one file does before the next file: the read
    and, for a file that is there and can be read, the request. *)
Definition analysisSteps (w : World) (fs : Files) (fullAnalysis : bool)
  (filePath : string) : list event :=
  match contentOf filePath fs with
  | Some content =>
      if readable w filePath
      then [Read filePath;
            Generate (requestFor w filePath content fullAnalysis)]
      else [Read filePath]
  | None => [Read filePath]
  end.

(** Reading the property never throws and gives neither [null] nor
    [undefined]. *)
Definition present (v : value) (key : string) : Prop :=
  exists x, get v key = Normal x /\ truthy x = true.

(** The event changes no file and records no session. *)
Definition harmless (e : event) : Prop :=
  match e with
  | Write _ _ | SaveSession => False
  | _ => True
  end.

(** The results of the analysis of the target, when it returns, are
    all of the declared interface. *)
Definition shaped (w : World) (target : string) (fullAnalysis : bool)
  (fs : Files) : Prop :=
  forall results,
    result (analyzeCodebase w target fullAnalysis fs) = Returned results ->
    Edit.decodeAll decodeResult results <> None.

(** Every integer up to this magnitude is a double. *)
Definition exactIntegers : Z := 2 ^ 53.

(** A rounding as that of the quotient of two doubles: it keeps the
    order, and it leaves the integers that are doubles as they are. *)
Definition rounds (round : Q -> Q) : Prop :=
  (forall a b, (a <= b)%Q -> (round a <= round b)%Q)
  /\ (forall z, (Z.abs z <= exactIntegers)%Z ->
                (round (inject_Z z) == inject_Z z)%Q).

(** The sums of figures between [lo] and [hi] over the results are
    integers that are doubles: the additions of the code are exact. *)
Definition sumsExact (results : list AnalysisResult) (lo hi : Z) : Prop :=
  (size results * Z.max (Z.abs lo) (Z.abs hi) <= exactIntegers)%Z.

(** A response with text around the analysis. *)
Definition wrapped (before middle after : string) : string :=
  (before ++ "{" ++ middle ++ "}" ++ after)%string.

End AnalyzeNotions.

Section GitNotions.

Import Js Host Edit.

(** A world for the scenarios: as [oracleSays], with a user who
    accepts. *)
Definition accepting (text : string) : World :=
  {| readable := fun _ => true;
     writable := fun _ => true;
     timestamp := "1700000000000";
     extname := fun _ => ".ts";
     isFile := fun _ => Normal true;
     getCodeFiles := fun _ => Normal [];
     configured := true;
     generateContent := fun _ => Normal (Some text);
     confirmProceed := true;
     sessionSaved := true |}.

(** Every shell command succeeds. *)
Definition gitWorks (done : list Git.step) (command : string) : bool := true.

(** Every shell command succeeds but the commit. *)
Definition nothingToCommit (done : list Git.step) (command : string) : bool :=
  negb (String.prefix "git commit" command).

Definition branchCommitPush : Git.Options :=
  {| Git.createBranch := Some "fix"; Git.commitMessage := Some "rename";
     Git.pushRemote := Some true |}.

(** The edit command has returned. *)
Definition editReturned (run : Git.Run) : Prop :=
  exists how, Git.ended run = Returned (Git.Finished how).

(** The run of the edit command stays within the declared interface:
    it does not end on an analysis that is not a [FileAnalysis]. *)
Definition withinInterface (edit : Run ending) : Prop :=
  forall analysis, result edit <> Returned (OutsideInterface analysis).

End GitNotions.
(** * Properties *)

(** ** Strings and arrays *)

Section JsFacts.

Lemma split_nonempty sep s : Js.split sep s <> [].
Proof.
  destruct s as [|c rest]; simpl; [discriminate|].
  destruct (Ascii.eqb c sep); [discriminate|].
  destruct (Js.split sep rest); discriminate.
Qed.

Lemma join_cons sep x l :
  l <> [] -> Js.join sep (x :: l) = (x ++ sep ++ Js.join sep l)%string.
Proof. destruct l; [congruence | reflexivity]. Qed.

(** Joining what [split] produced gives the text back. *)
Lemma join_split sep s :
  Js.join (String sep EmptyString) (Js.split sep s) = s.
Proof.
  induction s as [|c rest IH]; simpl; [reflexivity|].
  destruct (Ascii.eqb_spec c sep) as [->|Hne].
  - rewrite join_cons by apply split_nonempty.
    simpl. now rewrite IH.
  - pose proof (split_nonempty sep rest) as Hs.
    destruct (Js.split sep rest) as [|piece pieces] eqn:E; [congruence|].
    destruct pieces as [|p ps]; simpl in *; now rewrite <- IH.
Qed.

(** Inside the bounds, [splice] replaces the inclusive range. *)
Lemma splice_in_range {A} (l : list A) (startIdx endIdx : Z) items :
  (0 <= startIdx)%Z -> (startIdx <= endIdx)%Z ->
  (endIdx < Z.of_nat (length l))%Z ->
  Js.splice l startIdx (endIdx - startIdx + 1) items
  = firstn (Z.to_nat startIdx) l ++ items ++ skipn (S (Z.to_nat endIdx)) l.
Proof.
  intros H0 H1 H2. unfold Js.splice.
  destruct (Z.ltb_spec startIdx 0) as [Hneg|_]; [lia|].
  rewrite Z.min_l by lia.
  rewrite Z.max_l by lia.
  rewrite Z.min_l by lia.
  replace (Z.to_nat (startIdx + (endIdx - startIdx + 1)))
    with (S (Z.to_nat endIdx)) by lia.
  reflexivity.
Qed.

End JsFacts.

(** ** The JSON reader *)

Section JsonReader.

Import Js.

Lemma skipWs_length cs : (length (skipWs cs) <= length cs)%nat.
Proof.
  induction cs as [|c cs IH]; simpl; [lia|].
  destruct (isJsonSpace c); simpl; lia.
Qed.

Lemma stripPrefix_length prefix : forall cs rest,
  stripPrefix prefix cs = Some rest ->
  (length rest + length prefix = length cs)%nat.
Proof.
  induction prefix as [|p prefix IH]; intros cs rest; simpl.
  - intros H. injection H as <-. lia.
  - destruct cs as [|c cs]; [discriminate|].
    destruct (Ascii.eqb p c); [|discriminate].
    intros H. apply IH in H. simpl. lia.
Qed.

Lemma takeDigits_length cs :
  (length (fst (takeDigits cs)) + length (snd (takeDigits cs)) = length cs)%nat.
Proof.
  induction cs as [|c cs IH]; simpl; [reflexivity|].
  destruct (isDigit c); [|simpl; lia].
  destruct (takeDigits cs) as [ds tl]. simpl in *. lia.
Qed.

Lemma takeExponent_length cs e rest :
  takeExponent cs = Some (e, rest) -> (length rest <= length cs)%nat.
Proof.
  unfold takeExponent. destruct cs as [|c cs].
  - intros H. injection H as _ <-. simpl. lia.
  - destruct (Ascii.eqb c "e" || Ascii.eqb c "E").
    + set (signed := match cs with
                      | [] => (false, cs)
                      | s :: tl => if Ascii.eqb s "-" then (true, tl)
                                   else if Ascii.eqb s "+" then (false, tl)
                                   else (false, cs)
                      end).
      assert (Hs : (length (snd signed) <= length cs)%nat).
      { subst signed. destruct cs as [|s tl]; simpl; [lia|].
        destruct (Ascii.eqb s "-"); [simpl; lia|].
        destruct (Ascii.eqb s "+"); simpl; lia. }
      destruct signed as [negative rest']. simpl in Hs.
      pose proof (takeDigits_length rest') as Hd.
      destruct (takeDigits rest') as [[|d ds] tl]; [discriminate|].
      intros H. injection H as _ <-. simpl in *. lia.
    + intros H. injection H as _ <-. simpl. lia.
Qed.

Lemma readNumber_length cs q rest :
  readNumber cs = Some (q, rest) -> (length rest < length cs)%nat.
Proof.
  unfold readNumber.
  set (signed := match cs with
                 | [] => (false, cs)
                 | c :: rest0 => if Ascii.eqb c "-" then (true, rest0)
                                 else (false, cs)
                 end).
  assert (Hs : (length (snd signed) <= length cs)%nat).
  { subst signed. destruct cs as [|c rest0]; simpl; [lia|].
    destruct (Ascii.eqb c "-"); simpl; lia. }
  destruct signed as [negative body]. simpl in Hs.
  pose proof (takeDigits_length body) as Hd.
  destruct (takeDigits body) as [int afterInt]. simpl in Hd.
  destruct int as [|d int]; [discriminate|].
  destruct (match int with [] => false | _ :: _ => Ascii.eqb d "0" end);
    [discriminate|].
  assert (Hf : forall frac afterFrac,
             match afterInt with
             | [] => Some ([], afterInt)
             | c :: rest0 =>
                 if Ascii.eqb c "."
                 then match takeDigits rest0 with
                      | ([], _) => None
                      | (fr, tl) => Some (fr, tl)
                      end
                 else Some ([], afterInt)
             end = Some (frac, afterFrac) ->
             (length afterFrac <= length afterInt)%nat).
  { intros frac afterFrac. destruct afterInt as [|c rest0].
    - intros H. injection H as _ <-. lia.
    - destruct (Ascii.eqb c ".").
      + pose proof (takeDigits_length rest0) as Hd'.
        destruct (takeDigits rest0) as [[|f fr] tl]; [discriminate|].
        intros H. injection H as _ <-. simpl in *. lia.
      + intros H. injection H as _ <-. lia. }
  destruct (match afterInt with [] => _ | _ => _ end) as [[frac afterFrac]|];
    [|discriminate].
  specialize (Hf frac afterFrac eq_refl).
  destruct (takeExponent afterFrac) as [[e tl]|] eqn:He; [|discriminate].
  apply takeExponent_length in He.
  intros H. injection H as _ <-. simpl in *. lia.
Qed.

Lemma consChar_length c r s rest :
  consChar c r = Some (s, rest) -> exists s', r = Some (s', rest).
Proof.
  destruct r as [[s' rest']|]; simpl; [|discriminate].
  intros H. injection H as _ <-. eauto.
Qed.

Lemma readString_length cs : forall s rest,
  readString cs = Some (s, rest) -> (length rest < length cs)%nat.
Proof.
  induction cs as [cs IH] using (well_founded_induction
                                   (Wf_nat.well_founded_ltof _ (@length ascii))).
  unfold Wf_nat.ltof in IH.
  intros s rest. destruct cs as [|c cs]; simpl; [discriminate|].
  destruct (Ascii.eqb c dquote).
  { intros H. injection H as _ <-. lia. }
  destruct (Ascii.eqb c backslash).
  - destruct cs as [|e cs]; [discriminate|].
    destruct (Ascii.eqb e "u").
    + destruct cs as [|h1 [|h2 [|h3 [|h4 cs]]]]; try discriminate.
      destruct (hex4 h1 h2 h3 h4) as [n|]; [|discriminate].
      destruct (n <? 256)%Z; [|discriminate].
      intros H. apply consChar_length in H. destruct H as [s' H].
      apply IH in H; simpl in *; lia.
    + destruct (escapeChar e); [|discriminate].
      intros H. apply consChar_length in H. destruct H as [s' H].
      apply IH in H; simpl in *; lia.
  - destruct (code c <? 32)%N; [discriminate|].
    intros H. apply consChar_length in H. destruct H as [s' H].
    apply IH in H; simpl in *; lia.
Qed.


Ltac lengths :=
  repeat match goal with
  | H : skipWs ?x = ?y |- _ =>
      let L := fresh "L" in
      pose proof (skipWs_length x) as L; rewrite H in L; simpl in L;
      revert H
  | H : readString ?x = Some _ |- _ =>
      apply readString_length in H; simpl in H
  | H : readNumber ?x = Some _ |- _ =>
      apply readNumber_length in H; simpl in H
  | H : stripPrefix _ _ = Some _ |- _ =>
      apply stripPrefix_length in H; simpl in H
  end; intros.

Ltac cases :=
  repeat match goal with
  | H : context [match ?x with _ => _ end] |- _ => destruct x eqn:?
  | H : Some _ = Some _ |- _ => injection H as ? ?; subst
  | H : (_, _) = (_, _) |- _ => injection H as ? ?; subst
  end; try discriminate.

(** Reading a value consumes input. *)
Lemma read_consumes fuel :
  (forall cs v rest,
     readValue fuel cs = Some (v, rest) -> (length rest < length cs)%nat)
  /\ (forall seen cs v rest,
        readElements fuel seen cs = Some (v, rest) ->
        (length rest < length cs)%nat)
  /\ (forall seen cs v rest,
        readMembers fuel seen cs = Some (v, rest) ->
        (length rest < length cs)%nat).
Proof.
  induction fuel as [|fuel (IHv & IHe & IHm)].
  - repeat split; intros; discriminate.
  - repeat split.
    + intros cs v rest H. simpl in H. unfold keyword in H. cases; lengths;
        try lia.
      * apply IHm in H. simpl in H. lia.
      * apply IHe in H. simpl in H. lia.
    + intros seen cs v rest H. simpl in H. cases; lengths.
      * apply IHe in H. match goal with H' : readValue _ _ = _ |- _ => apply IHv in H' end. lia.
      * match goal with H' : readValue _ _ = _ |- _ => apply IHv in H' end. lia.
    + intros seen cs v rest H. simpl in H. cases; lengths.
      * apply IHm in H. match goal with H' : readValue _ _ = _ |- _ => apply IHv in H' end. lia.
      * match goal with H' : readValue _ _ = _ |- _ => apply IHv in H' end. lia.
Qed.


(** More fuel than twice the length of the input never changes what is
    read. *)
Lemma read_enough fuel :
  (forall cs r more,
     readValue fuel cs = Some r -> (2 * length cs + 1 <= more)%nat ->
     readValue more cs = Some r)
  /\ (forall seen cs r more,
        readElements fuel seen cs = Some r ->
        (2 * length cs + 2 <= more)%nat ->
        readElements more seen cs = Some r)
  /\ (forall seen cs r more,
        readMembers fuel seen cs = Some r ->
        (2 * length cs + 2 <= more)%nat ->
        readMembers more seen cs = Some r).
Proof.
  induction fuel as [|fuel (IHv & IHe & IHm)].
  - repeat split; intros; discriminate.
  - repeat split.
    + intros cs r more H Hmore.
      destruct more as [|more]; [lia|].
      simpl in H |- *.
      destruct (skipWs cs) as [|c rest] eqn:Hws; [discriminate|].
      pose proof (skipWs_length cs) as L. rewrite Hws in L. simpl in L.
      destruct (Ascii.eqb c "{").
      { destruct (skipWs rest) as [|c' rest'] eqn:Hws'; [discriminate|].
        pose proof (skipWs_length rest) as L'. rewrite Hws' in L'.
        simpl in L'.
        destruct (Ascii.eqb c' "}"); [exact H|].
        apply IHm; [exact H | simpl; lia]. }
      destruct (Ascii.eqb c "[").
      { destruct (skipWs rest) as [|c' rest'] eqn:Hws'; [discriminate|].
        pose proof (skipWs_length rest) as L'. rewrite Hws' in L'.
        simpl in L'.
        destruct (Ascii.eqb c' "]"); [exact H|].
        apply IHe; [exact H | simpl; lia]. }
      exact H.
    + intros seen cs r more H Hmore.
      destruct more as [|more]; [lia|].
      simpl in H |- *.
      destruct (readValue fuel cs) as [[v rest]|] eqn:Hv; [|discriminate].
      pose proof (proj1 (read_consumes fuel) _ _ _ Hv) as Lv.
      rewrite (IHv cs (v, rest) more Hv) by lia.
      destruct (skipWs rest) as [|c rest'] eqn:Hws; [discriminate|].
      pose proof (skipWs_length rest) as L. rewrite Hws in L. simpl in L.
      destruct (Ascii.eqb c ","); [|exact H].
      apply IHe; [exact H | lia].
    + intros seen cs r more H Hmore.
      destruct more as [|more]; [lia|].
      simpl in H |- *.
      destruct (skipWs cs) as [|q afterQuote] eqn:Hws; [discriminate|].
      pose proof (skipWs_length cs) as L. rewrite Hws in L. simpl in L.
      destruct (Ascii.eqb q dquote); [|discriminate].
      destruct (readString afterQuote) as [[key afterKey]|] eqn:Hk;
        [|discriminate].
      pose proof (readString_length _ Hk) as Lk.
      destruct (skipWs afterKey) as [|colon afterColon] eqn:Hws';
        [discriminate|].
      pose proof (skipWs_length afterKey) as L'. rewrite Hws' in L'.
      simpl in L'.
      destruct (Ascii.eqb colon ":"); [|discriminate].
      destruct (readValue fuel afterColon) as [[v rest]|] eqn:Hv;
        [|discriminate].
      pose proof (proj1 (read_consumes fuel) _ _ _ Hv) as Lv.
      rewrite (IHv afterColon (v, rest) more Hv) by lia.
      destruct (skipWs rest) as [|c rest'] eqn:Hws''; [discriminate|].
      pose proof (skipWs_length rest) as L''. rewrite Hws'' in L''.
      simpl in L''.
      destruct (Ascii.eqb c ","); [|exact H].
      apply IHm; [exact H | lia].
Qed.

(** The fuel that [JSON_parse] gives is enough: more would read the
    same. *)
Lemma JSON_parse_fuel text more :
  (2 * length (chars text) + 2 <= more)%nat ->
  readValue more (chars text)
  = readValue (2 * length (chars text) + 2) (chars text).
Proof.
  intros Hmore.
  destruct (readValue (2 * length (chars text) + 2) (chars text)) as [r|] eqn:E.
  - apply (proj1 (read_enough _) _ _ more E). lia.
  - destruct (readValue more (chars text)) as [r|] eqn:E'; [|reflexivity].
    rewrite (proj1 (read_enough _) _ _ (2 * length (chars text) + 2)%nat E')
      in E by lia.
    discriminate.
Qed.

End JsonReader.

(** ** Runs of commands *)

Section HostFacts.

Import Js Host.

Lemma readOnly_ret {A} (a : A) : readOnly (ret a).
Proof. intros fs. reflexivity. Qed.

Lemma readOnly_raise {A} e : readOnly (@raise A e).
Proof. intros fs. reflexivity. Qed.

Lemma readOnly_lift {A} (c : completion A) : readOnly (lift c).
Proof. destruct c; [apply readOnly_ret | apply readOnly_raise]. Qed.

Lemma readOnly_bind {A B} (m : M A) (k : A -> M B) :
  readOnly m -> (forall a, readOnly (k a)) -> readOnly (Host.bind m k).
Proof.
  intros Hm Hk fs. unfold Host.bind.
  specialize (Hm fs).
  destruct (result (m fs)) eqn:E; simpl; auto.
  rewrite Hk. exact Hm.
Qed.

Lemma readOnly_tryCatch {A} (m : M A) (handler : error -> M A) :
  readOnly m -> (forall e, readOnly (handler e)) -> readOnly (tryCatch m handler).
Proof.
  intros Hm Hh fs. unfold tryCatch.
  specialize (Hm fs).
  destruct (result (m fs)) eqn:E; simpl; auto.
  rewrite Hh. exact Hm.
Qed.

Lemma readOnly_readFile w path : readOnly (readFile w path).
Proof. intros fs. reflexivity. Qed.

Lemma readOnly_generate w request : readOnly (generate w request).
Proof.
  unfold generate. apply readOnly_bind; [intros fs; reflexivity|].
  intros _. apply readOnly_lift.
Qed.

Lemma events_bind {A B} (m : M A) (k : A -> M B) fs :
  events (Host.bind m k fs)
  = events (m fs) ++ match result (m fs) with
                     | Returned a => events (k a (files (m fs)))
                     | _ => []
                     end.
Proof.
  unfold Host.bind. destruct (result (m fs)); simpl; now rewrite ?app_nil_r.
Qed.

Lemma result_bind {A B} (m : M A) (k : A -> M B) fs :
  result (Host.bind m k fs)
  = match result (m fs) with
    | Returned a => result (k a (files (m fs)))
    | Raised e => Raised e
    | Exited n => Exited n
    end.
Proof. unfold Host.bind. now destruct (result (m fs)). Qed.

Lemma files_bind {A B} (m : M A) (k : A -> M B) fs :
  files (Host.bind m k fs)
  = match result (m fs) with
    | Returned a => files (k a (files (m fs)))
    | _ => files (m fs)
    end.
Proof. unfold Host.bind. now destruct (result (m fs)). Qed.


Lemma keeps_readOnly {A} path (m : M A) : readOnly m -> keeps path m.
Proof. intros H fs. now rewrite H. Qed.

Lemma keeps_bind {A B} path (m : M A) (k : A -> M B) :
  keeps path m -> (forall a, keeps path (k a)) -> keeps path (Host.bind m k).
Proof.
  intros Hm Hk fs. rewrite files_bind.
  destruct (result (m fs)); auto. now rewrite Hk.
Qed.

Lemma keeps_writeFile w path other content :
  String.eqb other path = false -> keeps path (writeFile w other content).
Proof.
  intros Hne fs. unfold writeFile.
  destruct (writable w other); simpl; [now rewrite Hne | reflexivity].
Qed.

Lemma keeps_confirm w path : keeps path (confirm w).
Proof. intros fs. reflexivity. Qed.

Lemma keeps_saveSession w path : keeps path (saveSession w).
Proof. intros fs. unfold saveSession, emit, Host.bind. simpl. now destruct (sessionSaved w). Qed.

End HostFacts.

(** ** The line-range applier *)

Section Applier.

Import Edit.
Local Open Scope Z_scope.

Lemma fits_dec cur s :
  ((startLine s - 1 >=? 0) && (endLine s - 1 <? Z.of_nat (length cur))
     && (startLine s - 1 <=? endLine s - 1)) = true <-> fits cur s.
Proof.
  unfold fits. rewrite !andb_true_iff, Z.geb_le, Z.ltb_lt, Z.leb_le. tauto.
Qed.

Lemma applyOne_fits cur s : fits cur s -> applyOne cur s = replaceRange cur s.
Proof.
  intros Hf. unfold applyOne.
  destruct (fits_dec cur s) as [_ ->]; [|exact Hf].
  destruct Hf as (H0 & H1 & H2). now apply splice_in_range.
Qed.

Lemma applyOne_skip cur s : ~ fits cur s -> applyOne cur s = cur.
Proof.
  intros Hn. unfold applyOne.
  destruct ((startLine s - 1 >=? 0) && _ && _) eqn:E; [|reflexivity].
  apply fits_dec in E. contradiction.
Qed.

Lemma fits_decidable cur s : fits cur s \/ ~ fits cur s.
Proof. unfold fits. lia. Qed.

Lemma fold_applyOne_Applied order : forall cur,
  Applied cur order (fold_left applyOne order cur).
Proof.
  induction order as [|s rest IH]; intros cur; simpl; [constructor|].
  destruct (fits_decidable cur s) as [Hf|Hn].
  - rewrite (applyOne_fits Hf). now apply Applied_replace.
  - rewrite (applyOne_skip Hn). now apply Applied_skip.
Qed.

(** [Applied] determines the final sequence. *)
Lemma Applied_functional cur order final final' :
  Applied cur order final -> Applied cur order final' -> final = final'.
Proof.
  intros H. revert final'.
  induction H; intros final' H'; inversion H'; subst; auto; contradiction.
Qed.

Lemma placeDesc_perm s sorted : Permutation (placeDesc s sorted) (s :: sorted).
Proof.
  induction sorted as [|t rest IH]; simpl; [reflexivity|].
  destruct (startLine s <? startLine t); [|reflexivity].
  rewrite IH. apply perm_swap.
Qed.

Lemma sortedSuggestions_perm suggestions :
  Permutation (sortedSuggestions suggestions) suggestions.
Proof.
  induction suggestions as [|s rest IH]; simpl; [constructor|].
  rewrite placeDesc_perm. now constructor.
Qed.

Lemma placeDesc_sorted s sorted :
  StronglySorted descending sorted ->
  StronglySorted descending (placeDesc s sorted).
Proof.
  induction 1 as [|t rest Hs IH Hall]; simpl.
  - repeat constructor.
  - destruct (Z.ltb_spec (startLine s) (startLine t)) as [Hlt|Hge].
    + constructor; [exact IH|].
      apply (@Permutation_Forall _ _ (s :: rest)).
      * symmetry. apply placeDesc_perm.
      * constructor; [unfold descending; lia | exact Hall].
    + constructor; [now constructor|].
      constructor; [unfold descending; lia|].
      eapply Forall_impl; [|exact Hall].
      unfold descending. intros; lia.
Qed.

Lemma sortedSuggestions_sorted suggestions :
  StronglySorted descending (sortedSuggestions suggestions).
Proof.
  induction suggestions; simpl; [constructor | now apply placeDesc_sorted].
Qed.

(** The sort is stable: among suggestions with one [startLine], the order of
    the input is kept. *)
Lemma placeDesc_filter n s sorted :
  filter (fun t => startLine t =? n) (placeDesc s sorted)
  = filter (fun t => startLine t =? n) (s :: sorted).
Proof.
  induction sorted as [|t rest IH]; [reflexivity|].
  simpl placeDesc.
  destruct (Z.ltb_spec (startLine s) (startLine t)) as [Hlt|Hge];
    [|reflexivity].
  simpl in *. rewrite IH.
  destruct (Z.eqb_spec (startLine s) n), (Z.eqb_spec (startLine t) n);
    try reflexivity; lia.
Qed.

Lemma sortedSuggestions_stable n suggestions :
  filter (fun t => startLine t =? n) (sortedSuggestions suggestions)
  = filter (fun t => startLine t =? n) suggestions.
Proof.
  induction suggestions as [|s rest IH]; [reflexivity|].
  simpl sortedSuggestions. rewrite placeDesc_filter. simpl. now rewrite IH.
Qed.

(** C2. [applyEdits] goes through the suggestions in descending [startLine]
    order; a suggestion whose 0-based range satisfies
    0 <= startIdx <= endIdx < current length replaces that inclusive range of
    the current sequence by its suggested lines, and any other suggestion
    leaves the current sequence untouched.  The result is the final sequence
    joined by line feeds. *)
Theorem applyEdits_descending_bounds_checked
  (lines : list string) (suggestions : list EditSuggestion) :
  exists order final,
    Permutation order suggestions
    /\ StronglySorted descending order
    /\ Applied lines order final
    /\ applyEdits lines suggestions = Js.join (String Js.LF "") final
    /\ (forall cur s, fits cur s -> applyOne cur s = replaceRange cur s)
    /\ (forall cur s, ~ fits cur s -> applyOne cur s = cur).
Proof.
  exists (sortedSuggestions suggestions),
         (fold_left applyOne (sortedSuggestions suggestions) lines).
  split; [apply sortedSuggestions_perm|].
  split; [apply sortedSuggestions_sorted|].
  split; [apply fold_applyOne_Applied|].
  split; [reflexivity|].
  split; [intros; now apply applyOne_fits | intros; now apply applyOne_skip].
Qed.

(** C7. With no suggestion, [applyEdits] returns the lines joined by line
    feeds, which for the lines of a file is the content of the file. *)
Theorem applyEdits_no_suggestions :
  (forall lines, applyEdits lines [] = Js.join (String Js.LF "") lines)
  /\ (forall content, applyEdits (Js.split Js.LF content) [] = content).
Proof.
  split.
  - reflexivity.
  - intros content. unfold applyEdits, applyEditsLines. simpl.
    apply join_split.
Qed.

(** Suggestions with disjoint, non-empty ranges start on different lines. *)
Lemma nonOverlapping_starts lines suggestions :
  Forall (inBounds lines) suggestions -> nonOverlapping suggestions ->
  NoDup (map startLine suggestions).
Proof.
  intros Hb Hd. induction Hd as [|s rest Hs Hrest IH]; simpl; [constructor|].
  inversion Hb as [|? ? Hbs Hbrest]; subst.
  constructor; [|now apply IH].
  rewrite in_map_iff. intros (t & Heq & Hin).
  rewrite Forall_forall in Hs, Hbrest.
  specialize (Hs t Hin). specialize (Hbrest t Hin).
  unfold disjointRanges in Hs. unfold inBounds in *. lia.
Qed.

Lemma descending_strict l :
  StronglySorted descending l -> NoDup (map startLine l) ->
  StronglySorted strictlyDescending l.
Proof.
  induction 1 as [|s rest Hs IH Hall]; intros Hnd; [constructor|].
  simpl in Hnd. inversion Hnd as [|? ? Hnotin Hnd']; subst.
  constructor; [now apply IH|].
  rewrite Forall_forall in *. intros t Hin.
  specialize (Hall t Hin). unfold descending, strictlyDescending in *.
  assert (startLine s <> startLine t).
  { intros Heq. apply Hnotin. rewrite Heq. now apply in_map. }
  lia.
Qed.

(** Two strictly descending arrangements of the same suggestions are the
    same list. *)
Lemma strictlyDescending_unique l : forall l',
  StronglySorted strictlyDescending l -> StronglySorted strictlyDescending l' ->
  Permutation l l' -> l = l'.
Proof.
  induction l as [|a l IH]; intros l' Hs Hs' Hp.
  - apply Permutation_nil in Hp. now subst.
  - destruct l' as [|b l'].
    { symmetry in Hp. apply Permutation_nil in Hp. discriminate. }
    inversion Hs as [|? ? Hs1 Ha]; inversion Hs' as [|? ? Hs1' Hb]; subst.
    assert (a = b) as ->.
    { assert (Hina : In a (b :: l')).
      { eapply Permutation_in; [exact Hp | now left]. }
      assert (Hinb : In b (a :: l)).
      { eapply Permutation_in; [symmetry; exact Hp | now left]. }
      destruct Hina as [->|Hina]; [reflexivity|].
      destruct Hinb as [->|Hinb]; [reflexivity|].
      rewrite Forall_forall in Ha, Hb.
      specialize (Ha b Hinb). specialize (Hb a Hina).
      unfold strictlyDescending in *. lia. }
    f_equal. apply IH; auto. eapply Permutation_cons_inv; exact Hp.
Qed.

Lemma sortedSuggestions_permutation suggestions suggestions' :
  NoDup (map startLine suggestions) ->
  Permutation suggestions suggestions' ->
  sortedSuggestions suggestions' = sortedSuggestions suggestions.
Proof.
  intros Hnd Hp.
  assert (Hnd' : NoDup (map startLine suggestions')).
  { eapply Permutation_NoDup; [|exact Hnd]. now apply Permutation_map. }
  apply strictlyDescending_unique.
  - apply descending_strict; [apply sortedSuggestions_sorted|].
    eapply Permutation_NoDup; [|exact Hnd'].
    apply Permutation_map. symmetry. apply sortedSuggestions_perm.
  - apply descending_strict; [apply sortedSuggestions_sorted|].
    eapply Permutation_NoDup; [|exact Hnd].
    apply Permutation_map. symmetry. apply sortedSuggestions_perm.
  - rewrite !sortedSuggestions_perm. now symmetry.
Qed.

(** C8. For suggestions valid for the file whose ranges are pairwise
    disjoint, [applyEdits] returns the same content for every permutation of
    the list. *)
Theorem applyEdits_permutation (lines : list string)
  (suggestions suggestions' : list EditSuggestion) :
  Forall (inBounds lines) suggestions ->
  nonOverlapping suggestions ->
  Permutation suggestions suggestions' ->
  applyEdits lines suggestions' = applyEdits lines suggestions.
Proof.
  intros Hb Hd Hp. unfold applyEdits, applyEditsLines.
  rewrite (@sortedSuggestions_permutation suggestions suggestions'); auto.
  eapply nonOverlapping_starts; eassumption.
Qed.

Lemma applyEdits_permutation_witness :
  applyEdits sampleLines [replaceLine 4 "d" "D2"; replaceLine 2 "b" "B2"]
  = applyEdits sampleLines [replaceLine 2 "b" "B2"; replaceLine 4 "d" "D2"].
Proof.
  apply applyEdits_permutation.
  - unfold inBounds, sampleLines, replaceLine; simpl.
    repeat (apply Forall_cons || apply Forall_nil); simpl; lia.
  - unfold nonOverlapping, disjointRanges, replaceLine.
    apply FOP_cons; [apply Forall_cons; [simpl; lia | apply Forall_nil]|].
    apply FOP_cons; [apply Forall_nil | apply FOP_nil].
  - apply perm_swap.
Defined.

(** The scenarios of one suggestion and of two disjoint suggestions. *)
Example applyEdits_single :
  applyEditsLines ["a"; "b"; "c"; "d"]
    [{| originalLines := ["b"; "c"]; suggestedLines := ["X"];
        startLine := 2; endLine := 3; reasoning := ""; confidence := 90 |}]
  = ["a"; "X"; "d"].
Proof. reflexivity. Qed.

Example applyEdits_two_disjoint :
  applyEditsLines sampleLines [replaceLine 2 "b" "B2"; replaceLine 4 "d" "D2"]
  = ["a"; "B2"; "c"; "D2"; "e"].
Proof. reflexivity. Qed.

End Applier.

(** ** The validation of suggestions *)

Section Filter.

Import Edit.
Local Open Scope Z_scope.

Lemma acceptable_spec s : acceptable s = true <-> accepted s.
Proof.
  unfold acceptable, accepted.
  rewrite !andb_true_iff, Z.geb_le, !Z.ltb_lt.
  destruct (originalLines s), (suggestedLines s); simpl;
    intuition (try congruence; try lia).
Qed.

Lemma accepted_dec s : accepted s \/ ~ accepted s.
Proof.
  destruct (acceptable s) eqn:E.
  - left. now apply acceptable_spec.
  - right. intros H. apply acceptable_spec in H. congruence.
Qed.

Lemma filterSuggestions_Retained suggestions :
  Retained suggestions (filterSuggestions suggestions).
Proof.
  induction suggestions as [|s rest IH]; simpl; [constructor|].
  unfold filterSuggestions in *. simpl.
  destruct (acceptable s) eqn:E.
  - apply Retained_keep; [now apply acceptable_spec | exact IH].
  - apply Retained_drop; [|exact IH].
    intros H. apply acceptable_spec in H. congruence.
Qed.

Lemma Retained_unique input output output' :
  Retained input output -> Retained input output' -> output = output'.
Proof.
  intros H. revert output'.
  induction H; intros output' H'; inversion H'; subst;
    try contradiction; try reflexivity; [f_equal|]; auto.
Qed.

End Filter.

(** ** The summary of the analyze command *)

Section SummaryFacts.

Import Js Analyze.
Local Open Scope Z_scope.

Lemma fold_left_total (figure : AnalysisResult -> Z) results : forall start,
  fold_left (fun sum r => sum + figure r) results start
  = start + total figure results.
Proof.
  induction results as [|r rest IH]; intros start; simpl; [lia|].
  rewrite IH. lia.
Qed.

Lemma fold_left_sizes {A} (part : AnalysisResult -> list A) results :
  forall start,
  fold_left (fun total result =>
               if size (part result) >? 0 then total + size (part result)
               else total) results start
  = start + total (fun r => size (part r)) results.
Proof.
  induction results as [|r rest IH]; intros start; simpl; [lia|].
  rewrite IH.
  destruct (Z.gtb_spec (size (part r)) 0) as [Hpos|Hzero]; [lia|].
  unfold size in *. lia.
Qed.

Lemma divide_positive (a : Z) (n : Z) :
  0 < n ->
  exists q, divide (ofZ a) (ofZ n) = Finite q
            /\ (q * inject_Z n == inject_Z a)%Q.
Proof.
  intros Hn. unfold divide, ofZ.
  destruct (Qeq_bool (inject_Z n) 0) eqn:E.
  - apply Qeq_bool_iff in E. unfold Qeq in E. simpl in E. lia.
  - eexists. split; [reflexivity|].
    rewrite Qred_correct. field.
    intros H. unfold Qeq in H. simpl in H. lia.
Qed.

Lemma size_positive {A} (l : list A) : l <> [] -> 0 < size l.
Proof. destruct l; [congruence|]. unfold size. simpl. lia. Qed.

(** C4, as amended.  The summary reports the number of issues and the
    number of suggestions summed over all results, and, for a batch that is
    not empty, the arithmetic means of [complexity] and of
    [maintainabilityIndex] over all results, the placeholders of failed
    files included. *)
Theorem displayResults_totals_and_means (results : list AnalysisResult) :
  results <> [] ->
  issuesFound (displayResults results)
  = total (fun r => size (issues r)) results
  /\ suggestionsFound (displayResults results)
     = total (fun r => size (suggestions r)) results
  /\ (exists c,
        averageComplexity (displayResults results) = Finite c
        /\ (c * inject_Z (size results)
            == inject_Z (total (fun r => complexity (metrics r)) results))%Q)
  /\ (exists m,
        averageMaintainability (displayResults results) = Finite m
        /\ (m * inject_Z (size results)
            == inject_Z (total (fun r => maintainabilityIndex (metrics r))
                               results))%Q).
Proof.
  intros Hne. apply size_positive in Hne.
  unfold displayResults; simpl.
  rewrite !fold_left_sizes, !fold_left_total. simpl.
  repeat split; try reflexivity; now apply divide_positive.
Qed.

Lemma displayResults_totals_and_means_witness :
  issuesFound (displayResults [reviewed "a.ts" 4 80; neutralResult "b.ts"]) = 1
  /\ averageComplexity
       (displayResults [reviewed "a.ts" 4 80; neutralResult "b.ts"])
     = Finite 2.
Proof.
  destruct (@displayResults_totals_and_means
              [reviewed "a.ts" 4 80; neutralResult "b.ts"])
    as (Hi & _ & _ & _); [discriminate|].
  split; [exact Hi | reflexivity].
Defined.

(** The averages count the placeholder of a failed file: with one reviewed
    file of complexity 4 and one failed file, the summary shows 2, where the
    mean over the analyzed files is 4. *)
Lemma averages_include_failed_files :
  let results := [reviewed "a.ts" 4 80; neutralResult "b.ts"] in
  averageComplexity (displayResults results) = Finite 2
  /\ meanOverAnalyzed (fun r => complexity (metrics r)) results = Finite 4
  /\ averageMaintainability (displayResults results) = Finite 65
  /\ meanOverAnalyzed (fun r => maintainabilityIndex (metrics r)) results
     = Finite 80
  /\ averageComplexity (displayResults results)
     <> meanOverAnalyzed (fun r => complexity (metrics r)) results.
Proof. repeat split. discriminate. Qed.

(** C10. For an empty list of results both averages are the quotient of an
    empty sum by zero: the summary is produced, with counts 0 and with NaN
    for each average. *)
Theorem displayResults_empty_batch :
  displayResults []
  = {| filesAnalyzed := 0; issuesFound := 0; suggestionsFound := 0;
       averageComplexity := NaN; averageMaintainability := NaN |}
  /\ (forall (sum : Z) (q : Q),
        divide (ofZ sum) (ofZ (size (@nil AnalysisResult))) <> Finite q).
Proof.
  split; [reflexivity|].
  intros sum q. unfold divide, ofZ, size. simpl.
  destruct (Qeq_bool (inject_Z sum) 0);
    try destruct (Qle_bool 0 (inject_Z sum)); discriminate.
Qed.

End SummaryFacts.

(** ** The flow of the edit command *)

Section EditFlow.

Import Js Host Edit.

Lemma readOnly_readContext w contextFiles : forall contextContent,
  readOnly (readContext w contextFiles contextContent).
Proof.
  induction contextFiles as [|f rest IH]; intros acc; simpl.
  - apply readOnly_ret.
  - apply readOnly_bind; [|intros; apply IH].
    apply readOnly_tryCatch; [|intros; apply readOnly_ret].
    apply readOnly_bind; [apply readOnly_readFile | intros; apply readOnly_ret].
Qed.

Lemma readOnly_analyzeAndGenerateEdits w filePath content prompt contextFiles :
  readOnly (analyzeAndGenerateEdits w filePath content prompt contextFiles).
Proof.
  unfold analyzeAndGenerateEdits.
  destruct (configured w); cbn [negb]; [|apply readOnly_raise].
  apply readOnly_bind.
  - destruct contextFiles as [[|f rest]|];
      [apply readOnly_ret | apply readOnly_readContext | apply readOnly_ret].
  - intros contextContent.
    apply readOnly_tryCatch; [|intros; apply readOnly_ret].
    unfold askOracle. apply readOnly_bind; [apply readOnly_generate|].
    intros [text|]; [|apply readOnly_raise].
    destruct (String.eqb text ""); [apply readOnly_raise | apply readOnly_lift].
Qed.

Lemma append_not_self (s t : string) : (s ++ t)%string = s -> t = "".
Proof.
  induction s as [|c s IH]; simpl; intros H; [exact H|].
  injection H as H. now apply IH.
Qed.

Lemma backupPath_differs w filePath :
  String.eqb filePath (backupPath w filePath) = false.
Proof.
  apply String.eqb_neq. intros H. symmetry in H.
  apply append_not_self in H. discriminate.
Qed.

(** A run of the command stops before the backup, or starts with the
    access, the read and the backup, and leaves the backup in place. *)
Lemma handleEditCommand_shape w fs filePath prompt options :
  backup options <> Some false ->
  let run := handleEditCommand w filePath prompt options fs in
  (events run = [Access filePath] /\ result run = Exited 1)
  \/ (events run = [Access filePath; Read filePath]
      /\ exists e, result run = Raised e)
  \/ (exists content rest,
        contentOf filePath fs = Some content
        /\ events run
           = Access filePath :: Read filePath
               :: Write (backupPath w filePath) content :: rest
        /\ contentOf (backupPath w filePath) (files run) = Some content).
Proof.
  intros Hb. cbv zeta.
  unfold handleEditCommand.
  rewrite events_bind, result_bind, files_bind.
  cbn [access result files events].
  destruct (contentOf filePath fs) as [content|] eqn:Hc; cbn [negb].
  2:{ left. split; reflexivity. }
  rewrite events_bind, result_bind, files_bind.
  assert (Hrd : readFile w filePath fs
                = {| result := if readable w filePath then Returned content
                               else Raised (Error "EACCES");
                     files := fs; events := [Read filePath] |})
    by (unfold readFile; now rewrite Hc).
  rewrite !Hrd. clear Hrd. cbn [result files events].
  destruct (readable w filePath) eqn:Hr.
  2:{ right. left. split; [reflexivity | eexists; reflexivity]. }
  rewrite events_bind, result_bind, files_bind.
  replace (match backup options with
           | Some false => ret tt
           | _ => writeFile w (backupPath w filePath) content
           end) with (writeFile w (backupPath w filePath) content)
    by (destruct (backup options) as [[|]|]; congruence).
  assert (Hwr : writeFile w (backupPath w filePath) content fs
                = if writable w (backupPath w filePath)
                  then {| result := Returned tt;
                          files := (backupPath w filePath, content) :: fs;
                          events := [Write (backupPath w filePath) content] |}
                  else {| result := Raised (Error "EACCES"); files := fs;
                          events := [] |}) by reflexivity.
  rewrite !Hwr. clear Hwr.
  destruct (writable w (backupPath w filePath)) eqn:Hwb; cbn [result files events].
  2:{ right. left. split; [reflexivity | eexists; reflexivity]. }
  right. right. exists content. eexists. split; [reflexivity|].
  split; [cbn [app]; reflexivity|].
  match goal with
  | |- contentOf ?p (files (?m ?f)) = _ =>
      assert (Hk : keeps p m); [|rewrite Hk; simpl; now rewrite String.eqb_refl]
  end.
  apply keeps_bind.
  { apply keeps_readOnly, readOnly_analyzeAndGenerateEdits. }
  intros analysis.
  apply keeps_bind; [apply keeps_readOnly, readOnly_lift|].
  intros [|]; [apply keeps_readOnly, readOnly_ret|].
  destruct (decode analysis) as [a|]; [|apply keeps_readOnly, readOnly_ret].
  destruct (isTrue (dryRun options)); [apply keeps_readOnly, readOnly_ret|].
  apply keeps_bind.
  { destruct (isTrue (autoApply options));
      [apply keeps_readOnly, readOnly_ret | apply keeps_confirm]. }
  intros [|]; [|apply keeps_readOnly, readOnly_ret].
  apply keeps_bind;
    [apply keeps_writeFile, backupPath_differs|].
  intros _. apply keeps_bind; [apply keeps_saveSession|].
  intros _. apply keeps_readOnly, readOnly_ret.
Qed.

(** C9. Unless the backup option is explicitly [false], the content of the
    file is written to the backup path before the oracle is consulted,
    before the user is asked and before the file is written; every run that
    returns, whatever its ending (dry run, no suggestion left, changes
    cancelled or applied), has written the backup, which is still there at
    the end. *)
Theorem backup_comes_first w fs filePath prompt options :
  backup options <> Some false ->
  let run := handleEditCommand w filePath prompt options fs in
  (forall pre e post,
     events run = pre ++ e :: post -> afterBackup filePath e ->
     exists content,
       contentOf filePath fs = Some content
       /\ In (Write (backupPath w filePath) content) pre)
  /\ (forall how, result run = Returned how ->
        exists content,
          contentOf filePath fs = Some content
          /\ In (Write (backupPath w filePath) content) (events run)
          /\ contentOf (backupPath w filePath) (files run) = Some content).
Proof.
  intros Hb run.
  destruct (@handleEditCommand_shape w fs filePath prompt options Hb)
    as [[Hev Hres]|[[Hev [err Hres]]|(content & rest & Hc & Hev & Hfiles)]];
    fold run in Hev; try fold run in Hres; try fold run in Hfiles.
  - split.
    + intros pre e post Hsplit Ha. rewrite Hev in Hsplit.
      destruct pre as [|x [|y pre]]; try discriminate.
      injection Hsplit as <- _. contradiction.
    + intros how Hret. congruence.
  - split.
    + intros pre e post Hsplit Ha. rewrite Hev in Hsplit.
      destruct pre as [|x [|y [|z pre]]]; try discriminate;
        injection Hsplit; intros; subst; contradiction.
    + intros how Hret. congruence.
  - split.
    + intros pre e post Hsplit Ha. rewrite Hev in Hsplit.
      exists content. split; [exact Hc|].
      destruct pre as [|x [|y [|z pre]]].
      * injection Hsplit as <- _. contradiction.
      * injection Hsplit as _ <- _. contradiction.
      * injection Hsplit as _ _ <- _. simpl in Ha.
        pose proof (backupPath_differs w filePath) as Hd.
        rewrite Ha, String.eqb_refl in Hd. discriminate.
      * injection Hsplit as _ _ <- _. simpl. auto.
    + intros how _. exists content. split; [exact Hc|].
      split; [|exact Hfiles]. rewrite Hev. simpl. auto.
Qed.

Lemma backup_comes_first_witness :
  exists content,
    contentOf "a.ts" sampleFiles = Some content
    /\ In (Write "a.ts.backup.1700000000000" content)
         (events (handleEditCommand (oracleSays sampleResponse) "a.ts"
                    "rename" dryRunOptions sampleFiles))
    /\ contentOf "a.ts.backup.1700000000000"
         (files (handleEditCommand (oracleSays sampleResponse) "a.ts"
                   "rename" dryRunOptions sampleFiles))
       = Some content.
Proof.
  apply (@backup_comes_first (oracleSays sampleResponse) sampleFiles "a.ts"
           "rename" dryRunOptions) with (how := DryRunMode).
  - simpl. discriminate.
  - vm_compute. reflexivity.
Defined.

(** The endings named in the claim, on the sample file. *)
Example dry_run_trace :
  let run := handleEditCommand (oracleSays sampleResponse) "a.ts" "rename"
               dryRunOptions sampleFiles in
  result run = Returned DryRunMode
  /\ map kind (events run) = ["access"; "read"; "write"; "generate"]
  /\ contentOf "a.ts" (files run) = contentOf "a.ts" sampleFiles.
Proof. vm_compute. repeat split. Qed.

Example no_suggestion_trace :
  let run := handleEditCommand (oracleSays "no idea") "a.ts" "rename"
               defaultOptions sampleFiles in
  result run = Returned NoChangesSuggested
  /\ map kind (events run) = ["access"; "read"; "write"; "generate"].
Proof. vm_compute. repeat split. Qed.

Example low_confidence_trace :
  let run := handleEditCommand (oracleSays lowConfidenceResponse) "a.ts"
               "rename" autoApplyOptions sampleFiles in
  result run = Returned NoChangesSuggested
  /\ map kind (events run) = ["access"; "read"; "write"; "generate"]
  /\ contentOf "a.ts" (files run) = contentOf "a.ts" sampleFiles.
Proof. vm_compute. repeat split. Qed.

Example rejected_trace :
  let run := handleEditCommand (oracleSays sampleResponse) "a.ts" "rename"
               defaultOptions sampleFiles in
  result run = Returned ChangesCancelled
  /\ map kind (events run)
     = ["access"; "read"; "write"; "generate"; "confirm"]
  /\ contentOf "a.ts" (files run) = contentOf "a.ts" sampleFiles.
Proof. vm_compute. repeat split. Qed.

Example applied_trace :
  let run := handleEditCommand (oracleSays sampleResponse) "a.ts" "rename"
               autoApplyOptions sampleFiles in
  result run = Returned ChangesApplied
  /\ map kind (events run)
     = ["access"; "read"; "write"; "generate"; "write"; "session"]
  /\ contentOf "a.ts" (files run)
     = Some (Js.join Edit.nl ["a"; "B2"; "c"]).
Proof. vm_compute. repeat split. Qed.

End EditFlow.

(** ** The batch of the analyze command *)

Section Batch.

Import Js Host Analyze.

Lemma neutralAnalysis_decodes filePath :
  decodeResult (neutralAnalysis filePath) = Some (neutralResult filePath).
Proof. reflexivity. Qed.

(** A file that can be read gets a result, whatever the oracle does. *)
Lemma analyzeFile_readable w fs filePath fullAnalysis :
  configured w = true -> canRead w fs filePath ->
  exists r,
    result (analyzeFile w filePath fullAnalysis fs) = Returned r
    /\ files (analyzeFile w filePath fullAnalysis fs) = fs
    /\ resultOf w fs fullAnalysis filePath r.
Proof.
  intros Hcfg [[content Hc] Hr].
  unfold analyzeFile.
  rewrite result_bind, files_bind.
  assert (Hrd : readFile w filePath fs
                = {| result := Returned content; files := fs;
                     events := [Read filePath] |})
    by (unfold readFile; now rewrite Hc, Hr).
  rewrite !Hrd. cbn [result files]. rewrite Hcfg. cbn [negb].
  unfold tryCatch, generate, emit, Host.bind, lift, resultOf, requestFor,
    oracleFails, oracleAnswers.
  cbn [result files events].
  destruct (generateContent w
              (createAnalysisPrompt content (extname w filePath) fullAnalysis))
    as [[text|]|e] eqn:Hg; cbn [result files events ret raise].
  - destruct (String.eqb_spec text "") as [->|Hne]; cbn [result files events ret raise].
    + eexists. split; [reflexivity|]. split; [reflexivity|].
      exists content. split; [exact Hc|]. rewrite Hg. split; [reflexivity|].
      intros text [Heq Hn]. congruence.
    + eexists. split; [reflexivity|]. split; [reflexivity|].
      exists content. split; [exact Hc|]. rewrite Hg. split; [intros; contradiction|].
      intros text' [Heq _]. congruence.
  - eexists. split; [reflexivity|]. split; [reflexivity|].
    exists content. split; [exact Hc|]. rewrite Hg. split; [reflexivity|].
    intros text [Heq _]. discriminate.
  - eexists. split; [reflexivity|]. split; [reflexivity|].
    exists content. split; [exact Hc|]. rewrite Hg. split; [reflexivity|].
    intros text [Heq _]. discriminate.
Qed.

Lemma analyzeEach_readable w fs fullAnalysis batch : forall done,
  configured w = true -> Forall (canRead w fs) batch ->
  exists results,
    result (analyzeEach w batch fullAnalysis done fs)
    = Returned (done ++ results)
    /\ Forall2 (resultOf w fs fullAnalysis) batch results.
Proof.
  induction batch as [|f rest IH]; intros done Hcfg Hall; simpl.
  - exists []. rewrite app_nil_r. split; [reflexivity | constructor].
  - inversion Hall as [|? ? Hf Hrest]; subst.
    destruct (@analyzeFile_readable w fs f fullAnalysis Hcfg Hf)
      as (r & Hres & Hfiles & Hr).
    rewrite result_bind, Hres, Hfiles.
    destruct (IH (done ++ [r]) Hcfg Hrest) as (results & Hres' & Hall').
    exists (r :: results). rewrite Hres', <- app_assoc. simpl.
    split; [reflexivity | now constructor].
Qed.

(** X27.  When the generator is configured and every file of the batch
    can be read, [analyzeCodebase] returns one result for each file, in
    order; a file on which the oracle fails gets the neutral result with no
    issue and no suggestion, and the other files get their parsed
    responses. *)
Theorem analyzeCodebase_contains_oracle_failures
  (w : World) (fs : Files) (target : string) (fullAnalysis : bool)
  (batch : list string) :
  configured w = true ->
  batchOf w target batch ->
  Forall (canRead w fs) batch ->
  exists results,
    result (analyzeCodebase w target fullAnalysis fs) = Returned results
    /\ Forall2 (resultOf w fs fullAnalysis) batch results.
Proof.
  intros Hcfg Hbatch Hall. unfold analyzeCodebase.
  rewrite result_bind.
  assert (Hfiles :
            exists single,
              isFile w target = Normal single
              /\ (if single then ret [target] else lift (getCodeFiles w target))
                 = ret batch).
  { destruct Hbatch as [[Hfile ->]|[Hdir Hbatch]].
    - exists true. split; [exact Hfile | reflexivity].
    - exists false. split; [exact Hdir | now rewrite Hbatch]. }
  destruct Hfiles as (single & Hsingle & Hlist).
  rewrite Hsingle. cbn [lift ret result files].
  rewrite result_bind, Hlist. cbn [ret result files].
  destruct (@analyzeEach_readable w fs fullAnalysis batch [] Hcfg Hall)
    as (results & Hres & Hall').
  exists results. now split.
Qed.

Lemma analyzeCodebase_contains_oracle_failures_witness :
  exists results,
    result (analyzeCodebase (batchWorld "none") "src" false threeFiles)
    = Returned results
    /\ Forall2 (resultOf (batchWorld "none") threeFiles false)
         ["a.ts"; "b.ts"; "c.ts"] results.
Proof.
  apply analyzeCodebase_contains_oracle_failures.
  - reflexivity.
  - right. split; reflexivity.
  - repeat constructor; simpl; eauto.
Defined.

(** With the oracle failing on the third file, the batch is complete and
    the third result is the neutral one. *)
Example oracle_failure_is_contained :
  match result (analyzeCodebase (batchWorld "none") "src" false threeFiles) with
  | Returned [a; b; c] =>
      decodeResult a <> None /\ decodeResult b <> None
      /\ c = neutralAnalysis "c.ts"
  | _ => False
  end.
Proof. vm_compute. repeat split; discriminate. Qed.

(** C1.  A batch of three files of which the second cannot be read.
    The failure is not contained to that file: the error leaves
    [analyzeCodebase], no result is returned, not even that of the first
    file, and the third file is not analyzed. *)
Lemma read_failure_aborts_batch :
  let run := analyzeCodebase (batchWorld "b.ts") "src" false threeFiles in
  result run = Raised (Error "EACCES")
  /\ map kind (events run) = ["read"; "generate"; "read"]
  /\ ~ In (Read "c.ts") (events run).
Proof.
  vm_compute. repeat split. intros [H|[H|[H|[]]]]; discriminate.
Qed.

End Batch.

(** ** The parser of the edit command *)

Section EditParser.

Import Js Host Edit.
Local Open Scope Z_scope.

Lemma lookup_setMember_same key v members :
  lookup key (setMember key v members) = Some v.
Proof.
  induction members as [|[k old] rest IH]; simpl.
  - now rewrite String.eqb_refl.
  - destruct (String.eqb k key) eqn:E; simpl; rewrite E; [reflexivity | exact IH].
Qed.

Lemma lookup_setMember_other key other v members :
  String.eqb key other = false ->
  lookup other (setMember key v members) = lookup other members.
Proof.
  intros Hne. induction members as [|[k old] rest IH]; simpl.
  - now rewrite Hne.
  - destruct (String.eqb k key) eqn:E; simpl.
    + apply String.eqb_eq in E. subst k. now rewrite Hne.
    + destruct (String.eqb k other); [reflexivity | exact IH].
Qed.

(** An integer read from a number compares as the number does. *)
Lemma asInteger_le q c n :
  asInteger q = Some c -> Qle_bool (inject_Z n) q = (n <=? c).
Proof.
  unfold asInteger. destruct q as [a d]. simpl.
  destruct (Z.eqb_spec (a mod Z.pos d) 0) as [Hmod|]; [|discriminate].
  intros H. injection H as <-.
  unfold Qle_bool. simpl.
  assert (Ha : a = Z.pos d * (a / Z.pos d)) by (apply Z_div_exact_full_2; lia).
  apply eq_true_iff_eq. rewrite !Z.leb_le. nia.
Qed.

Lemma decodeAll_length {A} (f : value -> option A) elements : forall l,
  decodeAll f elements = Some l -> length l = length elements.
Proof.
  induction elements as [|x rest IH]; simpl; intros l H.
  - injection H as <-. reflexivity.
  - destruct (f x); [|discriminate].
    destruct (decodeAll f rest); [|discriminate].
    injection H as <-. simpl. f_equal. now apply IH.
Qed.

Lemma ge_integer q c n :
  asInteger q = Some c -> ge (Num q) n = Normal (c >=? n).
Proof.
  intros H. unfold ge, toNumber. simpl.
  rewrite (@asInteger_le q c n H). now rewrite Z.geb_leb.
Qed.

Lemma positive_length (n : nat) :
  negb (Qle_bool (ofNat n) (inject_Z 0)) = (0 <? Z.of_nat n).
Proof.
  unfold ofNat, Qle_bool. simpl. rewrite Z.mul_1_r.
  destruct (Z.leb_spec (Z.of_nat n) 0), (Z.ltb_spec 0 (Z.of_nat n));
    simpl; try reflexivity; lia.
Qed.

Lemma gt_length (n : nat) : gt (Num (ofNat n)) 0 = Normal (0 <? Z.of_nat n).
Proof. unfold gt, toNumber. simpl. now rewrite positive_length. Qed.

(** On a value that is an [EditSuggestion], the callback of the filter is
    the test [acceptable]. *)
Lemma keepSuggestion_decoded x s :
  decodeSuggestion x = Some s -> keepSuggestion x = Normal (acceptable s).
Proof.
  destruct x as [| | | | | |m]; try discriminate. unfold decodeSuggestion, field.
  destruct (lookup "originalLines" m) as [[| | | | |o|]|] eqn:Ho; try discriminate.
  simpl asArray.
  destruct (decodeAll asString o) as [ol|] eqn:Hol; [|discriminate].
  destruct (lookup "suggestedLines" m) as [[| | | | |g|]|] eqn:Hg;
    try discriminate.
  simpl asArray.
  destruct (decodeAll asString g) as [gl|] eqn:Hgl; [|discriminate].
  destruct (lookup "startLine" m) as [a|]; [|discriminate].
  destruct (asNumber a); [|discriminate].
  destruct (lookup "endLine" m) as [b|]; [|discriminate].
  destruct (asNumber b); [|discriminate].
  destruct (lookup "reasoning" m) as [r|]; [|discriminate].
  destruct (asString r); [|discriminate].
  destruct (lookup "confidence" m) as [[| | |q| | |]|] eqn:Hc; try discriminate.
  simpl asNumber.
  destruct (asInteger q) as [c|] eqn:Hq; [|discriminate].
  intros H. injection H as <-.
  unfold keepSuggestion, acceptable. simpl.
  rewrite Hc, Ho, Hg. simpl.
  rewrite (@asInteger_le q c 70 Hq), positive_length, gt_length.
  rewrite (@decodeAll_length _ _ _ _ Hol), (@decodeAll_length _ _ _ _ Hgl).
  rewrite Z.geb_leb.
  destruct (70 <=? c); simpl; [|reflexivity].
  destruct (0 <? Z.of_nat (length o)); reflexivity.
Qed.

Lemma filterArray_decoded elements : forall l,
  decodeAll decodeSuggestion elements = Some l ->
  exists kept,
    filterArray keepSuggestion elements = Normal kept
    /\ decodeAll decodeSuggestion kept = Some (filterSuggestions l).
Proof.
  induction elements as [|x rest IH]; simpl; intros l H.
  - injection H as <-. exists []. split; reflexivity.
  - destruct (decodeSuggestion x) as [s|] eqn:Hx; [|discriminate].
    destruct (decodeAll decodeSuggestion rest) as [more|] eqn:Hrest;
      [|discriminate].
    injection H as <-.
    destruct (IH more eq_refl) as (kept & Hk & Hd).
    rewrite (@keepSuggestion_decoded _ _ Hx), Hk. simpl.
    unfold filterSuggestions in *. simpl.
    destruct (acceptable s).
    + exists (x :: kept). split; [reflexivity|]. simpl. now rewrite Hx, Hd.
    + exists kept. split; [reflexivity | exact Hd].
Qed.

(** On a value that is a [FileAnalysis], the validation step filters the
    suggestions and keeps the rest. *)
Lemma validateSuggestions_decoded v a :
  decode v = Some a ->
  exists v', validateSuggestions v = Normal v'
             /\ decode v' = Some (validated a).
Proof.
  destruct v as [| | | | | |m]; try discriminate. unfold decode, field.
  destruct (lookup "language" m) as [l|] eqn:Hl; [|discriminate].
  destruct (asString l) as [ls|] eqn:Hls; [|discriminate].
  destruct (lookup "complexity" m) as [c|] eqn:Hc; [|discriminate].
  destruct (asNumber c) as [cz|] eqn:Hcz; [|discriminate].
  destruct (lookup "suggestions" m) as [[| | | | |els|]|] eqn:Hs;
    try discriminate.
  simpl asArray at 1.
  destruct (decodeAll decodeSuggestion els) as [sl|] eqn:Hsl; [|discriminate].
  destruct (lookup "risks" m) as [r|] eqn:Hr; [|discriminate].
  destruct (asArray asString r) as [rl|] eqn:Hrl; [|discriminate].
  destruct (lookup "dependencies" m) as [d|] eqn:Hd; [|discriminate].
  destruct (asArray asString d) as [dl|] eqn:Hdl; [|discriminate].
  intros H. injection H as <-.
  destruct (@filterArray_decoded _ _ Hsl) as (kept & Hk & Hkd).
  unfold validateSuggestions. simpl. rewrite Hs, Hk. simpl.
  eexists. split; [reflexivity|].
  unfold decode, field.
  rewrite lookup_setMember_same.
  rewrite !lookup_setMember_other by reflexivity.
  rewrite Hl, Hls, Hc, Hcz, Hr, Hrl, Hd, Hdl. simpl asArray. rewrite Hkd.
  reflexivity.
Qed.

Lemma JSON_parse_error text e : JSON_parse text = Throw e -> e = SyntaxError.
Proof.
  unfold JSON_parse.
  destruct (readValue _ _) as [[v rest]|]; [destruct (skipWs rest)|];
    congruence.
Qed.

(** One attempt: when [JSON.parse] rejects the cleaned text, the result is
    the minimal analysis. *)
Lemma analysisOfText_rejected language text e :
  JSON_parse (cleanResponse text) = Throw e ->
  analysisOfText language text = minimalAnalysis language.
Proof.
  intros H. unfold analysisOfText, parseAnalysis. now rewrite H.
Qed.

Lemma analysisOfText_decoded language text v a :
  JSON_parse (cleanResponse text) = Normal v -> decode v = Some a ->
  decode (analysisOfText language text) = Some (validated a).
Proof.
  intros Hp Hd. unfold analysisOfText, parseAnalysis. rewrite Hp. simpl.
  destruct (validateSuggestions_decoded _ Hd) as (v' & Hv & Hd').
  now rewrite Hv.
Qed.

(** The result is the minimal analysis, or the parsed value with its
    member [suggestions] replaced by an array of some of its elements. *)
Lemma analysisOfText_cases language text :
  analysisOfText language text = minimalAnalysis language
  \/ exists members elements kept,
       JSON_parse (cleanResponse text) = Normal (Obj members)
       /\ lookup "suggestions" members = Some (Arr elements)
       /\ filterArray keepSuggestion elements = Normal kept
       /\ analysisOfText language text
          = Obj (setMember "suggestions" (Arr kept) members).
Proof.
  unfold analysisOfText, parseAnalysis.
  destruct (JSON_parse (cleanResponse text)) as [v|e] eqn:Hp; simpl;
    [|now left].
  unfold validateSuggestions.
  destruct v as [| | | | | |members]; simpl; try (now left);
    try (destruct (String.eqb _ _); now left).
  destruct (lookup "suggestions" members) as [[| | | | |elements|]|] eqn:Hs;
    simpl; try (now left).
  destruct (filterArray keepSuggestion elements) as [kept|e] eqn:Hk; simpl;
    [|now left].
  right. exists members, elements, kept. auto.
Qed.

Lemma readContext_returns w contextFiles : forall contextContent fs,
  exists text, result (readContext w contextFiles contextContent fs)
               = Returned text.
Proof.
  induction contextFiles as [|f rest IH]; intros acc fs; simpl.
  - eexists. reflexivity.
  - rewrite result_bind.
    match goal with
    | |- context [result (tryCatch ?inner ?handler fs)] =>
        assert (Ht : exists t, result (tryCatch inner handler fs) = Returned t)
    end.
    { unfold tryCatch.
      match goal with
      | |- context [result (?inner fs)] =>
          destruct (result (inner fs)) as [t|e|n] eqn:E
      end; [eauto | eexists; reflexivity |].
      exfalso. rewrite result_bind in E. unfold readFile in E. simpl in E.
      destruct (contentOf f fs); [destruct (readable w f)|]; discriminate. }
    destruct Ht as [t Ht]. rewrite Ht. apply IH.
Qed.

(** With the generator configured, [analyzeAndGenerateEdits] returns, and
    what it returns is the minimal analysis or the analysis of the text of
    the oracle. *)
Lemma analyzeAndGenerateEdits_returns w fs filePath content prompt contextFiles :
  configured w = true ->
  let language := getLanguageFromExtension (extname w filePath) in
  exists request v,
    result (analyzeAndGenerateEdits w filePath content prompt contextFiles fs)
    = Returned v
    /\ match generateContent w request with
       | Normal (Some text) =>
           v = if String.eqb text "" then minimalAnalysis language
               else analysisOfText language text
       | _ => v = minimalAnalysis language
       end.
Proof.
  intros Hcfg language. unfold analyzeAndGenerateEdits. rewrite Hcfg.
  cbn [negb]. rewrite result_bind.
  set (ctx := match contextFiles with
              | Some (f :: rest) => readContext w (f :: rest) ""
              | _ => ret ""
              end).
  assert (Hctx : exists text, result (ctx fs) = Returned text).
  { subst ctx. destruct contextFiles as [[|f rest]|];
      try (eexists; reflexivity). apply readContext_returns. }
  destruct Hctx as [contextContent Hctx]. rewrite Hctx.
  fold language.
  set (request := {| Host.language := language; subject := filePath;
                     instruction := prompt; code := content;
                     extra := contextContent; full := false |}).
  exists request.
  unfold tryCatch, askOracle, generate, emit, Host.bind, lift.
  cbn [result files events].
  unfold analysisOfText.
  destruct (generateContent w request) as [[text|]|e];
    cbn [result files events ret raise].
  - destruct (String.eqb text ""); cbn [result files events ret raise].
    + eexists. split; reflexivity.
    + destruct (parseAnalysis text); cbn [result files events ret raise];
        eexists; split; reflexivity.
  - eexists. split; reflexivity.
  - eexists. split; reflexivity.
Qed.


(** *** Stripping the fences *)

Lemma removeMatches_pending matchAt (dropped rest : list ascii) :
  removeMatches matchAt (length dropped) (dropped ++ rest)
  = removeMatches matchAt 0 rest.
Proof.
  induction dropped as [|c l IH]; simpl; [reflexivity | exact IH].
Qed.

Lemma fenceAt_plain c rest :
  c <> backtick -> (c = LF -> hd LF rest <> backtick) ->
  fenceAt (c :: rest) = None.
Proof.
  intros Hc Hlf. unfold fenceAt.
  assert (E : Ascii.eqb backtick c = false).
  { apply Ascii.eqb_neq. congruence. }
  change (chars "```json") with (backtick :: chars "``json").
  change (chars "```") with (backtick :: chars "``").
  cbn [stripPrefix]. rewrite E.
  destruct (Ascii.eqb_spec LF c) as [<-|Hne]; [|reflexivity].
  destruct rest as [|d rest']; [reflexivity|].
  simpl in Hlf. specialize (Hlf eq_refl).
  assert (E' : Ascii.eqb backtick d = false).
  { apply Ascii.eqb_neq. congruence. }
  now rewrite E'.
Qed.

Lemma removeMatches_body body :
  ~ In backtick body ->
  removeMatches fenceAt 0 (body ++ LF :: chars "```") = body.
Proof.
  induction body as [|c rest IH]; intros Hno.
  - reflexivity.
  - simpl app. cbn [removeMatches].
    rewrite fenceAt_plain.
    + f_equal. apply IH. intros H. apply Hno. now right.
    + intros ->. apply Hno. now left.
    + intros _. destruct rest as [|d rest']; simpl.
      * discriminate.
      * intros ->. apply Hno. right. now left.
Qed.

Lemma chars_append s t : chars (s ++ t)%string = chars s ++ chars t.
Proof.
  induction s as [|c s IH]; simpl; [reflexivity|]. unfold chars in *. simpl.
  now rewrite IH.
Qed.

(** A response wrapped in a [json] fence is cleaned to its trimmed body. *)
Lemma cleanResponse_fenced body :
  ~ In backtick (chars body) ->
  cleanResponse ("```json" ++ nl ++ body ++ nl ++ "```")%string = trim body.
Proof.
  intros Hno. unfold cleanResponse. f_equal.
  rewrite !chars_append.
  change (chars "```json" ++ chars nl ++ chars body ++ chars nl ++ chars "```")
    with ((chars "```json" ++ [LF]) ++ chars body ++ LF :: chars "```").
  remember (chars body ++ LF :: chars "```") as tail.
  replace (removeMatches fenceAt 0 ((chars "```json" ++ [LF]) ++ tail))
    with (removeMatches fenceAt 0 tail)
    by (symmetry;
        apply (@removeMatches_pending fenceAt (chars "``json" ++ [LF]) tail)).
  subst tail. rewrite removeMatches_body by exact Hno.
  unfold chars. apply string_of_list_ascii_of_string.
Qed.

End EditParser.

(** ** The parser of the analyze command *)

Section AnalyzeParser.

Import Js Host Analyze.
Local Open Scope Z_scope.

Lemma fromFirst_some open cs tail :
  fromFirst open cs = Some tail ->
  exists pre rest, cs = pre ++ tail /\ ~ In open pre /\ tail = open :: rest.
Proof.
  induction cs as [|c cs IH]; simpl; [discriminate|].
  destruct (Ascii.eqb_spec c open) as [->|Hne].
  - intros H. injection H as <-. exists [], cs. auto.
  - intros H. destruct (IH H) as (pre & rest & -> & Hno & ->).
    exists (c :: pre), rest. repeat split; auto.
    intros [E|E]; [congruence | contradiction].
Qed.

Lemma fromFirst_none open cs : fromFirst open cs = None -> ~ In open cs.
Proof.
  induction cs as [|c cs IH]; simpl; [tauto|].
  destruct (Ascii.eqb_spec c open) as [->|Hne]; [discriminate|].
  intros H [E|E]; [congruence | now apply IH].
Qed.

Lemma upToLast_none close cs : upToLast close cs = None -> ~ In close cs.
Proof.
  induction cs as [|c cs IH]; simpl; [tauto|].
  destruct (upToLast close cs); [discriminate|].
  destruct (Ascii.eqb_spec c close) as [->|Hne]; [discriminate|].
  intros _ [E|E]; [congruence | now apply IH].
Qed.

Lemma upToLast_some close cs prefix :
  upToLast close cs = Some prefix ->
  exists body post,
    cs = prefix ++ post /\ ~ In close post /\ prefix = body ++ [close].
Proof.
  revert prefix. induction cs as [|c cs IH]; simpl; [discriminate|].
  intros prefix. destruct (upToLast close cs) as [p|] eqn:E.
  - intros H. injection H as <-.
    destruct (IH p eq_refl) as (body & post & -> & Hno & ->).
    exists (c :: body), post. auto.
  - destruct (Ascii.eqb_spec c close) as [->|Hne]; [|discriminate].
    intros H. injection H as <-.
    exists [], cs. repeat split. now apply upToLast_none.
Qed.

(** The text given to [JSON.parse] when the response has an opening brace
    with a closing brace after it: everything from the first opening brace
    to the last closing brace. *)
Lemma jsonMatch_some response span :
  jsonMatch response = Some span ->
  exists pre middle post,
    chars response = pre ++ chars span ++ post
    /\ chars span = "{"%char :: middle ++ ["}"%char]
    /\ ~ In "{"%char pre /\ ~ In "}"%char post.
Proof.
  unfold jsonMatch.
  destruct (fromFirst "{" (chars response)) as [tail|] eqn:Hf; [|discriminate].
  destruct (upToLast "}" tail) as [p|] eqn:Hu; [|discriminate].
  intros H. injection H as <-.
  destruct (fromFirst_some _ _ Hf) as (pre & rest & Hcs & Hpre & Htail).
  destruct (upToLast_some _ _ Hu) as (body & post & Htl & Hpost & Hp).
  unfold chars at 2 3. rewrite list_ascii_of_string_of_list_ascii.
  subst p. rewrite Htail in Htl.
  destruct body as [|b body]; simpl in Htl; [discriminate|].
  injection Htl as <- Hrest.
  exists pre, body, post. repeat split; auto.
  rewrite Hcs, Htail, Hrest. simpl. now rewrite <- app_assoc.
Qed.

(** Otherwise the whole response is given to [JSON.parse]. *)
Lemma jsonMatch_none response :
  jsonMatch response = None ->
  forall pre middle post,
    chars response <> pre ++ "{"%char :: middle ++ "}"%char :: post.
Proof.
  unfold jsonMatch. intros H pre middle post Heq.
  destruct (fromFirst "{" (chars response)) as [tail|] eqn:Hf.
  - destruct (upToLast "}" tail) as [p|] eqn:Hu; [discriminate|].
    apply upToLast_none in Hu.
    destruct (fromFirst_some _ _ Hf) as (pre' & rest & Hcs & Hpre' & ->).
    apply Hu. clear Hu H Hf.
    rewrite Heq in Hcs. clear Heq.
    revert pre' Hcs Hpre'. induction pre as [|c pre IH]; intros pre' Hcs Hno.
    + destruct pre' as [|c' pre'].
      * simpl in Hcs. injection Hcs as <-. right. apply in_or_app. right. now left.
      * simpl in Hcs. injection Hcs as <- _. exfalso. apply Hno. now left.
    + destruct pre' as [|c' pre'].
      * simpl in Hcs. injection Hcs as -> <-. right. apply in_or_app. right.
        simpl. right. apply in_or_app. right. now left.
      * simpl in Hcs. injection Hcs as <- Hcs. apply (IH pre' Hcs).
        intros Hin. apply Hno. now right.
  - apply fromFirst_none in Hf. apply Hf. rewrite Heq.
    apply in_or_app. right. now left.
Qed.

Lemma parseAnalysisResponse_rejected response filePath e :
  JSON_parse (jsonText response) = Throw e ->
  parseAnalysisResponse response filePath = basicAnalysis filePath.
Proof.
  intros H. unfold parseAnalysisResponse, readAnalysis.
  fold (jsonText response). now rewrite H.
Qed.

(** A parsed object is never replaced by the fallback: each missing or
    falsy member gets its default. *)
Lemma parseAnalysisResponse_object response filePath members :
  JSON_parse (jsonText response) = Normal (Obj members) ->
  parseAnalysisResponse response filePath
  = resultValue filePath (memberOr "issues" (Arr []) members)
      (memberOr "suggestions" (Arr []) members)
      (memberOr "metrics" defaultMetrics members).
Proof.
  intros H. unfold parseAnalysisResponse, readAnalysis.
  fold (jsonText response). rewrite H. reflexivity.
Qed.

(** Every result has the four members of an [AnalysisResult]. *)
Lemma parseAnalysisResponse_members response filePath :
  exists issues suggestions metrics,
    parseAnalysisResponse response filePath
    = resultValue filePath issues suggestions metrics.
Proof.
  unfold parseAnalysisResponse, readAnalysis.
  destruct (JSON_parse _) as [v|e]; simpl;
    [|unfold basicAnalysis; eauto].
  destruct v; simpl; unfold basicAnalysis; eauto.
Qed.

Lemma parseAnalysisResponse_null response filePath :
  JSON_parse (jsonText response) = Normal Null ->
  parseAnalysisResponse response filePath = basicAnalysis filePath.
Proof.
  intros H. unfold parseAnalysisResponse, readAnalysis.
  fold (jsonText response). now rewrite H.
Qed.

End AnalyzeParser.

(** ** What the parsers make of every text *)

Section ParserCases.

Import Js Host.

Lemma stripPrefix_app prefix : forall cs rest,
  stripPrefix prefix cs = Some rest <-> cs = prefix ++ rest.
Proof.
  induction prefix as [|p prefix IH]; intros cs rest; cbn [stripPrefix app].
  - split; intros H; [now injection H as -> | now subst].
  - destruct cs as [|c cs]; [split; discriminate|].
    destruct (Ascii.eqb_spec p c) as [->|Hne].
    + rewrite IH. split; intros H; [now subst | now injection H].
    + split; [discriminate|]. intros H. injection H as -> _. congruence.
Qed.

Lemma stripPrefix_none prefix cs :
  stripPrefix prefix cs = None <-> forall rest, cs <> prefix ++ rest.
Proof.
  split.
  - intros H rest E. apply stripPrefix_app in E. congruence.
  - intros H. destruct (stripPrefix prefix cs) as [rest|] eqn:E;
      [|reflexivity].
    apply stripPrefix_app in E. now apply H in E.
Qed.

(** The pattern matches a marker at the head of the text, with its
    length. *)
Lemma marker_fenceAt m rest :
  marker m rest -> Edit.fenceAt (m ++ rest) = Some (length m).
Proof.
  intros H. destruct H as [rest|rest Hhd|rest|rest Hjson].
  - cbn. reflexivity.
  - unfold Edit.fenceAt.
    rewrite (proj2 (stripPrefix_app (chars "```json") _ rest) eq_refl).
    destruct rest as [|c rest]; [reflexivity|].
    destruct (Ascii.eqb_spec c LF) as [->|Hne]; [|reflexivity].
    exfalso. now apply Hhd.
  - cbn. reflexivity.
  - unfold Edit.fenceAt.
    assert (H1 : stripPrefix (chars "```json") (chars "```" ++ rest) = None).
    { apply stripPrefix_none. intros tail E. cbn in E.
      injection E as E. now apply (Hjson tail). }
    rewrite H1. cbn. reflexivity.
Qed.

(** Where the pattern matches, there is a marker of that length; where
    it does not, there is none. *)
Lemma fenceAt_marker cs :
  match Edit.fenceAt cs with
  | Some n => exists m rest, marker m rest /\ cs = m ++ rest /\ length m = n
  | None => forall m rest, marker m rest -> cs <> m ++ rest
  end.
Proof.
  destruct (Edit.fenceAt cs) as [n|] eqn:E.
  - unfold Edit.fenceAt in E.
    destruct (stripPrefix (chars "```json") cs) as [tail|] eqn:H1.
    + apply stripPrefix_app in H1.
      destruct tail as [|c tail].
      * injection E as <-. exists (chars "```json"), [].
        split; [apply marker_json; discriminate | auto].
      * destruct (Ascii.eqb_spec c LF) as [->|Hne]; injection E as <-.
        -- exists (chars "```json" ++ [LF]), tail.
           split; [apply marker_json_line|]. split; [|reflexivity].
           rewrite H1. now rewrite <- app_assoc.
        -- exists (chars "```json"), (c :: tail).
           split; [|auto]. apply marker_json. cbn. congruence.
    + destruct (stripPrefix (LF :: chars "```") cs) as [tail|] eqn:H2.
      * apply stripPrefix_app in H2. injection E as <-.
        exists (LF :: chars "```"), tail. split; [apply marker_line | auto].
      * destruct (stripPrefix (chars "```") cs) as [tail|] eqn:H3;
          [|discriminate].
        apply stripPrefix_app in H3. injection E as <-.
        exists (chars "```"), tail. split; [|auto].
        apply marker_plain. intros rest Hr.
        rewrite stripPrefix_none in H1. apply (H1 rest).
        rewrite H3, Hr. reflexivity.
  - intros m rest Hm Hcs. subst cs.
    rewrite (marker_fenceAt Hm) in E. discriminate.
Qed.

Lemma marker_starts m rest : marker m rest -> exists c more, m = c :: more.
Proof. intros []; cbn; eauto. Qed.

(** The removal of the matches is the removal of the markers. *)
Lemma removeMatches_Unfenced cs out :
  Unfenced cs out -> removeMatches Edit.fenceAt 0 cs = out.
Proof.
  induction 1 as [|m rest out Hm _ IH|c rest out Hno _ IH].
  - reflexivity.
  - destruct (marker_starts Hm) as (c & more & ->).
    cbn [app removeMatches].
    change (c :: more ++ rest) with ((c :: more) ++ rest).
    rewrite (marker_fenceAt Hm). cbn [length].
    rewrite removeMatches_pending. exact IH.
  - cbn [removeMatches].
    pose proof (fenceAt_marker (c :: rest)) as H.
    destruct (Edit.fenceAt (c :: rest)) as [n|].
    + destruct H as (m & tail & Hm & Hcs & _). exfalso.
      exact (Hno m tail Hm Hcs).
    + now rewrite IH.
Qed.

Lemma Unfenced_removeMatches_upto n : forall cs,
  (length cs <= n)%nat -> Unfenced cs (removeMatches Edit.fenceAt 0 cs).
Proof.
  induction n as [|n IH]; intros cs Hlen.
  - destruct cs; [constructor | cbn in Hlen; lia].
  - destruct cs as [|c rest]; [constructor|].
    cbn [removeMatches].
    pose proof (fenceAt_marker (c :: rest)) as H.
    destruct (Edit.fenceAt (c :: rest)) as [k|].
    + destruct H as (m & tail & Hm & Hcs & Hk).
      destruct (marker_starts Hm) as (c' & more & ->).
      cbn [app] in Hcs. injection Hcs as <- ->.
      cbn [length] in Hk. subst k.
      rewrite removeMatches_pending.
      change (c :: more ++ tail) with ((c :: more) ++ tail).
      apply Unfenced_marker; [exact Hm|].
      apply IH. cbn [length] in Hlen. rewrite length_app in Hlen. lia.
    + apply Unfenced_keep; [exact H|]. apply IH. cbn in Hlen. lia.
Qed.

(** Every text has exactly one text without its markers, and that is
    what the edit parser trims and parses. *)
Lemma cleanResponse_Unfenced text :
  exists stripped,
    Unfenced (chars text) stripped
    /\ Edit.cleanResponse text = trim (string_of_list_ascii stripped).
Proof.
  exists (removeMatches Edit.fenceAt 0 (chars text)). split; [|reflexivity].
  now apply (@Unfenced_removeMatches_upto (length (chars text))).
Qed.

Lemma Unfenced_unique cs a b : Unfenced cs a -> Unfenced cs b -> a = b.
Proof.
  intros Ha Hb. apply removeMatches_Unfenced in Ha, Hb. congruence.
Qed.

Lemma analysisOfText_exact language text :
  analysisOfText language text
  = analysisOfValue language (JSON_parse (Edit.cleanResponse text)).
Proof.
  unfold analysisOfText, analysisOfValue, Edit.parseAnalysis.
  destruct (JSON_parse (Edit.cleanResponse text)) as [v|e]; cbn [Js.bind];
    [|reflexivity].
  unfold Edit.validateSuggestions.
  destruct v as [| | | | | |members]; cbn; try reflexivity.
  destruct (lookup "suggestions" members) as [[| | | | |elements|]|];
    cbn; try reflexivity.
  destruct (Edit.filterArray Edit.keepSuggestion elements); reflexivity.
Qed.

Lemma parseAnalysisResponse_exact response filePath :
  Analyze.parseAnalysisResponse response filePath
  = resultOfValue filePath (JSON_parse (jsonText response)).
Proof.
  unfold Analyze.parseAnalysisResponse, Analyze.readAnalysis, resultOfValue.
  fold (jsonText response).
  destruct (JSON_parse (jsonText response)) as [v|e]; cbn [Js.bind];
    [|reflexivity].
  destruct v; cbn; try reflexivity.
Qed.

Lemma memberless_not_basic filePath v :
  memberless v ->
  resultOfValue filePath (Normal v) <> Analyze.basicAnalysis filePath.
Proof. destruct v; cbn; try contradiction; intros _; discriminate. Qed.

Lemma marker_backtick m rest : marker m rest -> In backtick (firstn 2 m).
Proof. intros []; cbn; auto. Qed.

(** A text without a backtick has no marker: nothing is removed. *)
Lemma Unfenced_plain cs : ~ In backtick cs -> Unfenced cs cs.
Proof.
  induction cs as [|c rest IH]; intros Hno; [constructor|].
  apply Unfenced_keep.
  - intros m tail Hm E. apply Hno. rewrite E. apply in_or_app. left.
    pose proof (marker_backtick Hm) as H.
    rewrite <- (firstn_skipn 2 m). apply in_or_app. now left.
  - apply IH. intros H. apply Hno. now right.
Qed.

Lemma cleanResponse_plain text :
  ~ In backtick (chars text) -> Edit.cleanResponse text = trim text.
Proof.
  intros Hno. unfold Edit.cleanResponse.
  rewrite (@removeMatches_Unfenced _ _ (@Unfenced_plain _ Hno)).
  unfold chars. now rewrite string_of_list_ascii_of_string.
Qed.

Lemma analysisOfText_unvalidated language text v e :
  JSON_parse (Edit.cleanResponse text) = Normal v ->
  Edit.validateSuggestions v = Throw e ->
  analysisOfText language text = Edit.minimalAnalysis language.
Proof.
  intros Hp Hv. unfold analysisOfText, Edit.parseAnalysis.
  rewrite Hp. cbn [Js.bind]. now rewrite Hv.
Qed.

End ParserCases.

(** ** The two parsers *)

Section Parsers.

Import Js Host.



(** C6.  The oracle answers with an object that has suggestions and
    nothing else.  [analyzeAndGenerateEdits] returns it with the
    suggestions filtered: not the minimal analysis, and not a
    [FileAnalysis], so that reading [analysis.risks.length], as the command
    does next, throws.  The analyze parser, given an object without the
    members of a result, completes it with defaults into an
    [AnalysisResult]. *)
Lemma unshaped_analysis_is_returned :
  result (Edit.analyzeAndGenerateEdits (oracleSays suggestionsOnly) "a.ts"
            "let a" "rename" None sampleFiles)
  = Returned (analysisOfText "typescript" suggestionsOnly)
  /\ analysisOfText "typescript" suggestionsOnly
     <> Edit.minimalAnalysis "typescript"
  /\ ~ wellFormed (analysisOfText "typescript" suggestionsOnly)
  /\ (let* risks := get (analysisOfText "typescript" suggestionsOnly) "risks" in
      get risks "length") = Throw TypeError
  /\ Analyze.decodeResult (Analyze.parseAnalysisResponse "{}" "a.ts") <> None.
Proof.
  split; [vm_compute; reflexivity|].
  split; [vm_compute; discriminate|].
  split; [intros H; apply H; vm_compute; reflexivity|].
  split; [vm_compute; reflexivity | vm_compute; discriminate].
Qed.

(** X28.  Neither parser raises.  With the generator configured,
    [analyzeAndGenerateEdits] returns whatever the oracle does: the minimal
    analysis when the oracle fails or its text is not parsed, and
    otherwise what the parsed value gives: for an object whose member
    [suggestions] is an array that the filter goes through, the object
    with that member filtered and no check of the other members, for
    anything else the minimal analysis.  [parseAnalysisResponse] returns
    for every response an object with the members [file], [issues],
    [suggestions] and [metrics]: on rejected text, the basic analysis with
    one documentation suggestion at line 1 and metrics 5, 70, good,
    moderate. *)
Theorem parsers_never_raise :
  (forall w fs filePath content prompt contextFiles,
     configured w = true ->
     exists request v,
       result (Edit.analyzeAndGenerateEdits w filePath content prompt
                 contextFiles fs) = Returned v
       /\ match generateContent w request with
          | Normal (Some text) =>
              v = if String.eqb text ""
                  then Edit.minimalAnalysis
                         (Edit.getLanguageFromExtension (extname w filePath))
                  else analysisOfText
                         (Edit.getLanguageFromExtension (extname w filePath))
                         text
          | _ => v = Edit.minimalAnalysis
                       (Edit.getLanguageFromExtension (extname w filePath))
          end)
  /\ (forall language text,
        analysisOfText language text = Edit.minimalAnalysis language
        \/ exists members elements kept,
             JSON_parse (Edit.cleanResponse text) = Normal (Obj members)
             /\ lookup "suggestions" members = Some (Arr elements)
             /\ Edit.filterArray Edit.keepSuggestion elements = Normal kept
             /\ analysisOfText language text
                = Obj (setMember "suggestions" (Arr kept) members))
  /\ (forall language text,
        analysisOfText language text
        = analysisOfValue language (JSON_parse (Edit.cleanResponse text)))
  /\ (forall language text e,
        JSON_parse (Edit.cleanResponse text) = Throw e ->
        analysisOfText language text = Edit.minimalAnalysis language)
  /\ (forall language,
        Edit.decode (Edit.minimalAnalysis language)
        = Some {| Edit.language := language; Edit.complexity := 5;
                  Edit.suggestions := [];
                  Edit.risks :=
                    ["Analysis failed - manual review recommended"];
                  Edit.dependencies := [] |})
  /\ (forall response filePath,
        exists issues suggestions metrics,
          Analyze.parseAnalysisResponse response filePath
          = Analyze.resultValue filePath issues suggestions metrics)
  /\ (forall response filePath e,
        JSON_parse (jsonText response) = Throw e ->
        Analyze.parseAnalysisResponse response filePath
        = Analyze.basicAnalysis filePath)
  /\ (forall filePath,
        Analyze.decodeResult (Analyze.basicAnalysis filePath)
        = Some {| Analyze.file := filePath; Analyze.issues := [];
                  Analyze.suggestions :=
                    [{| Analyze.suggestionLine := 1;
                        Analyze.suggestionType :=
                          Analyze.SuggestionType.documentation;
                        Analyze.description :=
                          "Consider adding comprehensive documentation for this code";
                        Analyze.suggestedCode := None |}];
                  Analyze.metrics :=
                    {| Analyze.complexity := 5;
                       Analyze.maintainabilityIndex := 70;
                       Analyze.testCoverage := None;
                       Analyze.performance := Analyze.Performance.good;
                       Analyze.security := Analyze.Security.moderate |} |}).
Proof.
  split; [exact analyzeAndGenerateEdits_returns|].
  split; [exact analysisOfText_cases|].
  split; [exact analysisOfText_exact|].
  split; [exact analysisOfText_rejected|].
  split; [reflexivity|].
  split; [exact parseAnalysisResponse_members|].
  split; [exact parseAnalysisResponse_rejected|].
  reflexivity.
Qed.

End Parsers.

(** ** The applier and the numbering of the original file *)

Section Rewrite.

Import Edit.
Local Open Scope Z_scope.

Lemma rewriteFrom_app suggestions front : forall n back,
  rewriteFrom suggestions n (front ++ back)
  = rewriteFrom suggestions n front
      ++ rewriteFrom suggestions (n + Z.of_nat (length front)) back.
Proof.
  induction front as [|line front IH]; intros n back; simpl.
  - now rewrite Z.add_0_r.
  - rewrite IH, <- app_assoc. do 3 f_equal. lia.
Qed.

Lemma find_start_none suggestions n :
  Forall (fun s => startLine s <> n) suggestions ->
  find (fun s => startLine s =? n) suggestions = None.
Proof.
  induction 1 as [|s rest Hs _ IH]; simpl; [reflexivity|].
  destruct (Z.eqb_spec (startLine s) n); [contradiction | exact IH].
Qed.

Lemma covers_none suggestions n :
  Forall (fun s => n < startLine s \/ endLine s < n) suggestions ->
  existsb (fun s => (startLine s <=? n) && (n <=? endLine s)) suggestions
  = false.
Proof.
  induction 1 as [|s rest Hs _ IH]; simpl; [reflexivity|].
  rewrite IH, orb_false_r.
  apply andb_false_iff. rewrite Z.leb_gt, Z.leb_gt. lia.
Qed.

(** Lines that no suggestion addresses are written as they are. *)
Lemma rewriteFrom_untouched suggestions lines : forall n,
  Forall (fun s => endLine s < n
                   \/ n + Z.of_nat (length lines) <= startLine s)
         suggestions ->
  Forall (fun s => startLine s <= endLine s) suggestions ->
  rewriteFrom suggestions n lines = lines.
Proof.
  induction lines as [|line rest IH]; intros n Hout Hwo; [reflexivity|].
  cbn [rewriteFrom]. cbn [length] in Hout. unfold rewriteLine.
  rewrite find_start_none, covers_none.
  - simpl. f_equal. apply IH; [|exact Hwo].
    eapply Forall_impl; [|exact Hout]. cbv beta. intros s Hs. lia.
  - rewrite Forall_forall in *. intros s Hin.
    specialize (Hout s Hin). cbv beta in Hout. lia.
  - rewrite Forall_forall in *. intros s Hin.
    specialize (Hout s Hin). specialize (Hwo s Hin). cbv beta in Hout. lia.
Qed.

(** A suggestion that starts after the lines makes no difference to
    them. *)
Lemma rewriteFrom_later s suggestions lines : forall n,
  n + Z.of_nat (length lines) <= startLine s ->
  rewriteFrom (s :: suggestions) n lines = rewriteFrom suggestions n lines.
Proof.
  induction lines as [|line rest IH]; intros n Hn; [reflexivity|].
  cbn [rewriteFrom]. cbn [length] in Hn. rewrite IH by lia. f_equal.
  unfold rewriteLine. simpl.
  destruct (Z.eqb_spec (startLine s) n); [lia|].
  destruct (Z.leb_spec (startLine s) n); [lia|]. reflexivity.
Qed.

(** The lines of the range of [s], numbered from its start, are rewritten
    to the suggested lines. *)
Lemma rewriteFrom_range s suggestions : forall range n,
  Forall (fun t => endLine t < startLine s /\ startLine t <= endLine t)
         suggestions ->
  startLine s <= n -> n + Z.of_nat (length range) = endLine s + 1 ->
  rewriteFrom (s :: suggestions) n range
  = if n =? startLine s
    then match range with [] => [] | _ => suggestedLines s end
    else [].
Proof.
  induction range as [|line rest IH]; intros n Hlow Hn Hend.
  - simpl. now destruct (n =? startLine s).
  - cbn [rewriteFrom]. cbn [length] in Hend. rewrite (IH (n + 1) Hlow) by lia.
    destruct (Z.eqb_spec (n + 1) (startLine s)) as [E|_]; [lia|].
    rewrite app_nil_r. unfold rewriteLine. simpl.
    destruct (Z.eqb_spec (startLine s) n) as [E|Hne].
    + rewrite <- E, Z.eqb_refl. reflexivity.
    + destruct (Z.eqb_spec n (startLine s)) as [E|_]; [congruence|].
      rewrite find_start_none.
      * destruct (Z.leb_spec (startLine s) n); [|lia].
        destruct (Z.leb_spec n (endLine s)); [|lia]. reflexivity.
      * eapply Forall_impl; [|exact Hlow]. cbv beta. intros t Ht. lia.
Qed.


Lemma rewriteFrom_none lines : forall n, rewriteFrom [] n lines = lines.
Proof.
  induction lines as [|line rest IH]; intros n; simpl; [reflexivity|].
  now rewrite IH.
Qed.

Lemma lines_split (lines : list string) (a e : Z) :
  1 <= a -> a <= e -> e <= Z.of_nat (length lines) ->
  exists front range back,
    lines = front ++ range ++ back
    /\ front = firstn (Z.to_nat (a - 1)) lines
    /\ back = skipn (S (Z.to_nat (e - 1))) lines
    /\ Z.of_nat (length front) = a - 1
    /\ Z.of_nat (length range) = e - a + 1.
Proof.
  intros Ha Hae He.
  exists (firstn (Z.to_nat (a - 1)) lines),
         (firstn (Z.to_nat (e - a + 1)) (skipn (Z.to_nat (a - 1)) lines)),
         (skipn (S (Z.to_nat (e - 1))) lines).
  assert (Hf : length (firstn (Z.to_nat (a - 1)) lines) = Z.to_nat (a - 1)).
  { apply firstn_length_le. lia. }
  repeat split.
  - replace (S (Z.to_nat (e - 1)))
      with (Z.to_nat (e - a + 1) + Z.to_nat (a - 1))%nat by lia.
    rewrite <- skipn_skipn, firstn_skipn, firstn_skipn. reflexivity.
  - lia.
  - rewrite firstn_length_le; [lia|]. rewrite length_skipn. lia.
Qed.

(** Replacing the range of the suggestion with the highest start and then
    rewriting with the others is rewriting with all. *)
Lemma replaceRange_rewrites s rest lines :
  inBounds lines s ->
  Forall (fun t => endLine t < startLine s /\ startLine t <= endLine t) rest ->
  rewriteFrom rest 1 (replaceRange lines s) = rewriteFrom (s :: rest) 1 lines.
Proof.
  intros (Ha & Hae & He) Hrest.
  destruct (@lines_split lines (startLine s) (endLine s) Ha Hae He)
    as (front & range & back & Hlines & Hfront & Hback & Lf & Lr).
  unfold replaceRange. rewrite <- Hfront, <- Hback.
  rewrite Hlines.
  rewrite !rewriteFrom_app.
  rewrite rewriteFrom_later by lia.
  f_equal.
  replace (1 + Z.of_nat (length front)) with (startLine s) by lia.
  assert (Hends : forall n, startLine s <= n ->
                     Forall (fun t => endLine t < n
                                      \/ n + Z.of_nat (length back)
                                         <= startLine t) rest).
  { intros n Hn. eapply Forall_impl; [|exact Hrest]. cbv beta.
    intros t Ht. lia. }
  assert (Hwo : Forall (fun t => startLine t <= endLine t) rest).
  { eapply Forall_impl; [|exact Hrest]. cbv beta. intros t Ht. lia. }
  rewrite (@rewriteFrom_untouched rest (suggestedLines s)).
  2:{ eapply Forall_impl; [|exact Hrest]. cbv beta. intros t Ht. lia. }
  2:{ exact Hwo. }
  rewrite (@rewriteFrom_untouched rest back) by (auto; apply Hends; lia).
  rewrite (@rewriteFrom_range s rest range (startLine s) Hrest) by lia.
  rewrite Z.eqb_refl.
  destruct range as [|line range]; [simpl in Lr; lia|].
  f_equal. symmetry. apply rewriteFrom_untouched.
  - constructor; [left; lia | apply Hends; lia].
  - constructor; [lia | exact Hwo].
Qed.

Lemma replaceRange_length lines s :
  inBounds lines s ->
  Z.of_nat (length (replaceRange lines s))
  = Z.of_nat (length lines) - (endLine s - startLine s + 1)
    + Z.of_nat (length (suggestedLines s)).
Proof.
  intros (Ha & Hae & He). unfold replaceRange.
  rewrite !length_app, length_skipn, firstn_length_le by lia. lia.
Qed.

Lemma fold_applyOne_rewrites order : forall lines,
  StronglySorted below order -> Forall (inBounds lines) order ->
  fold_left applyOne order lines = rewriteFrom order 1 lines.
Proof.
  induction order as [|s rest IH]; intros lines Hs Hb; simpl.
  - now rewrite rewriteFrom_none.
  - inversion Hs as [|? ? Hs' Hbelow]; subst.
    inversion Hb as [|? ? Hbs Hbrest]; subst.
    assert (Hfits : fits lines s).
    { unfold fits. destruct Hbs as (? & ? & ?). lia. }
    rewrite (@applyOne_fits lines s Hfits).
    rewrite IH; [now apply replaceRange_rewrites | exact Hs'|].
    pose proof (@replaceRange_length lines s Hbs) as Hlen.
    rewrite Forall_forall in *. intros t Hin.
    specialize (Hbelow t Hin). specialize (Hbrest t Hin).
    destruct Hbs as (? & ? & ?). destruct Hbrest as (? & ? & ?).
    destruct Hbelow. unfold inBounds. lia.
Qed.


Lemma StronglySorted_refine {A} (R R' : A -> A -> Prop) l :
  StronglySorted R l ->
  (forall a b, In a l -> In b l -> R a b -> R' a b) ->
  StronglySorted R' l.
Proof.
  induction 1 as [|a l Hs IH Hall]; intros Himp; constructor.
  - apply IH. intros x y Hx Hy. apply Himp; now right.
  - rewrite Forall_forall in *. intros b Hb.
    apply Himp; [now left | now right | now apply Hall].
Qed.

Lemma nonOverlapping_In suggestions a b :
  nonOverlapping suggestions -> In a suggestions -> In b suggestions ->
  a = b \/ disjointRanges a b.
Proof.
  intros Hd Ha Hb.
  destruct (ForallOrdPairs_In Hd a b Ha Hb) as [E|[D|D]]; auto.
  right. unfold disjointRanges in *. tauto.
Qed.

(** In the order of application, every suggestion lies below the ones
    before it. *)
Lemma sortedSuggestions_below lines suggestions :
  Forall (inBounds lines) suggestions -> nonOverlapping suggestions ->
  StronglySorted below (sortedSuggestions suggestions).
Proof.
  intros Hb Hd.
  pose proof (@nonOverlapping_starts lines suggestions Hb Hd) as Hnd.
  assert (Hstrict : StronglySorted strictlyDescending
                      (sortedSuggestions suggestions)).
  { apply descending_strict; [apply sortedSuggestions_sorted|].
    eapply Permutation_NoDup; [|exact Hnd].
    apply Permutation_map. symmetry. apply sortedSuggestions_perm. }
  apply StronglySorted_refine with (R := strictlyDescending);
    [exact Hstrict|].
  intros a b Ha Hb' Hab.
  assert (Ha' : In a suggestions).
  { eapply Permutation_in; [apply sortedSuggestions_perm | exact Ha]. }
  assert (Hb'' : In b suggestions).
  { eapply Permutation_in; [apply sortedSuggestions_perm | exact Hb']. }
  rewrite Forall_forall in Hb.
  pose proof (Hb a Ha') as (? & ? & ?). pose proof (Hb b Hb'') as (? & ? & ?).
  unfold strictlyDescending in Hab. unfold below.
  destruct (@nonOverlapping_In suggestions a b Hd Ha' Hb'') as [->|D]; [lia|].
  unfold disjointRanges in D. lia.
Qed.

Lemma find_start_In suggestions n s :
  NoDup (map startLine suggestions) -> In s suggestions -> startLine s = n ->
  find (fun t => startLine t =? n) suggestions = Some s.
Proof.
  induction suggestions as [|t rest IH]; intros Hnd Hin Hn; [contradiction|].
  simpl in *. inversion Hnd as [|? ? Hnot Hnd']; subst.
  destruct Hin as [->|Hin].
  - now rewrite Z.eqb_refl.
  - destruct (Z.eqb_spec (startLine t) (startLine s)) as [E|_].
    + exfalso. apply Hnot. rewrite E. now apply in_map.
    + now apply IH.
Qed.

(** The single pass does not depend on the order of the list when no two
    suggestions start on the same line. *)
Lemma rewriteLine_permutation suggestions suggestions' n line :
  NoDup (map startLine suggestions) -> Permutation suggestions suggestions' ->
  rewriteLine suggestions n line = rewriteLine suggestions' n line.
Proof.
  intros Hnd Hp. unfold rewriteLine.
  assert (Hnd' : NoDup (map startLine suggestions')).
  { eapply Permutation_NoDup; [|exact Hnd]. now apply Permutation_map. }
  assert (Hex : existsb (fun s => (startLine s <=? n) && (n <=? endLine s))
                  suggestions
                = existsb (fun s => (startLine s <=? n) && (n <=? endLine s))
                    suggestions').
  { apply eq_true_iff_eq. rewrite !existsb_exists.
    split; intros (x & Hx & Hc); exists x; (split; [|exact Hc]).
    - eapply Permutation_in; [exact Hp | exact Hx].
    - eapply Permutation_in; [symmetry; exact Hp | exact Hx]. }
  destruct (find (fun s => startLine s =? n) suggestions) as [s|] eqn:E.
  - apply find_some in E. destruct E as [Hin Hs]. apply Z.eqb_eq in Hs.
    rewrite (@find_start_In suggestions' n s); auto.
    eapply Permutation_in; [exact Hp | exact Hin].
  - destruct (find (fun s => startLine s =? n) suggestions') as [s|] eqn:E'.
    + apply find_some in E'. destruct E' as [Hin Hs].
      assert (Hin' : In s suggestions).
      { eapply Permutation_in; [symmetry; exact Hp | exact Hin]. }
      apply (find_none _ _ E) in Hin'. cbv beta in Hin'. congruence.
    + now rewrite Hex.
Qed.

Lemma rewriteFrom_permutation suggestions suggestions' lines : forall n,
  NoDup (map startLine suggestions) -> Permutation suggestions suggestions' ->
  rewriteFrom suggestions n lines = rewriteFrom suggestions' n lines.
Proof.
  induction lines as [|line rest IH]; intros n Hnd Hp; simpl; [reflexivity|].
  rewrite (IH (n + 1) Hnd Hp). f_equal. now apply rewriteLine_permutation.
Qed.

(** X1. For suggestions valid for the file with pairwise disjoint ranges,
    [applyEdits] gives the lines that one pass over the original file
    gives: at the first line of a range the suggested lines, nothing for the
    other lines of a range, every other line as it is.  No suggestion is
    applied at a shifted place. *)
Theorem applyEdits_one_pass (lines : list string)
  (suggestions : list EditSuggestion) :
  Forall (inBounds lines) suggestions -> nonOverlapping suggestions ->
  applyEditsLines lines suggestions = rewriteFrom suggestions 1 lines.
Proof.
  intros Hb Hd. unfold applyEditsLines.
  rewrite fold_applyOne_rewrites.
  - symmetry. apply rewriteFrom_permutation.
    + eapply nonOverlapping_starts; eassumption.
    + symmetry. apply sortedSuggestions_perm.
  - eapply sortedSuggestions_below; eassumption.
  - eapply Permutation_Forall; [|exact Hb].
    symmetry. apply sortedSuggestions_perm.
Qed.

Lemma applyEdits_one_pass_witness :
  applyEditsLines sampleLines [replaceLine 2 "b" "B2"; replaceLine 4 "d" "D2"]
  = rewriteFrom [replaceLine 2 "b" "B2"; replaceLine 4 "d" "D2"] 1 sampleLines.
Proof.
  apply applyEdits_one_pass.
  - unfold inBounds, sampleLines, replaceLine; simpl.
    repeat (apply Forall_cons || apply Forall_nil); simpl; lia.
  - unfold nonOverlapping, disjointRanges, replaceLine.
    apply FOP_cons; [apply Forall_cons; [simpl; lia | apply Forall_nil]|].
    apply FOP_cons; [apply Forall_nil | apply FOP_nil].
Defined.

Lemma applyOne_malformed cur s : wellOrdered s = false -> applyOne cur s = cur.
Proof.
  intros H. apply applyOne_skip. unfold fits. unfold wellOrdered in H.
  apply andb_false_iff in H. rewrite !Z.leb_gt in H. lia.
Qed.

Lemma placeDesc_head s sorted :
  Forall (fun t => startLine t <= startLine s) sorted ->
  placeDesc s sorted = s :: sorted.
Proof.
  destruct 1 as [|t rest Ht _]; simpl; [reflexivity|].
  destruct (Z.ltb_spec (startLine s) (startLine t)); [lia | reflexivity].
Qed.

Lemma placeDesc_filter_keep (keep : EditSuggestion -> bool) s sorted :
  StronglySorted descending sorted -> keep s = true ->
  filter keep (placeDesc s sorted) = placeDesc s (filter keep sorted).
Proof.
  intros Hs Hk. induction Hs as [|t rest Hs IH Hall]; simpl.
  - now rewrite Hk.
  - destruct (Z.ltb_spec (startLine s) (startLine t)) as [Hlt|Hge].
    + simpl. destruct (keep t); [|exact IH].
      simpl. destruct (Z.ltb_spec (startLine s) (startLine t)); [|lia].
      now rewrite IH.
    + simpl. rewrite Hk.
      symmetry. apply placeDesc_head.
      destruct (keep t).
      * constructor; [lia|]. apply incl_Forall with (l1 := rest);
          [intros x Hx; apply filter_In in Hx; tauto|].
        eapply Forall_impl; [|exact Hall]. unfold descending. intros; lia.
      * apply incl_Forall with (l1 := rest);
          [intros x Hx; apply filter_In in Hx; tauto|].
        eapply Forall_impl; [|exact Hall]. unfold descending. intros; lia.
Qed.

Lemma placeDesc_filter_drop (keep : EditSuggestion -> bool) s sorted :
  keep s = false -> filter keep (placeDesc s sorted) = filter keep sorted.
Proof.
  intros Hk. induction sorted as [|t rest IH]; simpl.
  - now rewrite Hk.
  - destruct (startLine s <? startLine t); simpl.
    + now rewrite IH.
    + now rewrite Hk.
Qed.

(** Sorting and leaving suggestions out commute. *)
Lemma sortedSuggestions_filter (keep : EditSuggestion -> bool) suggestions :
  sortedSuggestions (filter keep suggestions)
  = filter keep (sortedSuggestions suggestions).
Proof.
  induction suggestions as [|s rest IH]; simpl; [reflexivity|].
  destruct (keep s) eqn:Hk.
  - simpl. rewrite IH. symmetry.
    apply placeDesc_filter_keep; [apply sortedSuggestions_sorted | exact Hk].
  - rewrite placeDesc_filter_drop by exact Hk. exact IH.
Qed.

Lemma fold_applyOne_filter order : forall cur,
  fold_left applyOne (filter wellOrdered order) cur
  = fold_left applyOne order cur.
Proof.
  induction order as [|s rest IH]; intros cur; simpl; [reflexivity|].
  destruct (wellOrdered s) eqn:Hw; simpl.
  - apply IH.
  - rewrite (@applyOne_malformed cur s Hw). apply IH.
Qed.

(** X2. A suggestion that starts before line 1 or ends before it starts is
    never applied and does not disturb the others: the result is the one
    for the list without it. *)
Theorem applyEdits_ignores_malformed (lines : list string)
  (suggestions : list EditSuggestion) :
  applyEdits lines suggestions
  = applyEdits lines (filter wellOrdered suggestions).
Proof.
  unfold applyEdits, applyEditsLines.
  now rewrite sortedSuggestions_filter, fold_applyOne_filter.
Qed.

(** *** Reading the written content back *)

Lemma split_oneLine s : oneLine s -> Js.split Js.LF s = [s].
Proof.
  unfold oneLine, Js.chars. induction s as [|c s IH]; simpl; intros H;
    [reflexivity|].
  destruct (Ascii.eqb_spec c Js.LF) as [->|Hne]; [tauto|].
  rewrite IH; [reflexivity | tauto].
Qed.

Lemma split_append_line s rest :
  oneLine s ->
  Js.split Js.LF (s ++ String Js.LF rest)%string = s :: Js.split Js.LF rest.
Proof.
  unfold oneLine, Js.chars. induction s as [|c s IH]; simpl; intros H.
  - reflexivity.
  - destruct (Ascii.eqb_spec c Js.LF) as [->|Hne]; [tauto|].
    rewrite IH; [reflexivity | tauto].
Qed.

(** Lines without line feeds, joined and split again, are the same lines. *)
Lemma split_join lines :
  lines <> [] -> Forall oneLine lines ->
  Js.split Js.LF (Js.join (String Js.LF "") lines) = lines.
Proof.
  induction lines as [|s rest IH]; intros Hne Hall; [congruence|].
  inversion Hall as [|? ? Hs Hrest]; subst.
  destruct rest as [|t rest].
  - simpl. now apply split_oneLine.
  - rewrite join_cons by discriminate.
    simpl append. rewrite split_append_line by exact Hs.
    f_equal. apply IH; [discriminate | exact Hrest].
Qed.

Lemma split_lines sep s : Forall (fun l => ~ In sep (Js.chars l)) (Js.split sep s).
Proof.
  unfold Js.chars. induction s as [|c s IH]; simpl.
  - constructor; [tauto | constructor].
  - destruct (Ascii.eqb_spec c sep) as [->|Hne].
    + constructor; [simpl; tauto | exact IH].
    + destruct (Js.split sep s) as [|piece pieces]; inversion IH; subst.
      * constructor; [simpl; tauto | constructor].
      * constructor; [|assumption]. simpl. tauto.
Qed.


Lemma Forall_firstn_part {A} (P : A -> Prop) n l :
  Forall P l -> Forall P (firstn n l).
Proof.
  intros H. rewrite <- (firstn_skipn n l) in H.
  now apply Forall_app in H.
Qed.

Lemma Forall_skipn_part {A} (P : A -> Prop) n l :
  Forall P l -> Forall P (skipn n l).
Proof.
  intros H. rewrite <- (firstn_skipn n l) in H.
  now apply Forall_app in H.
Qed.

Lemma applyOne_keeps_lines cur s :
  plainLines s -> Forall oneLine cur -> Forall oneLine (applyOne cur s).
Proof.
  intros Hall Hlines.
  destruct (fits_decidable cur s) as [Hf|Hn].
  - rewrite (@applyOne_fits cur s Hf). unfold replaceRange.
    rewrite !Forall_app. repeat split;
      [now apply Forall_firstn_part | exact Hall
      | now apply Forall_skipn_part].
  - now rewrite (@applyOne_skip cur s Hn).
Qed.

Lemma fold_applyOne_keeps_lines order : forall cur,
  Forall plainLines order -> Forall oneLine cur ->
  Forall oneLine (fold_left applyOne order cur).
Proof.
  induction order as [|s rest IH]; intros cur Hall Hcur; simpl; [exact Hcur|].
  inversion Hall; subst. apply IH; [assumption|].
  now apply applyOne_keeps_lines.
Qed.

(** X3. When no suggested line has a line feed inside, the content written
    splits at its line feeds into exactly the edited lines: what
    [applyEdits] returns for the lines of a file reads back as the line
    sequence it built.  The one exception is an edit that deletes every
    line: the content is then empty, and reads back as one empty line. *)
Theorem applyEdits_reads_back (content : string)
  (suggestions : list EditSuggestion) :
  Forall plainLines suggestions ->
  Js.split Js.LF (applyEdits (Js.split Js.LF content) suggestions)
  = readBack (applyEditsLines (Js.split Js.LF content) suggestions).
Proof.
  intros Hall. unfold applyEdits.
  assert (Hlines : Forall oneLine
                     (applyEditsLines (Js.split Js.LF content) suggestions)).
  { apply fold_applyOne_keeps_lines; [|apply split_lines].
    eapply Permutation_Forall; [|exact Hall].
    symmetry. apply sortedSuggestions_perm. }
  destruct (applyEditsLines (Js.split Js.LF content) suggestions)
    as [|l rest] eqn:E; [reflexivity|].
  cbn [readBack]. apply split_join; [discriminate | exact Hlines].
Qed.

Lemma applyEdits_reads_back_witness :
  Js.split Js.LF
    (applyEdits (Js.split Js.LF (Js.join Edit.nl sampleLines))
       [replaceLine 2 "b" "B2"; deleteLines 4 5])
  = readBack
      (applyEditsLines (Js.split Js.LF (Js.join Edit.nl sampleLines))
         [replaceLine 2 "b" "B2"; deleteLines 4 5]).
Proof.
  apply applyEdits_reads_back.
  apply Forall_cons; [|apply Forall_cons; [|apply Forall_nil]].
  - apply Forall_cons; [|apply Forall_nil].
    unfold oneLine. simpl. intros [H|[H|[]]]; discriminate.
  - apply Forall_nil.
Defined.

(** Deleting the only line of a file leaves an empty content, which reads
    back as one empty line where no line was built. *)
Example applyEdits_deletes_every_line :
  applyEditsLines (Js.split Js.LF "a") [deleteLines 1 1] = []
  /\ Js.split Js.LF (applyEdits (Js.split Js.LF "a") [deleteLines 1 1])
     = [EmptyString].
Proof. split; reflexivity. Qed.

End Rewrite.

(** ** Runs of the edit command, stage by stage *)

Section Stages.
Import Js Host Edit.

Lemma events_tryCatch {A} (m : M A) (handler : error -> M A) fs :
  events (tryCatch m handler fs)
  = events (m fs) ++ match result (m fs) with
                     | Raised e => events (handler e (files (m fs)))
                     | _ => []
                     end.
Proof.
  unfold tryCatch. destruct (result (m fs)) eqn:E; simpl;
    now rewrite ?app_nil_r.
Qed.

Lemma result_tryCatch {A} (m : M A) (handler : error -> M A) fs :
  result (tryCatch m handler fs)
  = match result (m fs) with
    | Raised e => result (handler e (files (m fs)))
    | r => r
    end.
Proof.
  unfold tryCatch. destruct (result (m fs)) eqn:E; simpl; auto.
Qed.

Lemma bind_returned {A B} (m : M A) (k : A -> M B) fs a fs' trace :
  m fs = {| result := Returned a; files := fs'; events := trace |} ->
  Host.bind m k fs
  = {| result := result (k a fs'); files := files (k a fs');
       events := trace ++ events (k a fs') |}.
Proof. intros H. unfold Host.bind. now rewrite H. Qed.

(** One turn of the loop over the context files: the file is read, and
    the turn returns whether or not the read succeeds. *)
Lemma readContext_turn w f acc fs :
  exists t,
    tryCatch
      (do contextFileContent <- readFile w f;
       ret (acc ++ nl ++ "--- Context: " ++ f ++ " ---" ++ nl
              ++ contextFileContent ++ nl)%string)
      (fun _ => ret acc) fs
    = {| result := Returned t; files := fs; events := [Read f] |}
    /\ (contentOf f fs = None \/ readable w f = false -> t = acc).
Proof.
  unfold tryCatch, Host.bind, readFile, ret. cbn [result files events].
  destruct (contentOf f fs) as [c|]; [destruct (readable w f)|];
    cbn [result files events app]; eexists; (split; [reflexivity|]).
  - intros [H|H]; discriminate.
  - intros _. reflexivity.
  - intros _. reflexivity.
Qed.

(** Every context file is read once, in order, and the loop returns and
    writes nothing. *)
Lemma readContext_run w contextFiles : forall contextContent fs,
  exists text,
    readContext w contextFiles contextContent fs
    = {| result := Returned text; files := fs;
         events := map Read contextFiles |}.
Proof.
  induction contextFiles as [|f rest IH]; intros acc fs.
  - eexists. reflexivity.
  - cbn [readContext map].
    destruct (readContext_turn w f acc fs) as (t & Ht & _).
    rewrite (@bind_returned _ _ _ _ _ _ _ _ Ht).
    destruct (IH t fs) as (text & Htext). rewrite Htext.
    eexists. reflexivity.
Qed.


Lemma context_run w contextFiles fs :
  exists text,
    match contextFiles with
    | Some (f :: rest) => readContext w (f :: rest) ""
    | _ => ret ""
    end fs
    = {| result := Returned text; files := fs;
         events := map Read (contextList contextFiles) |}.
Proof.
  destruct contextFiles as [[|f rest]|]; try (eexists; reflexivity).
  apply readContext_run.
Qed.

Lemma askOracle_run w request language fs :
  tryCatch (askOracle w request) (fun _ => ret (minimalAnalysis language)) fs
  = {| result := Returned (analysisFor language (generateContent w request));
       files := fs; events := [Generate request] |}.
Proof.
  unfold tryCatch, askOracle, generate, emit, Host.bind, lift, analysisFor,
    analysisOfText.
  cbn [result files events].
  destruct (generateContent w request) as [[text|]|e];
    cbn [result files events ret raise app]; try reflexivity.
  destruct (String.eqb text ""); cbn [result files events ret raise app];
    [reflexivity|].
  destruct (parseAnalysis text); reflexivity.
Qed.

(** The run of the analysis step with the generator configured. *)
Lemma analyzeAndGenerateEdits_configured
  (w : World) (fs : Files) (filePath content prompt : string)
  (contextFiles : option (list string)) :
  configured w = true ->
  exists request,
    analyzeAndGenerateEdits w filePath content prompt contextFiles fs
    = {| result :=
           Returned (analysisFor
                       (getLanguageFromExtension (extname w filePath))
                       (generateContent w request));
         files := fs;
         events := map Read (contextList contextFiles) ++ [Generate request] |}
    /\ Host.language request = getLanguageFromExtension (extname w filePath)
    /\ subject request = filePath /\ instruction request = prompt
    /\ Host.code request = content /\ full request = false.
Proof.
  intros Hcfg. unfold analyzeAndGenerateEdits. rewrite Hcfg. cbn [negb].
  destruct (context_run w contextFiles fs) as [text Hctx].
  rewrite (@bind_returned _ _ _ _ _ _ _ _ Hctx).
  eexists. rewrite askOracle_run. cbn [result files events].
  repeat split; reflexivity.
Qed.

(** Without the configuration the analysis step fails before it reads a
    context file or consults the oracle. *)
Lemma analyzeAndGenerateEdits_unconfigured w fs filePath content prompt
  contextFiles :
  configured w = false ->
  analyzeAndGenerateEdits w filePath content prompt contextFiles fs
  = {| result := Raised (Error "Content generator configuration not found");
       files := fs; events := [] |}.
Proof.
  intros H. unfold analyzeAndGenerateEdits. now rewrite H.
Qed.

(** X4. The analysis step writes nothing.  With the generator configured it
    reads each context file once, in order, consults the oracle once, after
    the reads, with the path, the content and the instruction it was given,
    and returns; without the configuration it fails before it reads a
    context file or consults the oracle. *)
Theorem analyzeAndGenerateEdits_run
  (w : World) (fs : Files) (filePath content prompt : string)
  (contextFiles : option (list string)) :
  let run := analyzeAndGenerateEdits w filePath content prompt contextFiles
               fs in
  files run = fs
  /\ if configured w then
       exists request,
         result run
         = Returned (analysisFor
                       (getLanguageFromExtension (extname w filePath))
                       (generateContent w request))
         /\ events run
            = map Read (contextList contextFiles) ++ [Generate request]
         /\ Host.language request
            = getLanguageFromExtension (extname w filePath)
         /\ subject request = filePath /\ instruction request = prompt
         /\ Host.code request = content /\ full request = false
     else
       result run
       = Raised (Error "Content generator configuration not found")
       /\ events run = [].
Proof.
  cbv zeta. destruct (configured w) eqn:Hcfg.
  - destruct (@analyzeAndGenerateEdits_configured w fs filePath content
                prompt contextFiles Hcfg) as (request & -> & Hfields).
    split; [reflexivity|]. exists request. cbn [result events]. auto.
  - rewrite analyzeAndGenerateEdits_unconfigured by exact Hcfg.
    repeat split.
Qed.

(** A context file that is missing or cannot be read is left out of the
    request. *)
Lemma readContext_skips w pre f post : forall acc fs,
  contentOf f fs = None \/ readable w f = false ->
  result (readContext w (pre ++ f :: post) acc fs)
  = result (readContext w (pre ++ post) acc fs).
Proof.
  induction pre as [|g pre IH]; intros acc fs Hf.
  - cbn [app readContext].
    destruct (readContext_turn w f acc fs) as (t & Ht & Hacc).
    rewrite (@bind_returned _ _ _ _ _ _ _ _ Ht). cbn [result].
    now rewrite (Hacc Hf).
  - cbn [app readContext].
    destruct (readContext_turn w g acc fs) as (t & Ht & _).
    rewrite !(@bind_returned _ _ _ _ _ _ _ _ Ht). cbn [result].
    now apply IH.
Qed.


Lemma context_readContext w (l : list string) :
  match l with
  | f :: rest => readContext w (f :: rest) ""
  | [] => ret ""
  end = readContext w l "".
Proof. now destruct l. Qed.

(** X5. A context file that is missing or cannot be read changes nothing in
    what the analysis step returns: the result is the one for the list
    without it. *)
Theorem unreadable_context_is_skipped
  (w : World) (fs : Files) (filePath content prompt : string)
  (pre post : list string) (f : string) :
  contentOf f fs = None \/ readable w f = false ->
  result (analyzeAndGenerateEdits w filePath content prompt
            (Some (pre ++ f :: post)) fs)
  = result (analyzeAndGenerateEdits w filePath content prompt
              (Some (pre ++ post)) fs).
Proof.
  intros Hf. unfold analyzeAndGenerateEdits.
  destruct (configured w); cbn [negb]; [|reflexivity].
  rewrite !context_readContext.
  pose proof (@readContext_skips w pre f post "" fs Hf) as Hskip.
  destruct (readContext_run w (pre ++ f :: post) "" fs) as [t Ht].
  destruct (readContext_run w (pre ++ post) "" fs) as [t' Ht'].
  rewrite Ht, Ht' in Hskip. cbn [result] in Hskip. injection Hskip as <-.
  rewrite (@bind_returned _ _ _ _ _ _ _ _ Ht),
    (@bind_returned _ _ _ _ _ _ _ _ Ht').
  rewrite !askOracle_run. reflexivity.
Qed.

Lemma unreadable_context_is_skipped_witness :
  result (analyzeAndGenerateEdits (oracleSays sampleResponse) "a.ts" "let a"
            "rename" (Some (["a.ts"] ++ "gone.ts" :: [])) sampleFiles)
  = result (analyzeAndGenerateEdits (oracleSays sampleResponse) "a.ts" "let a"
              "rename" (Some (["a.ts"] ++ [])) sampleFiles).
Proof.
  apply unreadable_context_is_skipped. left. reflexivity.
Defined.


Lemma handleEditCommand_unfold w filePath prompt options :
  handleEditCommand w filePath prompt options
  = (do found <- access filePath;
     if negb found then exit 1
     else
       do currentContent <- readFile w filePath;
       makeBackup w filePath options currentContent ;;
       do analysis <-
         analyzeAndGenerateEdits w filePath currentContent prompt
           (context options);
       afterAnalysis w filePath currentContent options analysis).
Proof. reflexivity. Qed.

(** A run of the command, stage by stage: the access, the read, the
    backup, the analysis, and what follows the analysis. *)
Lemma handleEditCommand_stages w fs filePath prompt options :
  let run := handleEditCommand w filePath prompt options fs in
  match contentOf filePath fs with
  | None => runIs run (Exited 1) fs [Access filePath]
  | Some content =>
      if readable w filePath then
        let b := makeBackup w filePath options content fs in
        match result b with
        | Returned _ =>
            let a := analyzeAndGenerateEdits w filePath content prompt
                       (context options) (files b) in
            match result a with
            | Returned analysis =>
                let t := afterAnalysis w filePath content options analysis
                           (files b) in
                runIs run (result t) (files t)
                  (Access filePath :: Read filePath
                     :: events b ++ events a ++ events t)
            | Raised e =>
                runIs run (Raised e) (files b)
                  (Access filePath :: Read filePath :: events b ++ events a)
            | Exited n =>
                runIs run (Exited n) (files b)
                  (Access filePath :: Read filePath :: events b ++ events a)
            end
        | Raised e =>
            runIs run (Raised e) (files b)
              (Access filePath :: Read filePath :: events b)
        | Exited n =>
            runIs run (Exited n) (files b)
              (Access filePath :: Read filePath :: events b)
        end
      else runIs run (Raised (Error "EACCES")) fs
             [Access filePath; Read filePath]
  end.
Proof.
  cbv zeta. rewrite handleEditCommand_unfold. unfold runIs.
  rewrite events_bind, result_bind, files_bind.
  cbn [access result files events].
  destruct (contentOf filePath fs) as [content|] eqn:Hc; cbn [negb].
  2:{ repeat split. }
  assert (Hrd : readFile w filePath fs
                = {| result := if readable w filePath then Returned content
                               else Raised (Error "EACCES");
                     files := fs; events := [Read filePath] |})
    by (unfold readFile; now rewrite Hc).
  rewrite events_bind, result_bind, files_bind.
  rewrite !Hrd. cbn [result files events].
  destruct (readable w filePath).
  2:{ repeat split. }
  rewrite events_bind, result_bind, files_bind.
  destruct (result (makeBackup w filePath options content fs)) as [[]|e|n];
    try (rewrite ?app_nil_r; repeat split; reflexivity).
  rewrite events_bind, result_bind, files_bind.
  pose proof (@readOnly_analyzeAndGenerateEdits w filePath content prompt
                (context options)
                (files (makeBackup w filePath options content fs))) as Hro.
  destruct (result (analyzeAndGenerateEdits w filePath content prompt
                      (context options)
                      (files (makeBackup w filePath options content fs))))
    as [analysis|e|n]; rewrite ?Hro, ?app_nil_r; repeat split; reflexivity.
Qed.


Lemma makeBackup_run w filePath options content fs :
  makeBackup w filePath options content fs
  = match backup options with
    | Some false => {| result := Returned tt; files := fs; events := [] |}
    | _ =>
        if writable w (backupPath w filePath)
        then {| result := Returned tt;
                files := (backupPath w filePath, content) :: fs;
                events := [Write (backupPath w filePath) content] |}
        else {| result := Raised (Error "EACCES"); files := fs;
                events := [] |}
    end.
Proof.
  unfold makeBackup, writeFile.
  destruct (backup options) as [[|]|]; reflexivity.
Qed.

Lemma afterAnalysis_run w filePath content options analysis fs :
  afterAnalysis w filePath content options analysis fs
  = match noSuggestions analysis with
    | Throw e => {| result := Raised e; files := fs; events := [] |}
    | Normal true =>
        {| result := Returned NoChangesSuggested; files := fs; events := [] |}
    | Normal false =>
        match decode analysis with
        | None => {| result := Returned (OutsideInterface analysis);
                     files := fs; events := [] |}
        | Some a =>
            if isTrue (dryRun options)
            then {| result := Returned DryRunMode; files := fs;
                    events := [] |}
            else if isTrue (autoApply options) || confirmProceed w
            then
              if writable w filePath
              then {| result := if sessionSaved w then Returned ChangesApplied
                                else Raised (Error "session");
                      files := (filePath, edited content a) :: fs;
                      events := asked options
                                  ++ [Write filePath (edited content a);
                                      SaveSession] |}
              else {| result := Raised (Error "EACCES"); files := fs;
                      events := asked options |}
            else {| result := Returned ChangesCancelled; files := fs;
                    events := asked options |}
        end
    end.
Proof.
  unfold afterAnalysis, asked, edited, confirm, saveSession, writeFile, emit,
    lift, Host.bind, ret, raise.
  destruct (noSuggestions analysis) as [[|]|e]; cbn [result files events];
    try reflexivity.
  destruct (decode analysis) as [a|]; [|reflexivity].
  destruct (isTrue (dryRun options)); [reflexivity|].
  destruct (isTrue (autoApply options)); cbn [result files events orb app].
  - destruct (writable w filePath); cbn [result files events app];
      [|reflexivity].
    destruct (sessionSaved w); reflexivity.
  - destruct (confirmProceed w); cbn [result files events app];
      [|reflexivity].
    destruct (writable w filePath); cbn [result files events app];
      [|reflexivity].
    destruct (sessionSaved w); reflexivity.
Qed.

Lemma analysis_events w fs filePath content prompt contextFiles :
  Forall analysisEvent
    (events (analyzeAndGenerateEdits w filePath content prompt contextFiles
               fs)).
Proof.
  destruct (configured w) eqn:Hcfg.
  - destruct (@analyzeAndGenerateEdits_configured w fs filePath content prompt
                contextFiles Hcfg) as (request & Hrun & _).
    rewrite Hrun. cbn [events]. apply Forall_app. split.
    + apply Forall_forall. intros e He. apply in_map_iff in He.
      destruct He as (p & <- & _). exact I.
    + repeat constructor.
  - rewrite analyzeAndGenerateEdits_unconfigured by exact Hcfg. constructor.
Qed.

(** *** The analysis that reaches the applier *)

Lemma filterArray_kept keep elements : forall kept,
  filterArray keep elements = Normal kept ->
  Forall (fun x => keep x = Normal true) kept
  /\ (forall x, In x kept -> In x elements).
Proof.
  induction elements as [|x rest IH]; simpl; intros kept H.
  - injection H as <-. split; [constructor | tauto].
  - destruct (keep x) as [k|] eqn:Hk; [|discriminate]. simpl in H.
    destruct (filterArray keep rest) as [more|]; [|discriminate].
    simpl in H. injection H as <-.
    destruct (IH more eq_refl) as [Hall Hin].
    destruct k.
    + split; [now constructor|]. intros y [->|Hy]; [now left | right; auto].
    + split; [exact Hall|]. intros y Hy. right. auto.
Qed.

Lemma decodeAll_Forall {A} (f : value -> option A) (P : A -> Prop) elements :
  forall l,
  decodeAll f elements = Some l ->
  Forall (fun x => forall a, f x = Some a -> P a) elements ->
  Forall P l.
Proof.
  induction elements as [|x rest IH]; simpl; intros l H Hall.
  - injection H as <-. constructor.
  - destruct (f x) as [a|] eqn:Hx; [|discriminate].
    destruct (decodeAll f rest) as [more|]; [|discriminate].
    injection H as <-. inversion Hall; subst.
    constructor; [auto | now apply IH].
Qed.

(** Every suggestion of an analysis read from the text of the oracle has
    passed the filter. *)
Lemma analysisOfText_accepted language text a :
  decode (analysisOfText language text) = Some a ->
  Forall accepted (suggestions a).
Proof.
  destruct (analysisOfText_cases language text)
    as [->|(members & elements & kept & _ & _ & Hk & ->)].
  - intros H. change (decode (minimalAnalysis language))
      with (Some {| language := language; complexity := 5; suggestions := [];
                    risks := ["Analysis failed - manual review recommended"];
                    dependencies := [] |}) in H.
    injection H as <-. constructor.
  - unfold decode, field. rewrite lookup_setMember_same.
    destruct (lookup "language" _) as [l|]; [|discriminate].
    destruct (asString l); [|discriminate].
    destruct (lookup "complexity" _) as [c|]; [|discriminate].
    destruct (asNumber c); [|discriminate].
    simpl asArray at 1.
    destruct (decodeAll decodeSuggestion kept) as [sl|] eqn:Hsl;
      [|discriminate].
    destruct (lookup "risks" _) as [r|]; [|discriminate].
    destruct (asArray asString r); [|discriminate].
    destruct (lookup "dependencies" _) as [d|]; [|discriminate].
    destruct (asArray asString d); [|discriminate].
    intros H. injection H as <-. cbn [suggestions].
    apply (@decodeAll_Forall _ decodeSuggestion accepted kept sl Hsl).
    destruct (@filterArray_kept keepSuggestion elements kept Hk) as [Hall _].
    eapply Forall_impl; [|exact Hall]. cbv beta.
    intros x Hx sg Hs. apply acceptable_spec.
    rewrite (@keepSuggestion_decoded x sg Hs) in Hx. congruence.
Qed.

Lemma analysisFor_accepted language answer a :
  decode (analysisFor language answer) = Some a ->
  Forall accepted (suggestions a).
Proof.
  assert (Hmin : decode (minimalAnalysis language) = Some a ->
                 Forall accepted (suggestions a)).
  { intros H. change (decode (minimalAnalysis language))
      with (Some {| language := language; complexity := 5; suggestions := [];
                    risks := ["Analysis failed - manual review recommended"];
                    dependencies := [] |}) in H.
    injection H as <-. constructor. }
  unfold analysisFor. destruct answer as [[text|]|e]; auto.
  destruct (String.eqb text ""); auto. apply analysisOfText_accepted.
Qed.

(** On an analysis of the declared shape, the test for no suggestion is
    the test for an empty list. *)
Lemma noSuggestions_decoded v a :
  decode v = Some a ->
  noSuggestions v = Normal match suggestions a with [] => true | _ => false end.
Proof.
  destruct v as [| | | | | |m]; try discriminate. unfold decode, field.
  destruct (lookup "language" m) as [l|]; [|discriminate].
  destruct (asString l); [|discriminate].
  destruct (lookup "complexity" m) as [c|]; [|discriminate].
  destruct (asNumber c); [|discriminate].
  destruct (lookup "suggestions" m) as [[| | | | |els|]|] eqn:Hs;
    try discriminate.
  simpl asArray at 1.
  destruct (decodeAll decodeSuggestion els) as [sl|] eqn:Hsl; [|discriminate].
  destruct (lookup "risks" m) as [r|]; [|discriminate].
  destruct (asArray asString r); [|discriminate].
  destruct (lookup "dependencies" m) as [d|]; [|discriminate].
  destruct (asArray asString d); [|discriminate].
  intros H. injection H as <-. cbn [suggestions].
  unfold noSuggestions. simpl. rewrite Hs. simpl.
  apply decodeAll_length in Hsl.
  destruct sl, els; try discriminate; reflexivity.
Qed.


(** *** What a run of the command does to the file *)

Lemma quiet_analysis filePath trace :
  Forall analysisEvent trace -> Forall (quiet filePath) trace.
Proof.
  intros H. eapply Forall_impl; [|exact H]. intros [] He; simpl in *; tauto.
Qed.

Lemma backupPath_other w filePath : backupPath w filePath <> filePath.
Proof.
  intros H. pose proof (backupPath_differs w filePath) as Hd.
  rewrite H, String.eqb_refl in Hd. discriminate.
Qed.

Lemma backupPath_isnt w filePath :
  String.eqb (backupPath w filePath) filePath = false.
Proof. apply String.eqb_neq. apply backupPath_other. Qed.

Ltac by_stages w fs filePath prompt options :=
  let Hst := fresh "Hst" in
  pose proof (@handleEditCommand_stages w fs filePath prompt options) as Hst;
  cbv zeta in Hst;
  pose proof (@analysis_events w) as Hae;
  pose proof (backupPath_isnt w filePath) as Hbp;
  pose proof (@backupPath_other w filePath) as Hbp';
  destruct (contentOf filePath fs) as [content|] eqn:Hc;
  [ destruct (readable w filePath) eqn:Hread;
    [ rewrite !makeBackup_run in Hst;
      destruct (backup options) as [[|]|] eqn:Hbackup;
      try destruct (writable w (backupPath w filePath)) eqn:Hwb;
      cbn [result files events] in Hst;
      try match type of Hst with
          | context [result (analyzeAndGenerateEdits ?w ?p ?c ?q ?x ?f)] =>
              specialize (Hae f p c q x);
              let Ha := fresh "Ha" in
              destruct (result (analyzeAndGenerateEdits w p c q x f))
                as [analysis|err|n] eqn:Ha
          end
    | ]
  | ];
  destruct Hst as (Hres & Hfiles & Hev).

(** X6. In a dry run the command asks nothing, records nothing and writes no
    file but the backup: the file has the content it had. *)
Theorem dry_run_leaves_file (w : World) (fs : Files)
  (filePath prompt : string) (options : Options) :
  dryRun options = Some true ->
  let run := handleEditCommand w filePath prompt options fs in
  Forall (quiet filePath) (events run)
  /\ contentOf filePath (files run) = contentOf filePath fs.
Proof.
  intros Hdry run. subst run.
  by_stages w fs filePath prompt options; rewrite Hev, Hfiles.
  all: rewrite ?afterAnalysis_run; unfold isTrue; rewrite ?Hdry.
  all: try (destruct (noSuggestions analysis) as [[|]|e];
            try destruct (decode analysis) as [a|]).
  all: cbn [result files events contentOf app]; rewrite ?Hbp.
  all: split; [|congruence].
  all: repeat first [ apply Forall_nil
                    | apply Forall_cons; [simpl; now auto|]
                    | apply Forall_app; split
                    | apply quiet_analysis; assumption ].
Qed.


Lemma dry_run_leaves_file_witness :
  Forall (quiet "a.ts")
    (events (handleEditCommand (oracleSays sampleResponse) "a.ts" "rename"
               dryRunOptions sampleFiles))
  /\ contentOf "a.ts"
       (files (handleEditCommand (oracleSays sampleResponse) "a.ts" "rename"
                 dryRunOptions sampleFiles))
     = contentOf "a.ts" sampleFiles.
Proof.
  apply (@dry_run_leaves_file (oracleSays sampleResponse) sampleFiles "a.ts"
           "rename" dryRunOptions).
  reflexivity.
Defined.

Lemma analysisEvent_not_write trace path c :
  Forall analysisEvent trace -> ~ In (Write path c) trace.
Proof.
  intros H Hin. rewrite Forall_forall in H. exact (H _ Hin).
Qed.

Lemma analysisEvent_not_confirm trace :
  Forall analysisEvent trace -> ~ In Confirm trace.
Proof.
  intros H Hin. rewrite Forall_forall in H. exact (H _ Hin).
Qed.

(** A write to the file comes from the stage after the analysis. *)
Lemma write_after_analysis w fs filePath prompt options c :
  let run := handleEditCommand w filePath prompt options fs in
  In (Write filePath c) (events run) ->
  exists content analysis fs1,
    contentOf filePath fs = Some content
    /\ backedUp w filePath content fs fs1
    /\ result (analyzeAndGenerateEdits w filePath content prompt
                 (context options) fs1) = Returned analysis
    /\ In (Write filePath c)
         (events (afterAnalysis w filePath content options analysis fs1))
    /\ files run = files (afterAnalysis w filePath content options analysis fs1)
    /\ result run
       = result (afterAnalysis w filePath content options analysis fs1)
    /\ (In Confirm
          (events (afterAnalysis w filePath content options analysis fs1)) ->
        In Confirm (events run)).
Proof.
  intros run Hin. subst run.
  by_stages w fs filePath prompt options; rewrite Hev in Hin.
  all: cbn [app] in Hin.
  all: repeat match type of Hin with
              | In _ (_ :: _) =>
                  destruct Hin as [Hin|Hin];
                  [first [discriminate
                         | injection Hin as Hp _; contradiction]|]
              | In _ [] => contradiction
              end.
  all: try (rewrite app_nil_r in Hin).
  all: try (exfalso; eapply analysisEvent_not_write; eassumption).
  all: apply in_app_or in Hin; destruct Hin as [Hin|Hin];
    [exfalso; eapply analysisEvent_not_write; eassumption|].
  all: match type of Ha with
       | result (analyzeAndGenerateEdits _ _ _ _ _ ?f) = _ =>
           exists content, analysis, f
       end; (split; [reflexivity|]).
  all: split; [unfold backedUp; auto|].
  all: split; [exact Ha|]; split; [exact Hin|].
  all: split; [exact Hfiles|]; split; [exact Hres|].
  all: intros Hconf; rewrite Hev; cbn [app]; right; right;
    try right; apply in_or_app; now right.
Qed.


Lemma isTrue_spec flag : isTrue flag = true <-> flag = Some true.
Proof. destruct flag as [[|]|]; simpl; split; congruence. Qed.

(** What it takes for the stage after the analysis to write the file. *)
Lemma afterAnalysis_write w filePath content options analysis fs path c :
  In (Write path c) (events (afterAnalysis w filePath content options
                               analysis fs)) ->
  path = filePath
  /\ dryRun options <> Some true
  /\ (autoApply options = Some true
      \/ (confirmProceed w = true
          /\ In Confirm (events (afterAnalysis w filePath content options
                                   analysis fs))))
  /\ writable w filePath = true
  /\ exists a,
       decode analysis = Some a
       /\ noSuggestions analysis = Normal false
       /\ c = edited content a
       /\ files (afterAnalysis w filePath content options analysis fs)
          = (filePath, c) :: fs.
Proof.
  rewrite afterAnalysis_run. unfold asked.
  destruct (noSuggestions analysis) as [[|]|e]; cbn [events];
    try contradiction.
  destruct (decode analysis) as [a|]; cbn [events]; [|contradiction].
  destruct (isTrue (dryRun options)) eqn:Hdry; cbn [events];
    [contradiction|].
  assert (Hd : dryRun options <> Some true).
  { intros H. apply isTrue_spec in H. congruence. }
  destruct (isTrue (autoApply options)) eqn:Hauto; cbn [orb].
  - apply isTrue_spec in Hauto.
    destruct (writable w filePath); cbn [events files app];
      [|contradiction].
    intros [H|[H|[]]]; [|discriminate]. injection H as <- <-.
    repeat split; auto. exists a. auto.
  - destruct (confirmProceed w); cbn [events files app];
      [|intros [H|[]]; discriminate].
    destruct (writable w filePath); cbn [events files app];
      [|intros [H|[]]; discriminate].
    intros [H|[H|[H|[]]]]; try discriminate. injection H as <- <-.
    repeat split; auto.
    + right. split; [reflexivity | now left].
    + exists a. auto.
Qed.

Lemma analysis_result w fs filePath content prompt contextFiles v :
  result (analyzeAndGenerateEdits w filePath content prompt contextFiles fs)
  = Returned v ->
  exists language answer, v = analysisFor language answer.
Proof.
  destruct (configured w) eqn:Hcfg.
  - destruct (@analyzeAndGenerateEdits_configured w fs filePath content prompt
                contextFiles Hcfg) as (request & Hrun & _).
    rewrite Hrun. cbn [result]. intros H. injection H as <-. eauto.
  - rewrite analyzeAndGenerateEdits_unconfigured by exact Hcfg.
    discriminate.
Qed.



(** X8. A run that returns with no changes suggested, in dry run mode or
    with the changes cancelled leaves the file with the content it had,
    writes nothing to it and records no session. *)
Theorem file_kept_unless_applied (w : World) (fs : Files)
  (filePath prompt : string) (options : Options) (how : ending) :
  let run := handleEditCommand w filePath prompt options fs in
  result run = Returned how -> how <> ChangesApplied ->
  (forall analysis, how <> OutsideInterface analysis) ->
  contentOf filePath (files run) = contentOf filePath fs
  /\ ~ In SaveSession (events run)
  /\ forall c, ~ In (Write filePath c) (events run).
Proof.
  intros run Hret Hne _. subst run.
  by_stages w fs filePath prompt options;
    rewrite Hres in Hret; try discriminate.
  all: rewrite Hfiles, Hev.
  all: rewrite afterAnalysis_run in *; unfold asked in *.
  all: destruct (noSuggestions analysis) as [[|]|e];
    try destruct (decode analysis) as [a|];
    try destruct (isTrue (dryRun options));
    try destruct (isTrue (autoApply options));
    try destruct (confirmProceed w);
    try destruct (writable w filePath);
    try destruct (sessionSaved w);
    cbn [result files events orb app contentOf] in *;
    try discriminate; try congruence.
  all: rewrite ?Hbp, ?app_nil_r.
  all: (split; [congruence|]).
  all: split; [|intros c]; intros Hin.
  all: repeat match type of Hin with
              | In _ (_ :: _) =>
                  destruct Hin as [Hin|Hin];
                  [first [discriminate
                         | injection Hin as Hp _; contradiction]|]
              | In _ [] => contradiction
              | In _ (_ ++ _) => apply in_app_or in Hin; destruct Hin as [Hin|Hin]
              end.
  all: rewrite Forall_forall in Hae; apply Hae in Hin; exact Hin.
Qed.

Lemma file_kept_unless_applied_witness :
  contentOf "a.ts"
    (files (handleEditCommand (oracleSays sampleResponse) "a.ts" "rename"
              defaultOptions sampleFiles))
  = contentOf "a.ts" sampleFiles
  /\ ~ In SaveSession
         (events (handleEditCommand (oracleSays sampleResponse) "a.ts"
                    "rename" defaultOptions sampleFiles))
  /\ forall c,
       ~ In (Write "a.ts" c)
           (events (handleEditCommand (oracleSays sampleResponse) "a.ts"
                      "rename" defaultOptions sampleFiles)).
Proof.
  apply (@file_kept_unless_applied (oracleSays sampleResponse) sampleFiles
           "a.ts" "rename" defaultOptions ChangesCancelled).
  - vm_compute. reflexivity.
  - discriminate.
  - discriminate.
Defined.

Lemma analysis_never_exits w fs filePath content prompt contextFiles n :
  result (analyzeAndGenerateEdits w filePath content prompt contextFiles fs)
  <> Exited n.
Proof.
  destruct (configured w) eqn:Hcfg.
  - destruct (@analyzeAndGenerateEdits_configured w fs filePath content prompt
                contextFiles Hcfg) as (request & Hrun & _).
    rewrite Hrun. discriminate.
  - rewrite analyzeAndGenerateEdits_unconfigured by exact Hcfg.
    discriminate.
Qed.

(** X9. The command leaves the process only for a file that is not there:
    with status 1, right after the access, nothing read, written or
    asked. *)
Theorem exits_only_for_missing_file (w : World) (fs : Files)
  (filePath prompt : string) (options : Options) (status : Z) :
  let run := handleEditCommand w filePath prompt options fs in
  result run = Exited status <->
  status = 1%Z /\ contentOf filePath fs = None.
Proof.
  intros run. subst run.
  pose proof (@analysis_never_exits w) as Hne.
  by_stages w fs filePath prompt options; rewrite Hres.
  all: try (exfalso; eapply Hne; exact Ha).
  all: rewrite ?afterAnalysis_run.
  all: try (destruct (noSuggestions analysis) as [[|]|e];
      try destruct (decode analysis) as [a|];
      try destruct (isTrue (dryRun options));
      try destruct (isTrue (autoApply options) || confirmProceed w);
      try destruct (writable w filePath);
      try destruct (sessionSaved w)).
  all: cbn [result].
  all: split;
    [ intros H; first [discriminate | injection H as <-; auto]
    | intros [Hs H]; first [discriminate | subst; reflexivity] ].
Qed.

(** X10. The command changes no file but the one it edits and its backup, and
    with the backup disabled none but the one it edits. *)
Theorem other_files_untouched (w : World) (fs : Files)
  (filePath prompt : string) (options : Options) (path : string) :
  let run := handleEditCommand w filePath prompt options fs in
  path <> filePath ->
  backup options = Some false \/ path <> backupPath w filePath ->
  contentOf path (files run) = contentOf path fs.
Proof.
  intros run Hp Hb. subst run.
  assert (Hfp : String.eqb filePath path = false)
    by (apply String.eqb_neq; congruence).
  by_stages w fs filePath prompt options; rewrite Hfiles.
  all: rewrite ?afterAnalysis_run.
  all: try (destruct (noSuggestions analysis) as [[|]|e];
      try destruct (decode analysis) as [a|];
      try destruct (isTrue (dryRun options));
      try destruct (isTrue (autoApply options) || confirmProceed w);
      try destruct (writable w filePath);
      try destruct (sessionSaved w)).
  all: cbn [result files contentOf]; rewrite ?Hfp; try reflexivity.
  all: destruct Hb as [Hb|Hb]; try discriminate.
  all: apply String.eqb_neq in Hb; rewrite String.eqb_sym in Hb;
    rewrite Hb; reflexivity.
Qed.

Lemma other_files_untouched_witness :
  contentOf "b.ts"
    (files (handleEditCommand (oracleSays sampleResponse) "a.ts" "rename"
              autoApplyOptions (("b.ts", "x") :: sampleFiles)))
  = contentOf "b.ts" (("b.ts", "x") :: sampleFiles).
Proof.
  apply (@other_files_untouched (oracleSays sampleResponse)
           (("b.ts", "x") :: sampleFiles) "a.ts" "rename" autoApplyOptions
           "b.ts").
  - discriminate.
  - right. vm_compute. discriminate.
Defined.

Lemma beginningOf_refl steps : beginningOf steps steps.
Proof. exists []. now rewrite app_nil_r. Qed.

Lemma beginningOf_cons e steps trace :
  beginningOf steps trace -> beginningOf (e :: steps) (e :: trace).
Proof. intros [rest ->]. now exists rest. Qed.

Lemma beginningOf_app pre steps trace :
  beginningOf steps trace -> beginningOf (pre ++ steps) (pre ++ trace).
Proof. intros [rest ->]. exists rest. now rewrite app_assoc. Qed.

Lemma beginningOf_nil steps : beginningOf steps [].
Proof. now exists steps. Qed.

Lemma beginningOf_left steps rest : beginningOf (steps ++ rest) steps.
Proof. now exists rest. Qed.

(** X11. The steps of the command always come in one order: the access, the
    read of the file, the backup, the reads of the context files, the
    consultation of the oracle, the question to the user, the write and the
    session. A run stops somewhere on this path; it repeats no step and
    takes none out of turn. *)
Theorem steps_in_order (w : World) (fs : Files)
  (filePath prompt : string) (options : Options) :
  let run := handleEditCommand w filePath prompt options fs in
  exists content request newContent,
    beginningOf (allSteps w filePath options content request newContent)
      (events run)
    /\ (contentOf filePath fs <> None ->
        contentOf filePath fs = Some content)
    /\ subject request = filePath /\ instruction request = prompt.
Proof.
  intros run. subst run.
  set (r0 := {| Host.language := ""; subject := filePath;
                instruction := prompt; code := ""; extra := "";
                full := false |}).
  assert (Hstop : forall content f,
    exists request,
      subject request = filePath /\ instruction request = prompt
      /\ (events (analyzeAndGenerateEdits w filePath content prompt
                      (context options) f)
          = map Read (contextList (context options)) ++ [Generate request]
          \/ events (analyzeAndGenerateEdits w filePath content prompt
                      (context options) f) = []
             /\ forall v,
                  result (analyzeAndGenerateEdits w filePath content prompt
                            (context options) f) <> Returned v)).
  { intros content f.
    destruct (configured w) eqn:Hcfg.
    - destruct (@analyzeAndGenerateEdits_configured w f filePath content prompt
                  (context options) Hcfg)
        as (request & Hrun & _ & Hs & Hi & _).
      exists request. rewrite Hrun. cbn [events]. auto.
    - exists r0. rewrite analyzeAndGenerateEdits_unconfigured by exact Hcfg.
      cbn [events result]. repeat split. right. split; [reflexivity|].
      discriminate. }
  by_stages w fs filePath prompt options; rewrite Hev; clear Hres Hfiles Hev.
  all: try match goal with
    | |- context [events (analyzeAndGenerateEdits _ _ ?c _ _ ?f)] =>
        destruct (Hstop c f) as (request & Hs & Hi & [He|[He Hno]]);
        [ rewrite He
        | try (exfalso; eapply Hno; exact Ha); rewrite He ]
    end.
  all: rewrite ?afterAnalysis_run.
  all: try (destruct (noSuggestions analysis) as [[|]|e];
      try destruct (decode analysis) as [a|];
      try destruct (isTrue (dryRun options));
      try destruct (isTrue (autoApply options) || confirmProceed w);
      try destruct (writable w filePath);
      try destruct (sessionSaved w)).
  all: cbn [result files events].
  all: first
    [ match goal with
      | a : FileAnalysis, request : Request |- _ =>
          exists content, request, (edited content a)
      end
    | match goal with
      | request : Request |- _ => exists content, request, ""
      end
    | match goal with
      | content : string |- _ => exists content, r0, ""
      end
    | exists "", r0, "" ].
  all: (split; [|split; [congruence | auto]]).
  all: unfold allSteps; rewrite ?Hbackup; cbn [app];
    rewrite <- ?app_assoc, ?app_nil_r; cbn [app].
  all: repeat apply beginningOf_cons.
  all: try apply beginningOf_nil.
  all: repeat (apply beginningOf_app; cbn [app]).
  all: repeat apply beginningOf_cons.
  all: try apply beginningOf_nil.
  all: try apply beginningOf_refl.
  all: try apply beginningOf_left.
Qed.

(** *** The edit command with git *)

(** With the backup on and without [autoApply], a write to the file
    has the consent of the user and the backup behind it. *)
Lemma guarded_write w fs filePath prompt options c :
  backup options <> Some false -> autoApply options <> Some true ->
  let run := handleEditCommand w filePath prompt options fs in
  In (Write filePath c) (events run) ->
  confirmProceed w = true
  /\ In Confirm (events run)
  /\ exists content,
       contentOf filePath fs = Some content
       /\ In (Write (backupPath w filePath) content) (events run)
       /\ contentOf (backupPath w filePath) (files run) = Some content.
Proof.
  intros Hb Hauto run Hin. subst run.
  assert (Hno : isTrue (autoApply options) = false).
  { destruct (autoApply options) as [[|]|]; cbn; congruence. }
  revert Hin.
  by_stages w fs filePath prompt options; rewrite Hev, ?Hfiles;
    try congruence.
  all: rewrite ?afterAnalysis_run; unfold asked; rewrite ?Hno.
  all: try (destruct (noSuggestions analysis) as [[|]|e];
      try destruct (decode analysis) as [a|];
      try destruct (isTrue (dryRun options));
      try destruct (confirmProceed w);
      try destruct (writable w filePath);
      try destruct (sessionSaved w)).
  all: cbn [result files events orb app]; rewrite ?app_nil_r.
  all: intros Hin.
  all: repeat match type of Hin with
              | In _ (_ :: _) =>
                  destruct Hin as [Hin|Hin];
                  [first [discriminate
                         | injection Hin as Hp _; contradiction
                         | idtac]|]
              | In _ [] => contradiction
              | In _ (_ ++ _) =>
                  apply in_app_or in Hin; destruct Hin as [Hin|Hin]
              end.
  all: try (exfalso; eapply analysisEvent_not_write; eassumption).
  all: split; [reflexivity|].
  all: split; [right; right; right; apply in_or_app; right; now left|].
  all: exists content; split; [reflexivity|].
  all: split; [right; right; now left|].
  all: cbn [contentOf]. 
  all: assert (Hne : String.eqb filePath (backupPath w filePath) = false)
    by (apply String.eqb_neq; intros E; now apply (@backupPath_other w filePath)).
  all: now rewrite Hne, String.eqb_refl.
Qed.


Lemma OfEdit_in e trace : In (Git.OfEdit e) (map Git.OfEdit trace) <-> In e trace.
Proof.
  rewrite in_map_iff. split.
  - intros (x & Hx & Hin). injection Hx as <-. exact Hin.
  - intros H. eauto.
Qed.

Lemma Exec_not_of_edit command trace :
  ~ In (Git.Exec command) (map Git.OfEdit trace).
Proof. rewrite in_map_iff. intros (x & Hx & _). discriminate. Qed.

Lemma commitSteps_no_edit execSync done filePath message options e :
  ~ In (Git.OfEdit e) (Git.commitSteps execSync done filePath message options).
Proof.
  unfold Git.commitSteps.
  destruct (execSync done _); [destruct (execSync (done ++ _) _);
    [destruct (isTrue _)|]|]; cbn; intuition discriminate.
Qed.

(** The events of the edit command among the steps of the wrapper. *)
Lemma edit_steps w execSync fs filePath prompt options e :
  let run := Git.handleEditWithGit w execSync filePath prompt options fs in
  let edit := handleEditCommand w filePath prompt Git.editOptions fs in
  In (Git.OfEdit e) (Git.steps run) ->
  In e (events edit) /\ Git.tree run = files edit
  /\ forall e', In e' (events edit) -> In (Git.OfEdit e') (Git.steps run).
Proof.
  cbv zeta. unfold Git.handleEditWithGit.
  set (edit := handleEditCommand w filePath prompt Git.editOptions fs).
  assert (Hco : forall l,
            In (Git.OfEdit e)
              (match Git.given (Git.createBranch options) with
               | Some branch => [Git.Exec (Git.checkoutCommand branch)]
               | None => []
               end ++ l) -> In (Git.OfEdit e) l).
  { intros l. destruct (Git.given _); cbn [app]; [|auto].
    intros [H|H]; [discriminate | exact H]. }
  assert (Hin : forall e' l,
            In e' (events edit) ->
            In (Git.OfEdit e')
              ((match Git.given (Git.createBranch options) with
                | Some branch => [Git.Exec (Git.checkoutCommand branch)]
                | None => []
                end ++ map Git.OfEdit (events edit)) ++ l)).
  { intros e' l H. apply in_or_app. left. apply in_or_app. right.
    now apply OfEdit_in. }
  destruct (match Git.given (Git.createBranch options) with
            | Some branch => execSync [] (Git.checkoutCommand branch)
            | None => true
            end).
  2:{ cbn [Git.steps]. destruct (Git.given _); cbn; intuition discriminate. }
  destruct (result edit) as [how|err|n].
  2,3: cbn [Git.steps Git.tree]; intros H; apply Hco, OfEdit_in in H;
    split; [exact H|]; split; [reflexivity|];
    intros e' He'; specialize (Hin e' [] He'); now rewrite app_nil_r in Hin.
  assert (Hret : In (Git.OfEdit e)
                   ((match Git.given (Git.createBranch options) with
                     | Some branch => [Git.Exec (Git.checkoutCommand branch)]
                     | None => []
                     end ++ map Git.OfEdit (events edit))
                      ++ match Git.given (Git.commitMessage options) with
                         | Some message =>
                             Git.commitSteps execSync
                               (match Git.given (Git.createBranch options) with
                                | Some branch =>
                                    [Git.Exec (Git.checkoutCommand branch)]
                                | None => []
                                end ++ map Git.OfEdit (events edit))
                               filePath message options
                         | None => []
                         end) -> In e (events edit)).
  { intros H. apply in_app_or in H. destruct H as [H|H].
    - now apply Hco, OfEdit_in in H.
    - destruct (Git.given (Git.commitMessage options)); [|contradiction].
      exfalso. eapply commitSteps_no_edit. exact H. }
  cbn [Git.steps Git.tree]. intros H.
  split; [now apply Hret|]. split; [reflexivity|].
  intros e' He'. now apply Hin.
Qed.

(** X12. Under git the file is written only after the user has accepted, and
    with a backup: the wrapper never sets [autoApply] and always asks for
    the backup, which holds the content that the file had. *)
Theorem git_edit_keeps_safeguards (w : World)
  (execSync : list Git.step -> string -> bool) (fs : Files)
  (filePath prompt : string) (options : Git.Options) (c : string) :
  let run := Git.handleEditWithGit w execSync filePath prompt options fs in
  In (Git.OfEdit (Write filePath c)) (Git.steps run) ->
  confirmProceed w = true
  /\ In (Git.OfEdit Confirm) (Git.steps run)
  /\ exists content,
       contentOf filePath fs = Some content
       /\ In (Git.OfEdit (Write (backupPath w filePath) content))
            (Git.steps run)
       /\ contentOf (backupPath w filePath) (Git.tree run) = Some content.
Proof.
  cbv zeta. intros Hin.
  destruct (@edit_steps w execSync fs filePath prompt options _ Hin)
    as (Hw & Htree & Hback).
  destruct (@guarded_write w fs filePath prompt Git.editOptions c)
    as (Hyes & Hconf & content & Hc & Hb & Hbc);
    [discriminate | discriminate | exact Hw |].
  split; [exact Hyes|]. split; [now apply Hback|].
  exists content. split; [exact Hc|]. split; [now apply Hback|].
  now rewrite Htree.
Qed.


Lemma git_edit_keeps_safeguards_witness :
  confirmProceed (accepting sampleResponse) = true
  /\ In (Git.OfEdit Confirm)
       (Git.steps (Git.handleEditWithGit (accepting sampleResponse) gitWorks
                     "a.ts" "rename" branchCommitPush sampleFiles))
  /\ exists content,
       contentOf "a.ts" sampleFiles = Some content
       /\ In (Git.OfEdit
                (Write (backupPath (accepting sampleResponse) "a.ts") content))
            (Git.steps (Git.handleEditWithGit (accepting sampleResponse)
                          gitWorks "a.ts" "rename" branchCommitPush
                          sampleFiles))
       /\ contentOf (backupPath (accepting sampleResponse) "a.ts")
            (Git.tree (Git.handleEditWithGit (accepting sampleResponse)
                         gitWorks "a.ts" "rename" branchCommitPush
                         sampleFiles))
          = Some content.
Proof.
  apply (@git_edit_keeps_safeguards (accepting sampleResponse) gitWorks
           sampleFiles "a.ts" "rename" branchCommitPush
           (Js.join Edit.nl ["a"; "B2"; "c"])).
  vm_compute. repeat first [left; reflexivity | right].
Defined.

Lemma checkout_not_add branch filePath :
  Git.checkoutCommand branch <> Git.addCommand filePath.
Proof. discriminate. Qed.

Lemma checkout_not_push branch options :
  Git.checkoutCommand branch <> Git.pushCommand options.
Proof. discriminate. Qed.

Lemma add_not_push filePath options :
  Git.addCommand filePath <> Git.pushCommand options.
Proof. discriminate. Qed.

Lemma commit_not_push message options :
  Git.commitCommand message <> Git.pushCommand options.
Proof. discriminate. Qed.

Lemma commitSteps_start execSync done filePath message options :
  exists rest,
    Git.commitSteps execSync done filePath message options
    = Git.Exec (Git.addCommand filePath) :: rest.
Proof.
  unfold Git.commitSteps.
  destruct (execSync done _); [destruct (execSync (done ++ _) _);
    [destruct (isTrue _)|]|]; eauto.
Qed.

(** X13. With a commit message, and an edit that stays within the
    declared interface, the wrapper goes on to [git add] exactly when the
    edit command has returned, whether or not the file has been changed:
    also when nothing was suggested or the user has declined.  It does not
    when the branch could not be created or the edit command has failed. *)
Theorem commit_follows_every_edit (w : World)
  (execSync : list Git.step -> string -> bool) (fs : Files)
  (filePath prompt message : string) (options : Git.Options) :
  let run := Git.handleEditWithGit w execSync filePath prompt options fs in
  Git.given (Git.commitMessage options) = Some message ->
  withinInterface (handleEditCommand w filePath prompt Git.editOptions fs) ->
  In (Git.Exec (Git.addCommand filePath)) (Git.steps run)
  <-> editReturned run.
Proof.
  cbv zeta. intros Hm _. unfold editReturned, Git.handleEditWithGit.
  rewrite Hm.
  set (edit := handleEditCommand w filePath prompt Git.editOptions fs).
  set (checkout := match Git.given (Git.createBranch options) with
                   | Some branch => [Git.Exec (Git.checkoutCommand branch)]
                   | None => []
                   end).
  assert (Hch : ~ In (Git.Exec (Git.addCommand filePath)) checkout).
  { subst checkout.
    destruct (Git.given (Git.createBranch options)); [|intros []].
    intros [H|[]]. discriminate. }
  assert (Hco : forall l, In (Git.Exec (Git.addCommand filePath))
                            ((checkout ++ map Git.OfEdit (events edit)) ++ l)
                          -> In (Git.Exec (Git.addCommand filePath)) l).
  { intros l H. apply in_app_or in H. destruct H as [H|H]; [|exact H].
    apply in_app_or in H. destruct H as [H|H]; [contradiction|].
    now apply Exec_not_of_edit in H. }
  destruct (match Git.given (Git.createBranch options) with
            | Some branch => execSync [] (Git.checkoutCommand branch)
            | None => true
            end).
  2:{ cbn [Git.steps Git.ended]. split; [intros H; contradiction|].
      intros (how & H). discriminate. }
  destruct (result edit) as [how|err|n].
  2,3: cbn [Git.steps Git.ended]; split;
    [ intros H; exfalso; apply (Hco []); rewrite app_nil_r; exact H
    | intros (how & H); discriminate ].
  destruct (commitSteps_start execSync (checkout ++ map Git.OfEdit (events edit))
              filePath message options) as [rest Hrest].
  cbn [Git.steps Git.ended]. split.
  - intros _. eexists. reflexivity.
  - intros _. apply in_or_app. right. rewrite Hrest. now left.
Qed.

Lemma commit_follows_every_edit_witness :
  In (Git.Exec (Git.addCommand "a.ts"))
    (Git.steps (Git.handleEditWithGit (oracleSays lowConfidenceResponse)
                  nothingToCommit "a.ts" "rename" branchCommitPush
                  sampleFiles))
  <-> editReturned
        (Git.handleEditWithGit (oracleSays lowConfidenceResponse)
           nothingToCommit "a.ts" "rename" branchCommitPush sampleFiles).
Proof.
  apply (@commit_follows_every_edit (oracleSays lowConfidenceResponse)
           nothingToCommit sampleFiles "a.ts" "rename" "rename"
           branchCommitPush).
  - reflexivity.
  - intros analysis. vm_compute. discriminate.
Defined.

(** X14. A push is the last step of a run, and it comes only with
    [pushRemote] set and right after [git add] and [git commit] have both
    succeeded. *)
Theorem push_comes_after_commit (w : World)
  (execSync : list Git.step -> string -> bool) (fs : Files)
  (filePath prompt : string) (options : Git.Options) :
  let run := Git.handleEditWithGit w execSync filePath prompt options fs in
  In (Git.Exec (Git.pushCommand options)) (Git.steps run) ->
  Git.pushRemote options = Some true
  /\ exists done message,
       Git.given (Git.commitMessage options) = Some message
       /\ Git.steps run
          = done ++ [Git.Exec (Git.addCommand filePath);
                     Git.Exec (Git.commitCommand message);
                     Git.Exec (Git.pushCommand options)]
       /\ execSync done (Git.addCommand filePath) = true
       /\ execSync (done ++ [Git.Exec (Git.addCommand filePath)])
            (Git.commitCommand message) = true.
Proof.
  cbv zeta. unfold Git.handleEditWithGit.
  set (edit := handleEditCommand w filePath prompt Git.editOptions fs).
  set (checkout := match Git.given (Git.createBranch options) with
                   | Some branch => [Git.Exec (Git.checkoutCommand branch)]
                   | None => []
                   end).
  assert (Hch : ~ In (Git.Exec (Git.pushCommand options)) checkout).
  { subst checkout.
    destruct (Git.given (Git.createBranch options)) eqn:Hb; [|intros []].
    intros [H|[]]. revert H. unfold Git.pushCommand. discriminate. }
  assert (Hco : forall l, In (Git.Exec (Git.pushCommand options))
                            ((checkout ++ map Git.OfEdit (events edit)) ++ l)
                          -> In (Git.Exec (Git.pushCommand options)) l).
  { intros l H. apply in_app_or in H. destruct H as [H|H]; [|exact H].
    apply in_app_or in H. destruct H as [H|H]; [contradiction|].
    now apply Exec_not_of_edit in H. }
  destruct (match Git.given (Git.createBranch options) with
            | Some branch => execSync [] (Git.checkoutCommand branch)
            | None => true
            end).
  2:{ cbn [Git.steps]. intros H. contradiction. }
  assert (Hmain : forall l,
            l = match Git.given (Git.commitMessage options) with
                | Some message =>
                    Git.commitSteps execSync
                      (checkout ++ map Git.OfEdit (events edit)) filePath
                      message options
                | None => []
                end ->
            In (Git.Exec (Git.pushCommand options)) l ->
            Git.pushRemote options = Some true
            /\ exists done message,
                 Git.given (Git.commitMessage options) = Some message
                 /\ (checkout ++ map Git.OfEdit (events edit)) ++ l
                    = done ++ [Git.Exec (Git.addCommand filePath);
                               Git.Exec (Git.commitCommand message);
                               Git.Exec (Git.pushCommand options)]
                 /\ execSync done (Git.addCommand filePath) = true
                 /\ execSync (done ++ [Git.Exec (Git.addCommand filePath)])
                      (Git.commitCommand message) = true).
  { intros l -> H.
    destruct (Git.given (Git.commitMessage options)) as [message|];
      [|contradiction].
    unfold Git.commitSteps in *.
    destruct (execSync (checkout ++ map Git.OfEdit (events edit))
                (Git.addCommand filePath)) eqn:Hadd.
    2:{ destruct H as [H|[]]. exfalso. revert H.
        unfold Git.pushCommand. discriminate. }
    destruct (execSync ((checkout ++ map Git.OfEdit (events edit))
                          ++ [Git.Exec (Git.addCommand filePath)])
                (Git.commitCommand message)) eqn:Hcommit.
    2:{ destruct H as [H|[H|[]]]; exfalso; revert H;
          unfold Git.pushCommand; discriminate. }
    destruct (Git.pushRemote options) as [[|]|] eqn:Hp; cbn [isTrue] in *.
    2,3: destruct H as [H|[H|[]]]; exfalso; revert H;
          unfold Git.pushCommand; discriminate.
    split; [reflexivity|].
    exists (checkout ++ map Git.OfEdit (events edit)), message. auto. }
  destruct (result edit) as [how|err|n].
  2,3: cbn [Git.steps]; intros H; exfalso; apply (Hco []);
    rewrite app_nil_r; exact H.
  cbn [Git.steps]. intros H.
  apply Hmain; [reflexivity | now apply Hco].
Qed.

Lemma push_comes_after_commit_witness :
  Git.pushRemote branchCommitPush = Some true
  /\ exists done message,
       Git.given (Git.commitMessage branchCommitPush) = Some message
       /\ Git.steps (Git.handleEditWithGit (accepting sampleResponse)
                       gitWorks "a.ts" "rename" branchCommitPush sampleFiles)
          = done ++ [Git.Exec (Git.addCommand "a.ts");
                     Git.Exec (Git.commitCommand message);
                     Git.Exec (Git.pushCommand branchCommitPush)]
       /\ gitWorks done (Git.addCommand "a.ts") = true
       /\ gitWorks (done ++ [Git.Exec (Git.addCommand "a.ts")])
            (Git.commitCommand message) = true.
Proof.
  apply (@push_comes_after_commit (accepting sampleResponse) gitWorks
           sampleFiles "a.ts" "rename" branchCommitPush).
  vm_compute. repeat first [left; reflexivity | right].
Defined.

(** X15. A git command that fails never makes the wrapper fail.  When the
    branch cannot be created the run ends there, before the file is looked
    at; otherwise the wrapper ends as the edit command does, whatever
    becomes of the commit and the push. *)
Theorem git_failures_are_contained (w : World)
  (execSync : list Git.step -> string -> bool) (fs : Files)
  (filePath prompt : string) (options : Git.Options) :
  let run := Git.handleEditWithGit w execSync filePath prompt options fs in
  let edit := handleEditCommand w filePath prompt Git.editOptions fs in
  match Git.ended run with
  | Returned Git.BranchFailed =>
      exists branch,
        Git.given (Git.createBranch options) = Some branch
        /\ execSync [] (Git.checkoutCommand branch) = false
        /\ Git.steps run = [Git.Exec (Git.checkoutCommand branch)]
        /\ Git.tree run = fs
  | Returned (Git.Finished how) =>
      result edit = Returned how /\ Git.tree run = files edit
  | Raised e => result edit = Raised e
  | Exited status => result edit = Exited status
  end
  /\ (forall branch,
        Git.given (Git.createBranch options) = Some branch ->
        execSync [] (Git.checkoutCommand branch) = false ->
        Git.ended run = Returned Git.BranchFailed).
Proof.
  cbv zeta. unfold Git.handleEditWithGit.
  destruct (Git.given (Git.createBranch options)) as [branch|].
  - destruct (execSync [] (Git.checkoutCommand branch)) eqn:Hb.
    + split.
      * destruct (result (handleEditCommand w filePath prompt Git.editOptions
                            fs)) as [how|e|n]; cbn; auto.
      * intros b Hb' H. injection Hb' as <-. congruence.
    + split; [|reflexivity]. cbn. exists branch. auto.
  - split; [|discriminate].
    destruct (result (handleEditCommand w filePath prompt Git.editOptions fs))
      as [how|e|n]; cbn; auto.
Qed.

End Stages.

(** ** The walk over a directory *)

Section WalkFacts.

Import Js Walk.

Variable join : string -> string -> string.
Variable extname : string -> string.

Lemma Dirent_nested_ind (P : Dirent -> Prop) :
  (forall name, P (File name)) ->
  (forall name, P (Other name)) ->
  (forall name listable entries,
     Forall P entries -> P (Directory name listable entries)) ->
  forall entry, P entry.
Proof.
  intros Hfile Hother Hdir. fix IH 1.
  intros [name|name listable entries|name];
    [apply Hfile | | apply Hother].
  apply Hdir. induction entries as [|e rest IHrest]; constructor;
    [apply IH | exact IHrest].
Qed.

Lemma walkEntry_directory currentDir name listable entries files :
  walkEntry join extname currentDir (Directory name listable entries) files
  = if descends name
    then walkDir join extname (join currentDir name) listable entries files
    else Normal files.
Proof.
  cbn [walkEntry]. unfold walkDir.
  destruct (descends name); [|reflexivity].
  destruct listable; [|reflexivity].
  revert files. induction entries as [|e rest IH]; intros files;
    [reflexivity|].
  cbn [walkEntries].
  destruct (walkEntry join extname (join currentDir name) e files)
    as [files'|err]; cbn [Js.bind]; [apply IH | reflexivity].
Qed.

Lemma Reached_cons dir e rest path :
  Reached join extname dir (e :: rest) path
  <-> Reached join extname dir [e] path \/ Reached join extname dir rest path.
Proof.
  split.
  - intros H. inversion H as [d es name Hin Hext|d es name l below p Hin Hd Hb];
      subst.
    + destruct Hin as [->|Hin].
      * left. apply Reached_file; [now left | exact Hext].
      * right. now apply Reached_file.
    + destruct Hin as [->|Hin].
      * left. eapply Reached_below; [now left | exact Hd | exact Hb].
      * right. eapply Reached_below; eauto.
  - intros [H|H].
    + inversion H as [d es name Hin Hext|d es name l below p Hin Hd Hb];
        subst.
      * destruct Hin as [->|[]]. apply Reached_file; [now left | exact Hext].
      * destruct Hin as [->|[]].
        eapply Reached_below; [now left | exact Hd | exact Hb].
    + inversion H as [d es name Hin Hext|d es name l below p Hin Hd Hb];
        subst.
      * apply Reached_file; [now right | exact Hext].
      * eapply Reached_below; [right; exact Hin | exact Hd | exact Hb].
Qed.

Lemma Reached_nil dir path : ~ Reached join extname dir [] path.
Proof. intros H. inversion H; contradiction. Qed.

Lemma walkEntries_adds entries :
  Forall (fun e => forall dir files out,
            walkEntry join extname dir e files = Normal out ->
            adds join extname dir [e] files out) entries ->
  forall dir files out,
    walkEntries join extname dir entries files = Normal out ->
    adds join extname dir entries files out.
Proof.
  induction 1 as [|e rest He _ IH]; intros dir files out Hw.
  - cbn in Hw. injection Hw as <-. exists []. rewrite app_nil_r.
    split; [reflexivity|]. intros path. split; [intros [] |].
    intros H. now apply Reached_nil in H.
  - cbn [walkEntries] in Hw.
    destruct (walkEntry join extname dir e files) as [mid|err] eqn:Hmid;
      cbn [Js.bind] in Hw; [|discriminate].
    destruct (He _ _ _ Hmid) as (new1 & -> & H1).
    destruct (IH _ _ _ Hw) as (new2 & -> & H2).
    exists (new1 ++ new2). rewrite app_assoc. split; [reflexivity|].
    intros path. rewrite in_app_iff, Reached_cons, H1, H2. tauto.
Qed.

Lemma walkEntry_adds entry : forall dir files out,
  walkEntry join extname dir entry files = Normal out ->
  adds join extname dir [entry] files out.
Proof.
  induction entry as [name|name|name listable entries IH]
    using Dirent_nested_ind; intros dir files out Hw.
  - cbn [walkEntry] in Hw.
    destruct (includes codeExtensions (extname name)) eqn:Hext;
      injection Hw as <-.
    + exists [join dir name]. split; [reflexivity|]. intros path. split.
      * intros [<-|[]]. apply Reached_file; [now left | exact Hext].
      * intros H. inversion H as [d es n Hin Hx|d es n l below p Hin Hd Hb];
          subst.
        -- destruct Hin as [E|[]]. injection E as <-. now left.
        -- destruct Hin as [E|[]]. discriminate.
    + exists []. rewrite app_nil_r. split; [reflexivity|]. intros path.
      split; [intros [] |].
      intros H. inversion H as [d es n Hin Hx|d es n l below p Hin Hd Hb];
        subst.
      * destruct Hin as [E|[]]. injection E as <-. congruence.
      * destruct Hin as [E|[]]. discriminate.
  - cbn [walkEntry] in Hw. injection Hw as <-.
    exists []. rewrite app_nil_r. split; [reflexivity|]. intros path.
    split; [intros [] |].
    intros H. inversion H as [d es n Hin Hx|d es n l below p Hin Hd Hb];
      subst; destruct Hin as [E|[]]; discriminate.
  - rewrite walkEntry_directory in Hw. unfold walkDir in Hw.
    destruct (descends name) eqn:Hd.
    + destruct listable; [|discriminate].
      destruct (walkEntries_adds IH _ _ Hw) as (new & -> & Hnew).
      exists new. split; [reflexivity|]. intros path. rewrite Hnew. split.
      * intros H. eapply Reached_below; [now left | exact Hd | exact H].
      * intros H. inversion H as [d es n Hin Hx|d es n l below p Hin Hd' Hb];
          subst.
        -- destruct Hin as [E|[]]. discriminate.
        -- destruct Hin as [E|[]]. injection E as <- <- <-. exact Hb.
    + injection Hw as <-. exists []. rewrite app_nil_r.
      split; [reflexivity|]. intros path. split; [intros [] |].
      intros H. inversion H as [d es n Hin Hx|d es n l below p Hin Hd' Hb];
        subst.
      * destruct Hin as [E|[]]. discriminate.
      * destruct Hin as [E|[]]. injection E as <- <- <-. congruence.
Qed.

(** X16. The walk returns the code files it reaches and nothing else: the
    files with a code extension in the directory and, recursively, in its
    subdirectories other than [node_modules] and those whose name starts
    with a dot. *)
Theorem getCodeFiles_reached (dir : string) (listable : bool)
  (entries : list Dirent) (files : list string) :
  getCodeFiles join extname dir listable entries = Normal files ->
  forall path, In path files <-> Reached join extname dir entries path.
Proof.
  unfold getCodeFiles, walkDir. intros Hw.
  destruct listable; [|discriminate].
  assert (Hall : Forall (fun e => forall dir files out,
                           walkEntry join extname dir e files = Normal out ->
                           adds join extname dir [e] files out) entries)
    by (apply Forall_forall; intros e _; apply walkEntry_adds).
  destruct (walkEntries_adds Hall _ _ Hw) as (new & -> & Hnew).
  exact Hnew.
Qed.

Lemma walkEntries_listable entries :
  Forall (fun e => forall dir files,
            (exists out, walkEntry join extname dir e files = Normal out)
            <-> allListable e = true) entries ->
  forall dir files,
    (exists out, walkEntries join extname dir entries files = Normal out)
    <-> forallb allListable entries = true.
Proof.
  induction 1 as [|e rest He _ IH]; intros dir files.
  - cbn. split; eauto.
  - cbn [walkEntries forallb]. rewrite andb_true_iff, <- (He dir files).
    destruct (walkEntry join extname dir e files) as [mid|err];
      cbn [Js.bind].
    + rewrite (IH dir mid). split; [intros H; split; eauto | tauto].
    + split; [intros [out H]; discriminate|].
      intros [[out H] _]. discriminate.
Qed.

Lemma walkEntry_listable entry : forall dir files,
  (exists out, walkEntry join extname dir entry files = Normal out)
  <-> allListable entry = true.
Proof.
  induction entry as [name|name|name listable entries IH]
    using Dirent_nested_ind; intros dir files.
  - cbn. split; eauto.
  - cbn. split; eauto.
  - rewrite walkEntry_directory. unfold walkDir. cbn [allListable].
    destruct (descends name); [|split; eauto].
    destruct listable; cbn [andb].
    + apply (walkEntries_listable IH).
    + split; [intros [out H]; discriminate | discriminate].
Qed.

(** X17. The walk fails exactly when a directory that it descends into cannot
    be listed; what lies below [node_modules] or a directory whose name
    starts with a dot never makes it fail. *)
Theorem getCodeFiles_fails_on_unlistable (dir : string) (listable : bool)
  (entries : list Dirent) :
  (exists e, getCodeFiles join extname dir listable entries = Throw e)
  <-> listable && forallb allListable entries = false.
Proof.
  unfold getCodeFiles, walkDir.
  destruct listable; cbn [andb]; [|split; eauto].
  assert (Hall : Forall (fun e => forall dir files,
            (exists out, walkEntry join extname dir e files = Normal out)
            <-> allListable e = true) entries)
    by (apply Forall_forall; intros e _; apply walkEntry_listable).
  pose proof (walkEntries_listable Hall dir []) as H.
  destruct (walkEntries join extname dir entries []) as [out|err].
  - destruct H as [H _]. rewrite H by eauto.
    split; [intros [e He]; discriminate | discriminate].
  - split; [|eauto]. intros _.
    destruct (forallb allListable entries); [|reflexivity].
    destruct H as [_ H]. destruct (H eq_refl) as [out Ho]. discriminate.
Qed.

End WalkFacts.

Lemma getCodeFiles_reached_witness :
  In "src/lib/util.py" ["src/main.ts"; "src/lib/util.py"]
  <-> Reached slashJoin dotExtname "src" sampleTree "src/lib/util.py".
Proof.
  apply (@getCodeFiles_reached slashJoin dotExtname "src" true sampleTree
           ["src/main.ts"; "src/lib/util.py"]).
  reflexivity.
Defined.

(** ** The languages of the extensions *)

Section Languages.

Import Js.

Lemma mapLookup_In key entries tag :
  Edit.mapLookup key entries = Some tag -> In (key, tag) entries.
Proof.
  induction entries as [|[k v] rest IH]; cbn [Edit.mapLookup];
    [discriminate|].
  destruct (String.eqb_spec k key) as [->|Hne].
  - intros H. injection H as <-. now left.
  - intros H. right. now apply IH.
Qed.

Lemma known_to_analyze ext :
  Analyze.getLanguageFromExtension ext <> "text" ->
  exists tag, In (ext, tag) Analyze.languageMap.
Proof.
  unfold Analyze.getLanguageFromExtension.
  destruct (Edit.mapLookup ext Analyze.languageMap) as [tag|] eqn:H;
    [|congruence].
  intros _. exists tag. now apply mapLookup_In.
Qed.

(** X18. The extensions of the files that the walk collects are those for
    which the analyze command has a language: a collected file is never
    presented to the oracle as [text], and no file with a known language
    is left out for its extension. *)
Theorem collected_extensions_have_a_language (ext : string) :
  extensionLike ext ->
  Walk.includes Walk.codeExtensions ext = true
  <-> Analyze.getLanguageFromExtension ext <> "text".
Proof.
  intros _. split.
  - unfold Walk.includes, Walk.codeExtensions. cbn [existsb].
    rewrite !orb_true_iff.
    intros H.
    repeat (destruct H as [H|H];
            [apply String.eqb_eq in H; subst ext; vm_compute; discriminate|]).
    discriminate.
  - intros H. destruct (@known_to_analyze ext H) as (tag & Hin).
    unfold Analyze.languageMap in Hin.
    repeat (destruct Hin as [Hin|Hin]; [injection Hin as <- _; reflexivity|]).
    contradiction.
Qed.

Lemma collected_extensions_have_a_language_witness :
  Walk.includes Walk.codeExtensions ".py" = true
  <-> Analyze.getLanguageFromExtension ".py" <> "text".
Proof.
  apply (@collected_extensions_have_a_language ".py").
  right. reflexivity.
Defined.

(** X19. The edit command gives an extension that the analyze command knows
    the language that the analyze command gives it, in whatever case the
    extension is written. *)
Theorem edit_language_extends_analyze (ext written : string) :
  Analyze.getLanguageFromExtension ext <> "text" ->
  toLowerCase written = ext ->
  Edit.getLanguageFromExtension written
  = Analyze.getLanguageFromExtension ext.
Proof.
  intros H Hlow. destruct (@known_to_analyze ext H) as (tag & Hin).
  unfold Edit.getLanguageFromExtension. rewrite Hlow.
  unfold Analyze.languageMap in Hin.
  repeat (destruct Hin as [Hin|Hin]; [injection Hin as <- _; reflexivity|]).
  contradiction.
Qed.

Lemma edit_language_extends_analyze_witness :
  Edit.getLanguageFromExtension ".TSX"
  = Analyze.getLanguageFromExtension ".tsx".
Proof.
  apply (@edit_language_extends_analyze ".tsx" ".TSX").
  - vm_compute. discriminate.
  - reflexivity.
Defined.

End Languages.

(** ** More on the parser of the analyze command *)

Section AnalyzeParser2.

Import Js Host Analyze.

Lemma fromFirst_skip open pre rest :
  ~ In open pre -> fromFirst open (pre ++ open :: rest) = Some (open :: rest).
Proof.
  induction pre as [|c pre IH]; intros Hno; cbn [fromFirst app].
  - now rewrite Ascii.eqb_refl.
  - destruct (Ascii.eqb_spec c open) as [->|Hne].
    + exfalso. apply Hno. now left.
    + apply IH. intros H. apply Hno. now right.
Qed.

Lemma upToLast_notin close cs : ~ In close cs -> upToLast close cs = None.
Proof.
  induction cs as [|c cs IH]; intros Hno; cbn [upToLast]; [reflexivity|].
  rewrite IH by (intros H; apply Hno; now right).
  destruct (Ascii.eqb_spec c close) as [->|Hne]; [|reflexivity].
  exfalso. apply Hno. now left.
Qed.

Lemma upToLast_keep close body post :
  ~ In close post ->
  upToLast close (body ++ close :: post) = Some (body ++ [close]).
Proof.
  intros Hno. induction body as [|c body IH]; cbn [upToLast app].
  - rewrite (@upToLast_notin close post Hno). now rewrite Ascii.eqb_refl.
  - now rewrite IH.
Qed.

Lemma jsonMatch_wrapped before middle after :
  ~ In "{"%char (chars before) -> ~ In "}"%char (chars after) ->
  jsonMatch (wrapped before middle after)
  = Some ("{" ++ middle ++ "}")%string.
Proof.
  intros Hb Ha. unfold jsonMatch, wrapped.
  rewrite !chars_append. cbn [chars list_ascii_of_string app].
  rewrite (@fromFirst_skip _ _ _ Hb).
  change ("{"%char :: chars middle ++ "}"%char :: chars after)
    with (("{"%char :: chars middle) ++ "}"%char :: chars after).
  rewrite (@upToLast_keep _ _ _ Ha).
  f_equal. cbn [app string_of_list_ascii]. f_equal.
  unfold chars.
  change ["}"%char] with (list_ascii_of_string "}").
  rewrite <- chars_append. unfold chars.
  now rewrite string_of_list_ascii_of_string.
Qed.

(** X20. Text before the first opening brace and after the last closing brace
    of a response is ignored: the result is that of the response without
    it. *)
Theorem parseAnalysisResponse_ignores_prose
  (before middle after filePath : string) :
  ~ In "{"%char (chars before) -> ~ In "}"%char (chars after) ->
  parseAnalysisResponse (wrapped before middle after) filePath
  = parseAnalysisResponse ("{" ++ middle ++ "}") filePath.
Proof.
  intros Hb Ha. unfold parseAnalysisResponse, readAnalysis.
  rewrite (@jsonMatch_wrapped before middle after Hb Ha).
  assert (H : jsonMatch ("{" ++ middle ++ "}")
              = Some ("{" ++ middle ++ "}")%string).
  { apply (@jsonMatch_wrapped "" middle ""); intros []. }
  change ("{" ++ middle ++ "}")%string
    with (wrapped "" middle "") at 1.
  rewrite H. reflexivity.
Qed.

Lemma parseAnalysisResponse_ignores_prose_witness :
  parseAnalysisResponse
    (wrapped "Here is the analysis: " (quoted "'issues': []") " Done.")
    "a.ts"
  = parseAnalysisResponse ("{" ++ quoted "'issues': []" ++ "}") "a.ts".
Proof.
  apply parseAnalysisResponse_ignores_prose.
  - vm_compute. intuition discriminate.
  - vm_compute. intuition discriminate.
Defined.

Lemma truthy_orElse a b : truthy b = true -> truthy (orElse a b) = true.
Proof. intros H. unfold orElse. destruct (truthy a) eqn:E; assumption. Qed.

(** X21. Whatever the oracle wrote, the result names the file that was
    analyzed, and its issues, its suggestions and its metrics are there:
    none is [null] or [undefined], so that reading their properties never
    throws. *)
Theorem parseAnalysisResponse_is_complete (response filePath : string) :
  let r := parseAnalysisResponse response filePath in
  get r "file" = Normal (Str filePath)
  /\ present r "issues" /\ present r "suggestions" /\ present r "metrics".
Proof.
  cbv zeta. unfold parseAnalysisResponse, readAnalysis, present.
  destruct (JSON_parse _) as [parsed|e]; cbn [Js.bind].
  2:{ cbn. repeat split; eexists; split; reflexivity. }
  destruct (get parsed "issues") as [i|e]; cbn [Js.bind].
  2:{ cbn. repeat split; eexists; split; reflexivity. }
  destruct (get parsed "suggestions") as [s|e]; cbn [Js.bind].
  2:{ cbn. repeat split; eexists; split; reflexivity. }
  destruct (get parsed "metrics") as [m|e]; cbn [Js.bind].
  2:{ cbn. repeat split; eexists; split; reflexivity. }
  unfold resultValue. cbn [get lookup String.eqb Ascii.eqb Bool.eqb].
  repeat split; eexists; (split; [reflexivity|]);
    apply truthy_orElse; reflexivity.
Qed.

End AnalyzeParser2.

(** ** More on the batch of the analyze command *)

Section Batch2.

Import Js Host Analyze.

(** The run of the analysis of one file. *)
Lemma analyzeFile_run w fs filePath fullAnalysis :
  let run := analyzeFile w filePath fullAnalysis fs in
  files run = fs
  /\ match contentOf filePath fs with
     | Some content =>
         if readable w filePath then
           if configured w then
             events run = analysisSteps w fs fullAnalysis filePath
             /\ exists r, result run = Returned r
           else
             events run = [Read filePath]
             /\ exists e, result run = Raised e
         else
           events run = analysisSteps w fs fullAnalysis filePath
           /\ exists e, result run = Raised e
     | None =>
         events run = analysisSteps w fs fullAnalysis filePath
         /\ exists e, result run = Raised e
     end.
Proof.
  cbv zeta. unfold analyzeFile, analysisSteps, requestFor.
  rewrite result_bind, files_bind, events_bind.
  assert (Hrd : readFile w filePath fs
                = {| result := match contentOf filePath fs with
                               | Some content =>
                                   if readable w filePath
                                   then Returned content
                                   else Raised (Error "EACCES")
                               | None => Raised (Error "ENOENT")
                               end;
                     files := fs; events := [Read filePath] |})
    by reflexivity.
  rewrite !Hrd. clear Hrd. cbn [result files events].
  destruct (contentOf filePath fs) as [content|] eqn:Hc.
  2:{ cbn [app]. split; [reflexivity|]. split; [reflexivity | eauto]. }
  destruct (readable w filePath) eqn:Hr.
  2:{ cbn [app]. split; [reflexivity|]. split; [reflexivity | eauto]. }
  destruct (configured w) eqn:Hcfg; cbn [negb].
  2:{ cbn. split; [reflexivity|]. split; [reflexivity | eauto]. }
  unfold tryCatch, generate, emit, Host.bind, lift.
  cbn [result files events].
  destruct (generateContent w _) as [[text|]|e]; cbn [result files events ret raise app].
  - destruct (String.eqb text ""); cbn [result files events ret raise app];
      (split; [reflexivity|]); (split; [reflexivity | eauto]).
  - split; [reflexivity|]. split; [reflexivity | eauto].
  - split; [reflexivity|]. split; [reflexivity | eauto].
Qed.

Lemma analysisSteps_events w fs fullAnalysis filePath :
  Forall analysisEvent (analysisSteps w fs fullAnalysis filePath).
Proof.
  unfold analysisSteps.
  destruct (contentOf filePath fs); [destruct (readable w filePath)|];
    repeat constructor.
Qed.

Lemma analyzeFile_quiet w fs filePath fullAnalysis :
  files (analyzeFile w filePath fullAnalysis fs) = fs
  /\ Forall analysisEvent (events (analyzeFile w filePath fullAnalysis fs)).
Proof.
  destruct (@analyzeFile_run w fs filePath fullAnalysis) as [Hf H].
  split; [exact Hf|].
  pose proof (analysisSteps_events w fs fullAnalysis filePath) as Hs.
  destruct (contentOf filePath fs);
    [destruct (readable w filePath); [destruct (configured w)|]|];
    destruct H as [-> _]; try exact Hs.
  repeat constructor.
Qed.

Lemma analyzeEach_quiet w fullAnalysis batch : forall done fs,
  files (analyzeEach w batch fullAnalysis done fs) = fs
  /\ Forall analysisEvent (events (analyzeEach w batch fullAnalysis done fs)).
Proof.
  induction batch as [|f rest IH]; intros done fs; cbn [analyzeEach].
  - split; constructor.
  - destruct (@analyzeFile_quiet w fs f fullAnalysis) as [Hf He].
    rewrite files_bind, events_bind.
    destruct (result (analyzeFile w f fullAnalysis fs)) as [r|e|n];
      try (rewrite ?app_nil_r; split; assumption).
    rewrite Hf. destruct (IH (done ++ [r]) fs) as [Hf' He'].
    split; [exact Hf'|]. apply Forall_app. now split.
Qed.

(** All that the analysis of a target does is read files and consult the
    oracle. *)
Lemma analyzeCodebase_quiet (w : World) (fs : Files)
  (target : string) (fullAnalysis : bool) :
  let run := analyzeCodebase w target fullAnalysis fs in
  files run = fs /\ Forall analysisEvent (events run).
Proof.
  cbv zeta. unfold analyzeCodebase.
  rewrite files_bind, events_bind.
  destruct (isFile w target) as [single|e]; cbn [lift ret raise result files events];
    [|split; constructor].
  rewrite files_bind, events_bind.
  destruct single; cbn [ret result files events app].
  - apply analyzeEach_quiet.
  - destruct (getCodeFiles w target) as [batch|e];
      cbn [lift ret raise result files events app];
      [apply analyzeEach_quiet | split; constructor].
Qed.

Lemma analyzeEach_stops w fs fullAnalysis pre f post : forall done,
  configured w = true ->
  Forall (canRead w fs) pre -> ~ canRead w fs f ->
  let run := analyzeEach w (pre ++ f :: post) fullAnalysis done fs in
  (exists e, result run = Raised e)
  /\ events run
     = flat_map (analysisSteps w fs fullAnalysis) pre ++ [Read f].
Proof.
  intros done Hcfg Hpre Hf. cbv zeta. revert done.
  induction Hpre as [|p pre Hp _ IH]; intros done; cbn [app analyzeEach flat_map].
  - destruct (@analyzeFile_run w fs f fullAnalysis) as [_ H].
    rewrite result_bind, events_bind.
    unfold analysisSteps in H.
    destruct (contentOf f fs) as [content|] eqn:Hc.
    + destruct (readable w f) eqn:Hr.
      * exfalso. apply Hf. split; eauto.
      * destruct H as [-> [e ->]]. eauto.
    + destruct H as [-> [e ->]]. eauto.
  - destruct (@analyzeFile_run w fs p fullAnalysis) as [Hfs H].
    destruct Hp as [[content Hc] Hr].
    rewrite result_bind, events_bind, Hfs.
    unfold analysisSteps in *. rewrite Hc, Hr, Hcfg in H. rewrite Hc, Hr.
    destruct H as [-> [r ->]].
    destruct (IH (done ++ [r])) as [He Hev].
    split; [exact He|]. rewrite Hev. now rewrite <- app_assoc.
Qed.

(** X22. The batch ends at the first file that is missing or cannot be read:
    the error leaves [analyzeCodebase], the results of the files before
    it are lost with it, and no later file is read or sent to the
    oracle. *)
Theorem analyzeCodebase_stops_at_unreadable
  (w : World) (fs : Files) (target : string) (fullAnalysis : bool)
  (pre post : list string) (f : string) :
  configured w = true ->
  batchOf w target (pre ++ f :: post) ->
  Forall (canRead w fs) pre ->
  ~ canRead w fs f ->
  let run := analyzeCodebase w target fullAnalysis fs in
  (exists e, result run = Raised e)
  /\ events run
     = flat_map (analysisSteps w fs fullAnalysis) pre ++ [Read f].
Proof.
  intros Hcfg Hbatch Hpre Hf. cbv zeta.
  destruct (@analyzeEach_stops w fs fullAnalysis pre f post [] Hcfg Hpre Hf)
    as [He Hev].
  unfold analyzeCodebase. rewrite result_bind, events_bind.
  destruct Hbatch as [[Hfile Heq]|[Hdir Hlist]].
  - rewrite Hfile. cbn [lift ret result files events app].
    rewrite result_bind, events_bind. cbn [ret result files events app].
    rewrite <- Heq. split; assumption.
  - rewrite Hdir. cbn [lift ret result files events app].
    rewrite result_bind, events_bind, Hlist.
    cbn [lift ret result files events app]. split; assumption.
Qed.

Lemma analyzeCodebase_stops_at_unreadable_witness :
  (exists e,
     result (analyzeCodebase (batchWorld "b.ts") "src" false threeFiles)
     = Raised e)
  /\ events (analyzeCodebase (batchWorld "b.ts") "src" false threeFiles)
     = flat_map (analysisSteps (batchWorld "b.ts") threeFiles false) ["a.ts"]
         ++ [Read "b.ts"].
Proof.
  apply (@analyzeCodebase_stops_at_unreadable (batchWorld "b.ts") threeFiles
           "src" false ["a.ts"] ["c.ts"] "b.ts").
  - reflexivity.
  - right. split; reflexivity.
  - repeat constructor; simpl; eauto.
  - intros [_ H]. discriminate.
Defined.

End Batch2.

(** ** More on the summary *)

Section Summary2.

Import Js Analyze.
Local Open Scope Z_scope.

Lemma total_bounds (figure : AnalysisResult -> Z) lo hi results :
  (forall r, In r results -> lo <= figure r <= hi) ->
  lo * size results <= total figure results <= hi * size results.
Proof.
  unfold size. induction results as [|r rest IH]; intros H.
  - cbn. lia.
  - cbn [total fold_right length].
    assert (Hr : lo <= figure r <= hi) by (apply H; now left).
    assert (Hrest : lo * Z.of_nat (length rest) <= total figure rest
                    <= hi * Z.of_nat (length rest))
      by (apply IH; intros x Hx; apply H; now right).
    unfold total in *. lia.
Qed.

Lemma mean_bounds (a n lo hi : Z) (q : Q) :
  0 < n -> lo * n <= a <= hi * n ->
  (q * inject_Z n == inject_Z a)%Q ->
  (inject_Z lo <= q <= inject_Z hi)%Q.
Proof.
  intros Hn [Hlo Hhi] Hq.
  assert (Hpos : (0 < inject_Z n)%Q).
  { unfold Qlt. simpl. lia. }
  split.
  - apply (Qmult_le_r _ _ (inject_Z n) Hpos). rewrite Hq.
    rewrite <- inject_Z_mult. rewrite <- Zle_Qle. exact Hlo.
  - apply (Qmult_le_r _ _ (inject_Z n) Hpos). rewrite Hq.
    rewrite <- inject_Z_mult. rewrite <- Zle_Qle. exact Hhi.
Qed.

Lemma rounded_bounds (round : Q -> Q) (n lo hi : Z) (q : Q) :
  rounds round -> 0 < n ->
  n * Z.max (Z.abs lo) (Z.abs hi) <= exactIntegers ->
  (inject_Z lo <= q <= inject_Z hi)%Q ->
  (inject_Z lo <= round q <= inject_Z hi)%Q.
Proof.
  intros [Hmono Hexact] Hn Hsmall [Hlo Hhi].
  assert (Hl : Z.abs lo <= exactIntegers) by nia.
  assert (Hh : Z.abs hi <= exactIntegers) by nia.
  split.
  - rewrite <- (Hexact lo Hl). now apply Hmono.
  - rewrite <- (Hexact hi Hh). now apply Hmono.
Qed.

(** X23. For a batch that is not empty, of results whose complexities lie
    between [lo] and [hi] and whose maintainabilities lie between [lo'] and
    [hi'], few and small enough for the sums to be integers that doubles
    hold exactly, the averages are numbers between these bounds: the exact
    quotients are, and so are the quotients under every rounding that
    keeps the order and leaves such integers as they are, as the division
    of doubles does. *)
Theorem displayResults_averages_in_range (results : list AnalysisResult)
  (lo hi lo' hi' : Z) :
  results <> [] ->
  (forall r, In r results ->
     lo <= complexity (metrics r) <= hi
     /\ lo' <= maintainabilityIndex (metrics r) <= hi') ->
  sumsExact results lo hi -> sumsExact results lo' hi' ->
  exists c m,
    averageComplexity (displayResults results) = Finite c
    /\ averageMaintainability (displayResults results) = Finite m
    /\ (inject_Z lo <= c <= inject_Z hi)%Q
    /\ (inject_Z lo' <= m <= inject_Z hi')%Q
    /\ forall round, rounds round ->
         (inject_Z lo <= round c <= inject_Z hi)%Q
         /\ (inject_Z lo' <= round m <= inject_Z hi')%Q.
Proof.
  intros Hne Hall Hc Hm. apply size_positive in Hne.
  unfold displayResults; cbn [averageComplexity averageMaintainability].
  rewrite !fold_left_total. cbn [Z.add].
  destruct (@divide_positive
              (total (fun r => complexity (metrics r)) results)
              (size results) Hne) as (c & Hqc & Heqc).
  destruct (@divide_positive
              (total (fun r => maintainabilityIndex (metrics r)) results)
              (size results) Hne) as (m & Hqm & Heqm).
  assert (Hbc : (inject_Z lo <= c <= inject_Z hi)%Q).
  { eapply mean_bounds; [exact Hne | | exact Heqc].
    apply total_bounds. intros r Hr. now apply Hall. }
  assert (Hbm : (inject_Z lo' <= m <= inject_Z hi')%Q).
  { eapply mean_bounds; [exact Hne | | exact Heqm].
    apply total_bounds. intros r Hr. now apply Hall. }
  exists c, m. split; [exact Hqc|]. split; [exact Hqm|].
  split; [exact Hbc|]. split; [exact Hbm|].
  intros round Hr. split.
  - exact (@rounded_bounds round (size results) lo hi c Hr Hne Hc Hbc).
  - exact (@rounded_bounds round (size results) lo' hi' m Hr Hne Hm Hbm).
Qed.

Lemma displayResults_averages_in_range_witness :
  exists c m,
    averageComplexity
      (displayResults [reviewed "a.ts" 4 80; neutralResult "b.ts"])
    = Finite c
    /\ averageMaintainability
         (displayResults [reviewed "a.ts" 4 80; neutralResult "b.ts"])
       = Finite m
    /\ (inject_Z 0 <= c <= inject_Z 10)%Q
    /\ (inject_Z 0 <= m <= inject_Z 100)%Q
    /\ forall round, rounds round ->
         (inject_Z 0 <= round c <= inject_Z 10)%Q
         /\ (inject_Z 0 <= round m <= inject_Z 100)%Q.
Proof.
  apply (@displayResults_averages_in_range
           [reviewed "a.ts" 4 80; neutralResult "b.ts"] 0 10 0 100).
  - discriminate.
  - intros r [<-|[<-|[]]]; cbn; lia.
  - vm_compute. discriminate.
  - vm_compute. discriminate.
Defined.

End Summary2.

(** ** The analyze command as a whole *)

Section WholeCommand.

Import Js Host Analyze.
Local Open Scope Z_scope.

Lemma analysisEvent_harmless trace :
  Forall analysisEvent trace -> Forall harmless trace.
Proof.
  apply Forall_impl. intros [] H; try exact I; contradiction.
Qed.

Lemma analysisEvent_no_confirm trace :
  Forall analysisEvent trace -> ~ In Confirm trace.
Proof.
  intros H Hin. rewrite Forall_forall in H. exact (H _ Hin).
Qed.

(** The run of [displayResults]. *)
Lemma displayResults_run w results autoFix fs :
  AnalyzeCommand.displayResults w results autoFix fs
  = let summary := displayResults results in
    if autoFix && (issuesFound summary >? 0) then
      {| result :=
           Returned
             (AnalyzeCommand.Displayed summary
                (if confirmProceed w
                 then match result (AnalyzeCommand.applyAutoFixes results fs)
                      with
                      | Returned fixed => Some fixed
                      | _ => None
                      end
                 else None));
         files := fs; events := [Confirm] |}
    else {| result := Returned (AnalyzeCommand.Displayed summary None);
            files := fs; events := [] |}.
Proof.
  unfold AnalyzeCommand.displayResults. cbv zeta.
  destruct (autoFix && (issuesFound (displayResults results) >? 0));
    [|reflexivity].
  unfold confirm, emit, Host.bind, ret, AnalyzeCommand.applyAutoFixes.
  cbn [result files events].
  destruct (confirmProceed w); reflexivity.
Qed.

(** The run of the command, from the run of the analysis. *)
Lemma analyzeCommand_run w options fs :
  let a := analyzeCodebase w (AnalyzeCommand.targetOf (AnalyzeCommand.file options))
             (AnalyzeCommand.isTrue (AnalyzeCommand.full options)) fs in
  AnalyzeCommand.analyzeCommand w options fs
  = if negb (configured w) then
      {| result := Exited 1; files := fs; events := [] |}
    else if AnalyzeCommand.isTrue (AnalyzeCommand.watch options) then
      {| result := Returned AnalyzeCommand.Watching; files := fs;
         events := [] |}
    else
      match result a with
      | Returned results =>
          match Edit.decodeAll decodeResult results with
          | Some typed =>
              let d := AnalyzeCommand.displayResults w typed
                         (AnalyzeCommand.isTrue (AnalyzeCommand.fix' options))
                         (files a) in
              {| result := result d; files := files d;
                 events := events a ++ events d |}
          | None =>
              {| result := Returned (AnalyzeCommand.OutsideInterface results);
                 files := files a; events := events a |}
          end
      | Raised e =>
          {| result := Exited 1; files := files a; events := events a |}
      | Exited n =>
          {| result := Exited n; files := files a; events := events a |}
      end.
Proof.
  cbv zeta. unfold AnalyzeCommand.analyzeCommand.
  destruct (configured w); cbn [negb]; [|reflexivity].
  destruct (AnalyzeCommand.isTrue (AnalyzeCommand.watch options));
    [reflexivity|].
  unfold tryCatch, Host.bind. cbn [result files events].
  destruct (result (analyzeCodebase w _ _ fs)) as [results|e|n] eqn:Ha;
    cbn [result files events].
  - destruct (Edit.decodeAll decodeResult results) as [typed|].
    + rewrite displayResults_run. cbv zeta.
      destruct (_ && _); cbn [result files events]; reflexivity.
    + cbn [ret result files events]. now rewrite app_nil_r.
  - unfold exit. cbn [result files events]. now rewrite app_nil_r.
  - reflexivity.
Qed.

Lemma analyzeFile_never_exits w fs filePath fullAnalysis n :
  result (analyzeFile w filePath fullAnalysis fs) <> Exited n.
Proof.
  destruct (@analyzeFile_run w fs filePath fullAnalysis) as [_ H].
  destruct (contentOf filePath fs);
    [destruct (readable w filePath); [destruct (configured w)|]|];
    destruct H as [_ [x ->]]; discriminate.
Qed.

Lemma analyzeEach_never_exits w fs fullAnalysis batch n : forall done,
  result (analyzeEach w batch fullAnalysis done fs) <> Exited n.
Proof.
  induction batch as [|f rest IH]; intros done; cbn [analyzeEach];
    [discriminate|].
  rewrite result_bind.
  pose proof (@analyzeFile_never_exits w fs f fullAnalysis) as Hne.
  destruct (@analyzeFile_quiet w fs f fullAnalysis) as [Hf _].
  destruct (result (analyzeFile w f fullAnalysis fs)) as [r|e|m].
  - rewrite Hf. apply IH.
  - discriminate.
  - exfalso. now apply (Hne m).
Qed.

Lemma analyzeCodebase_never_exits w fs target fullAnalysis n :
  result (analyzeCodebase w target fullAnalysis fs) <> Exited n.
Proof.
  unfold analyzeCodebase. rewrite result_bind.
  destruct (isFile w target) as [single|e];
    cbn [lift ret raise result files events]; [|discriminate].
  rewrite result_bind.
  destruct single; cbn [ret result files events].
  - apply analyzeEach_never_exits.
  - destruct (getCodeFiles w target) as [batch|e];
      cbn [lift ret raise result files events];
      [apply analyzeEach_never_exits | discriminate].
Qed.

Ltac by_run w options fs :=
  let Hrun := fresh "Hrun" in
  pose proof (@analyzeCommand_run w options fs) as Hrun; cbv zeta in Hrun;
  rewrite Hrun; clear Hrun;
  pose proof (@analyzeCodebase_quiet w fs
                (AnalyzeCommand.targetOf (AnalyzeCommand.file options))
                (AnalyzeCommand.isTrue (AnalyzeCommand.full options)))
    as Hquiet; cbv zeta in Hquiet; destruct Hquiet as [Hfiles Hevents];
  pose proof (@analyzeCodebase_never_exits w fs
                (AnalyzeCommand.targetOf (AnalyzeCommand.file options))
                (AnalyzeCommand.isTrue (AnalyzeCommand.full options)))
    as Hnever.

(** X24. The analyze command changes no file and records no session, with
    any options, any files and any answers of the oracle and of the user:
    also with [fix] set and the fixes accepted, every file has the content
    it had. *)
Theorem analyzeCommand_changes_nothing (w : World) (fs : Files)
  (options : AnalyzeCommand.Options) :
  let run := AnalyzeCommand.analyzeCommand w options fs in
  files run = fs /\ Forall harmless (events run).
Proof.
  cbv zeta. by_run w options fs.
  apply analysisEvent_harmless in Hevents.
  destruct (configured w); cbn [negb]; [|split; constructor].
  destruct (AnalyzeCommand.isTrue (AnalyzeCommand.watch options));
    [split; constructor|].
  destruct (result (analyzeCodebase w _ _ fs)) as [results|e|n];
    try (split; assumption).
  destruct (Edit.decodeAll decodeResult results) as [typed|];
    [|split; assumption].
  rewrite displayResults_run. cbv zeta.
  destruct (_ && _); cbn [result files events]; (split; [exact Hfiles|]).
  - apply Forall_app. split; [exact Hevents | repeat constructor].
  - now rewrite app_nil_r.
Qed.

(** X25. No error leaves the analyze command: a missing configuration and
    every error of the analysis end the process with status 1, and, for
    results of the declared interface, nothing else does. *)
Theorem analyzeCommand_exits_on_error (w : World) (fs : Files)
  (options : AnalyzeCommand.Options) :
  let target := AnalyzeCommand.targetOf (AnalyzeCommand.file options) in
  let fullAnalysis := AnalyzeCommand.isTrue (AnalyzeCommand.full options) in
  let run := AnalyzeCommand.analyzeCommand w options fs in
  let failed :=
    configured w = false
    \/ AnalyzeCommand.watch options <> Some true
       /\ exists e,
            result (analyzeCodebase w target fullAnalysis fs) = Raised e in
  (forall e, result run <> Raised e)
  /\ (forall status, result run = Exited status -> status = 1)
  /\ (failed -> result run = Exited 1)
  /\ (shaped w target fullAnalysis fs ->
      forall status, result run = Exited status -> failed).
Proof.
  cbv zeta.
  enough (H : (forall e,
                 result (AnalyzeCommand.analyzeCommand w options fs)
                 <> Raised e)
              /\ forall status,
                   result (AnalyzeCommand.analyzeCommand w options fs)
                   = Exited status
                   <-> status = 1
                       /\ (configured w = false
                           \/ AnalyzeCommand.watch options <> Some true
                              /\ exists e,
                                   result (analyzeCodebase w
                                             (AnalyzeCommand.targetOf
                                                (AnalyzeCommand.file options))
                                             (AnalyzeCommand.isTrue
                                                (AnalyzeCommand.full options))
                                             fs)
                                   = Raised e)).
  { destruct H as [Hr He]. split; [exact Hr|]. split; [|split].
    - intros status Hs. now apply He in Hs.
    - intros Hf. apply He. now split.
    - intros _ status Hs. now apply He in Hs. }
  by_run w options fs.
  destruct (configured w); cbn [negb].
  2:{ split; [discriminate|]. intros status. split.
      - intros H. injection H as <-. auto.
      - intros [-> _]. reflexivity. }
  destruct (AnalyzeCommand.watch options) as [[|]|] eqn:Hw;
    cbn [AnalyzeCommand.isTrue].
  { split; [discriminate|]. intros status. split; [discriminate|].
    intros [_ [H|[H _]]]; [discriminate | congruence]. }
  all: destruct (result (analyzeCodebase w _ _ fs)) as [results|e|n] eqn:Ha;
    try (exfalso; now apply (Hnever n)).
  all: try (destruct (Edit.decodeAll decodeResult results) as [typed|];
            [rewrite displayResults_run; cbv zeta;
             destruct (_ && _)|]; cbn [result files events];
            (split; [discriminate|]); intros status;
            (split; [discriminate|]);
            intros [_ [H|[_ [e H]]]]; discriminate).
  all: split; [discriminate|]; intros status; split;
    [ intros H; injection H as <-; split; [reflexivity|];
      right; split; [discriminate | eauto]
    | intros [-> _]; reflexivity ].
Qed.

(** X26. For results of the declared interface the user is asked at most
    once, as the last event of the run, and then the summary has been
    displayed.  When the summary is displayed, the user is asked exactly
    when [fix] is set and the summary counts an issue, and the report of
    fixes is made exactly when the user has been asked and has accepted. *)
Theorem fixes_are_offered_once (w : World) (fs : Files)
  (options : AnalyzeCommand.Options) :
  let run := AnalyzeCommand.analyzeCommand w options fs in
  (shaped w (AnalyzeCommand.targetOf (AnalyzeCommand.file options))
     (AnalyzeCommand.isTrue (AnalyzeCommand.full options)) fs ->
   In Confirm (events run) ->
   exists trace summary fixed,
     events run = trace ++ [Confirm] /\ ~ In Confirm trace
     /\ result run = Returned (AnalyzeCommand.Displayed summary fixed))
  /\ forall summary fixed,
       result run = Returned (AnalyzeCommand.Displayed summary fixed) ->
       (In Confirm (events run)
        <-> AnalyzeCommand.fix' options = Some true
            /\ 0 < issuesFound summary)
       /\ (fixed <> None
           <-> In Confirm (events run) /\ confirmProceed w = true).
Proof.
  cbv zeta.
  enough (H : (In Confirm
                 (events (AnalyzeCommand.analyzeCommand w options fs)) ->
               exists trace summary fixed,
                 events (AnalyzeCommand.analyzeCommand w options fs)
                 = trace ++ [Confirm] /\ ~ In Confirm trace
                 /\ result (AnalyzeCommand.analyzeCommand w options fs)
                    = Returned (AnalyzeCommand.Displayed summary fixed))
              /\ forall summary fixed,
                   result (AnalyzeCommand.analyzeCommand w options fs)
                   = Returned (AnalyzeCommand.Displayed summary fixed) ->
                   (In Confirm
                      (events (AnalyzeCommand.analyzeCommand w options fs))
                    <-> AnalyzeCommand.fix' options = Some true
                        /\ 0 < issuesFound summary)
                   /\ (fixed <> None
                       <-> In Confirm
                             (events
                                (AnalyzeCommand.analyzeCommand w options fs))
                           /\ confirmProceed w = true)).
  { destruct H as [H1 H2]. split; [intros _; exact H1 | exact H2]. }
  by_run w options fs.
  apply analysisEvent_no_confirm in Hevents.
  destruct (configured w); cbn [negb].
  2:{ split; [intros []|]. discriminate. }
  destruct (AnalyzeCommand.isTrue (AnalyzeCommand.watch options)).
  { split; [intros []|]. discriminate. }
  destruct (result (analyzeCodebase w _ _ fs)) as [results|e|n] eqn:Ha;
    cbn [result files events].
  2,3: split; [intros H; contradiction | discriminate].
  destruct (Edit.decodeAll decodeResult results) as [typed|];
    cbn [result files events].
  2:{ split; [intros H; contradiction | discriminate]. }
  rewrite displayResults_run. cbv zeta.
  assert (Hfix : AnalyzeCommand.isTrue (AnalyzeCommand.fix' options) = true
                 <-> AnalyzeCommand.fix' options = Some true).
  { destruct (AnalyzeCommand.fix' options) as [[|]|]; cbn;
      split; congruence. }
  destruct (AnalyzeCommand.isTrue (AnalyzeCommand.fix' options)) eqn:Hf;
    cbn [andb].
  - destruct (Z.gtb_spec (issuesFound (displayResults typed)) 0) as [Hpos|Hz];
      cbn [result files events].
    + split.
      * intros _. eexists _, _, _. repeat split; [exact Hevents].
      * intros summary fixed H. injection H as <- <-. split.
        -- split; [intros _; split; [now apply Hfix | lia]|].
           intros _. apply in_or_app. right. now left.
        -- unfold AnalyzeCommand.applyAutoFixes, ret. cbn [result].
           destruct (confirmProceed w); split.
           ++ intros _. split; [|reflexivity].
              apply in_or_app. right. now left.
           ++ discriminate.
           ++ congruence.
           ++ intros [_ H]. discriminate.
    + rewrite app_nil_r. split; [intros H; contradiction|].
      intros summary fixed H. injection H as <- <-. split.
      * split; [intros H; contradiction | intros [_ H]; lia].
      * split; [congruence | intros [H _]; contradiction].
  - rewrite app_nil_r. split; [intros H; contradiction|].
    intros summary fixed H. injection H as <- <-. split.
    + split; [intros H; contradiction|].
      intros [H _]. apply Hfix in H. discriminate.
    + split; [congruence | intros [H _]; contradiction].
Qed.

End WholeCommand.
